(** * Catalog view synchronisation: records component, records service, orders component

    A shallow embedding of the TypeScript sources

    - [RecordsComponent] and [RecordsService] (src/unnamed/part_000),
    - [OrdersComponent] (src/src/app/ecommerce/orders/orders.component.ts,
      and its second variant src/unnamed/part_001),

    followed by the properties of the synchronisation layer.

    Modelling conventions.
    - Decoded server payloads are immutable JSON trees ([JsValue]).
    - The view's record objects and arrays live in a store ([gmap loc cell]):
      an array is a list of references, so that aliasing between
      [this.records] and [this.filteredRecords], in-place mutation of a record
      and the identity of a list reference are all expressible.
    - JavaScript numbers are restricted to integers ([Z]), which add as the
      doubles do ([Num.add]: exact on the safe integers, rounded from
      [2 ^ 53] on); no property below computes with fractional prices or
      with NaN.
    - Records are read at their declared types ([IRecord]); a statement that
      depends on how a payload value of another type would be read says
      that the payload has the declared types ([typed_record]).
    - Strings are sequences of 8-bit characters; a statement that depends on
      [toLowerCase] or [trim] says that the text it reads is ASCII
      ([Text.ascii_only]), where both are what JavaScript computes.
    - An asynchronous call is split into the part that runs when the method
      is called and the callbacks that run when the remote call settles; the
      outcome of the remote call is an argument. *)

From Stdlib Require Import ZArith Ascii String.
From stdpp Require Import base option list strings gmap pretty.

Open Scope Z_scope.
Open Scope string_scope.

(** ** JavaScript values and exceptions *)

Module Js.

#[warnings="-register-all"]
Inductive JsValue : Type :=
  | JUndefined
  | JNull
  | JBool (b : bool)
  | JNum (n : Z)
  | JStr (s : string)
  | JArr (xs : list JsValue)
  | JObj (ps : list (string * JsValue)).

Inductive JsError : Type :=
  | TypeError            (* property read on null or undefined *)
  | Error (msg : string) (* [throw new Error(msg)] *).

Inductive result (A : Type) : Type :=
  | Ok (a : A)
  | Throw (e : JsError).
Arguments Ok {A} a.
Arguments Throw {A} e.

Definition rbind {A B} (m : result A) (k : A -> result B) : result B :=
  match m with
  | Ok a => k a
  | Throw e => Throw e
  end.

Notation "'do' x <- m ; k" := (rbind m (fun x => k))
  (at level 10, x name, m at level 100, k at level 200).

(** [!!v] *)
Definition truthy (v : JsValue) : bool :=
  match v with
  | JUndefined | JNull => false
  | JBool b => b
  | JNum n => negb (Z.eqb n 0)
  | JStr s => negb (String.eqb s "")
  | JArr _ | JObj _ => true
  end.

(** [Array.isArray(v)] *)
Definition isArray (v : JsValue) : bool :=
  match v with JArr _ => true | _ => false end.

Definition elements (v : JsValue) : list JsValue :=
  match v with JArr xs => xs | _ => [] end.

(** First binding of [k] in a property list (keys of a decoded object are
    unique, so first and last agree). *)
Fixpoint assoc (k : string) (ps : list (string * JsValue)) : option JsValue :=
  match ps with
  | [] => None
  | (k', v) :: ps' => if String.eqb k k' then Some v else assoc k ps'
  end.

(** [v.k] for the keys the sources read ([$values], [data], [stock],
    [idRecord], ...): a TypeError on null and undefined, the own property of
    an object, and undefined on arrays and primitives (none of those keys is
    [length] or an index). *)
Definition prop (v : JsValue) (k : string) : result JsValue :=
  match v with
  | JUndefined | JNull => Throw TypeError
  | JObj ps => Ok (default JUndefined (assoc k ps))
  | _ => Ok JUndefined
  end.

(** [v.k] where the source has already established that [v] is truthy. *)
Definition prop_of_truthy (v : JsValue) (k : string) : JsValue :=
  match v with
  | JObj ps => default JUndefined (assoc k ps)
  | _ => JUndefined
  end.

(** [typeof v === 'object'] (true of null, arrays and objects). *)
Definition typeof_object (v : JsValue) : bool :=
  match v with JNull | JArr _ | JObj _ => true | _ => false end.

(** [typeof v === 'number'] *)
Definition typeof_number (v : JsValue) : bool :=
  match v with JNum _ => true | _ => false end.

Definition index_props (xs : list JsValue) : list (string * JsValue) :=
  imap (fun i x => (pretty i, x)) xs.

Definition char_values (s : string) : list JsValue :=
  (fun c => JStr (String c EmptyString)) <$> String.list_ascii_of_string s.

(** Own enumerable properties, in enumeration order: what [Object.keys],
    [Object.values] and object spread see. *)
Definition own_props (v : JsValue) : list (string * JsValue) :=
  match v with
  | JObj ps => ps
  | JArr xs => index_props xs
  | JStr s => index_props (char_values s)
  | _ => []
  end.

Definition object_keys (v : JsValue) : list string := fst <$> own_props v.
Definition object_values (v : JsValue) : list JsValue := snd <$> own_props v.

(** [{ ...props, k: v }]: an existing key keeps its place and takes the new
    value, a new key goes last. *)
Fixpoint set_prop (k : string) (v : JsValue) (ps : list (string * JsValue))
  : list (string * JsValue) :=
  match ps with
  | [] => [(k, v)]
  | (k', v') :: ps' =>
      if String.eqb k k' then (k', v) :: ps' else (k', v') :: set_prop k v ps'
  end.

End Js.
Export Js.

(** ** Envelope handling, one definition per call site *)

Module Envelope.

(** RecordsService.getRecords, lines 569-583. *)
Definition service_records (response : JsValue) : list JsValue :=
  if isArray response then elements response
  else if truthy response && typeof_object response then
    let values := prop_of_truthy response "$values" in
    if isArray values then elements values
    else if bool_decide (0 < length (object_keys response))%nat
         then object_values response
    else []
  else [].

(** RecordsComponent.getRecords, lines 148-155. *)
Definition component_records (data : JsValue) : list JsValue :=
  if isArray data then elements data
  else if truthy data && isArray (prop_of_truthy data "$values")
       then elements (prop_of_truthy data "$values")
  else if truthy data && isArray (prop_of_truthy data "data")
       then elements (prop_of_truthy data "data")
  else [].

(** RecordsComponent.getRecords, the groups answer, lines 167-172. *)
Definition component_load_groups (groupsResponse : JsValue) : list JsValue :=
  if isArray groupsResponse then elements groupsResponse
  else if truthy groupsResponse
          && isArray (prop_of_truthy groupsResponse "$values")
       then elements (prop_of_truthy groupsResponse "$values")
  else [].

(** RecordsComponent.getGroups, lines 251-264: the property reads are not
    guarded by a truthiness test.  The boolean tells whether
    [console.warn] was called. *)
Definition component_getGroups (response : JsValue)
  : result (list JsValue * bool) :=
  if isArray response then Ok (elements response, false)
  else
    do values <- prop response "$values";
    if isArray values then Ok (elements values, false)
    else
      do data <- prop response "data";
      if isArray data then Ok (elements data, false)
      else Ok ([], true).

End Envelope.

(** ** The view model: typed records in a store *)

Module Store.

Definition loc := nat.

(** [groupId] is declared [number | null]; [save] also tests it against
    undefined. *)
Inductive nullable (A : Type) : Type :=
  | Undefined
  | Null
  | Val (a : A).
Arguments Undefined {A}.
Arguments Null {A}.
Arguments Val {A} a.

(** IRecord, as the component's literals and field uses give it.  The two
    optional fields [inCart] and [amount] are [None] while undefined. *)
Record IRecord : Type := mkRecord {
  idRecord : Z;
  titleRecord : string;
  yearOfPublication : option Z;
  imageRecord : option string;
  photo : option string;
  photoName : option string;
  price : Z;
  stock : Z;
  discontinued : bool;
  groupId : nullable Z;
  groupName : string;
  nameGroup : string;
  inCart : option bool;
  amount : option Z
}.

(** [{ ...record, stock: newStock }] *)
Definition with_stock (newStock : Z) (r : IRecord) : IRecord :=
  mkRecord (idRecord r) (titleRecord r) (yearOfPublication r) (imageRecord r)
    (photo r) (photoName r) (price r) newStock (discontinued r) (groupId r)
    (groupName r) (nameGroup r) (inCart r) (amount r).

(** [record.inCart = c; record.amount = a] *)
Definition with_cart (c : bool) (a : Z) (r : IRecord) : IRecord :=
  mkRecord (idRecord r) (titleRecord r) (yearOfPublication r) (imageRecord r)
    (photo r) (photoName r) (price r) (stock r) (discontinued r) (groupId r)
    (groupName r) (nameGroup r) (Some c) (Some a).

Inductive cell : Type :=
  | CRecord (r : IRecord)
  | CArray (items : list loc).

(** [new]: the next unused reference. *)
Definition alloc (c : cell) (h : gmap loc cell) : loc * gmap loc cell :=
  let l := fresh (dom h) in (l, <[l := c]> h).

Definition read_array (l : loc) (h : gmap loc cell) : list loc :=
  match h !! l with
  | Some (CArray items) => items
  | _ => []
  end.

Definition read_record (l : loc) (h : gmap loc cell) : option IRecord :=
  match h !! l with
  | Some (CRecord r) => Some r
  | _ => None
  end.

(** Assignment to fields of the object behind a reference. *)
Definition update_record (f : IRecord -> IRecord) (l : loc)
    (h : gmap loc cell) : gmap loc cell :=
  match h !! l with
  | Some (CRecord r) => <[l := CRecord (f r)]> h
  | _ => h
  end.

(** [[...items]] and every other array literal: a new array object. *)
Definition new_array (items : list loc) (h : gmap loc cell)
  : loc * gmap loc cell :=
  alloc (CArray items) h.

(** StockService's event [{ recordId, newStock }].  [recordId] is [None]
    when the publisher passed something that is not a number; such an event
    is [===] to no [idRecord]. *)
Record StockUpdate : Type := mkStockUpdate {
  recordId : option Z;
  newStock : Z
}.

(** [items.map(record => record.idRecord === recordId
                          ? { ...record, stock: newStock } : record)],
    without the allocation of the resulting array. *)
Fixpoint map_stock (u : StockUpdate) (items : list loc)
    (h : gmap loc cell) : list loc * gmap loc cell :=
  match items with
  | [] => ([], h)
  | l :: rest =>
      match read_record l h with
      | Some r =>
          if bool_decide (Some (idRecord r) = recordId u) then
            let '(l', h1) := alloc (CRecord (with_stock (newStock u) r)) h in
            let '(rest', h2) := map_stock u rest h1 in
            (l' :: rest', h2)
          else
            let '(rest', h2) := map_stock u rest h in
            (l :: rest', h2)
      | None =>
          let '(rest', h2) := map_stock u rest h in
          (l :: rest', h2)
      end
  end.

End Store.
Export Store.

(** ** Strings and typed reads of decoded objects *)

Module Text.

(** [Array.prototype.join]'s view of an element: null and undefined print
    as the empty string, a nested array joins with commas. *)
Fixpoint join_item (v : JsValue) : string :=
  match v with
  | JUndefined | JNull => ""
  | JBool true => "true"
  | JBool false => "false"
  | JNum n => pretty n
  | JStr s => s
  | JArr xs =>
      (fix go (ys : list JsValue) : string :=
         match ys with
         | [] => ""
         | [y] => join_item y
         | y :: ys' => join_item y +:+ "," +:+ go ys'
         end) xs
  | JObj _ => "[object Object]"
  end.

(** [items.join(sep)] *)
Fixpoint join (sep : string) (items : list JsValue) : string :=
  match items with
  | [] => ""
  | [y] => join_item y
  | y :: ys => join_item y +:+ sep +:+ join sep ys
  end.

(** The separator of [errorMessages.join('\n')]. *)
Definition newline : string := String (Ascii.ascii_of_nat 10) EmptyString.

(** Text of ASCII characters only.  This is the text on which the view
    model follows JavaScript: there [toLowerCase] maps the letters A to Z
    and nothing else, and [trim] removes tab, line feed, vertical tab, form
    feed, carriage return and space.  Beyond it JavaScript lower-cases by
    the Unicode tables and [trim] removes further characters (the no-break
    space and others), which the definitions below do not; a statement
    that depends on either says [ascii_only] of the text it reads. *)
Fixpoint ascii_only (s : string) : bool :=
  match s with
  | EmptyString => true
  | String c s' => (Ascii.nat_of_ascii c <? 128)%nat && ascii_only s'
  end.

(** [toLowerCase], on ASCII text. *)
Definition lower_ascii (c : ascii) : ascii :=
  let n := Ascii.nat_of_ascii c in
  if bool_decide (65 ≤ n ≤ 90)%nat then Ascii.ascii_of_nat (n + 32) else c.

Fixpoint toLowerCase (s : string) : string :=
  match s with
  | EmptyString => EmptyString
  | String c s' => String (lower_ascii c) (toLowerCase s')
  end.

(** [s.includes(t)] *)
Fixpoint includes (s t : string) : bool :=
  String.prefix t s
  || match s with
     | EmptyString => false
     | String _ s' => includes s' t
     end.

(** The white space that [trim] removes from ASCII text: tab, line feed,
    vertical tab, form feed, carriage return and space. *)
Definition is_space (c : ascii) : bool :=
  let n := Ascii.nat_of_ascii c in
  bool_decide (9 ≤ n ≤ 13)%nat || bool_decide (n = 32%nat).

(** [!s.trim()] on ASCII text: nothing but white space. *)
Fixpoint blank (s : string) : bool :=
  match s with
  | EmptyString => true
  | String c s' => is_space c && blank s'
  end.

End Text.

Module Decode.

(** The number a recordId argument is, if it is one. *)
Definition as_id (v : JsValue) : option Z :=
  match v with JNum n => Some n | _ => None end.

(** Reads of a field at its declared type.  [or_*] follow [v || default]
    for a value that has the declared type or is falsy.  A truthy value of
    another type (the text of a number for [groupId], say) stays what it is
    in the code; it is outside the typed view, where it reads as the
    default, and the statements that depend on such a read assume the
    declared type. *)
Definition num_or_zero (v : JsValue) : Z :=
  match v with JNum n => n | _ => 0 end.

Definition str_or_empty (v : JsValue) : string :=
  match v with JStr s => s | _ => "" end.

Definition num_or_null (v : JsValue) : option Z :=
  match v with
  | JNum n => if Z.eqb n 0 then None else Some n
  | _ => None
  end.

Definition str_or_null (v : JsValue) : option string :=
  match v with
  | JStr s => if String.eqb s "" then None else Some s
  | _ => None
  end.

Definition id_or_null (v : JsValue) : nullable Z :=
  match v with
  | JNum n => if Z.eqb n 0 then Null else Val n
  | _ => Null
  end.

(** Reads without a default, for an object used as an IRecord as it is. *)
Definition num_field (v : JsValue) : option Z :=
  match v with JNum n => Some n | _ => None end.

Definition str_field (v : JsValue) : option string :=
  match v with JStr s => Some s | _ => None end.

Definition bool_field (v : JsValue) : option bool :=
  match v with JBool b => Some b | _ => None end.

Definition id_field (v : JsValue) : nullable Z :=
  match v with
  | JNum n => Val n
  | JNull => Null
  | _ => Undefined
  end.

(** An object of the payload, used as an IRecord without conversion
    ([this.records = recordsArray]): every field is what the object
    carries; a field the object lacks reads as the empty value of its
    type. *)
Definition as_record (raw : JsValue) : IRecord :=
  let f := prop_of_truthy raw in
  mkRecord
    (num_or_zero (f "idRecord")) (str_or_empty (f "titleRecord"))
    (num_field (f "yearOfPublication")) (str_field (f "imageRecord"))
    (str_field (f "photo")) (str_field (f "photoName"))
    (num_or_zero (f "price")) (num_or_zero (f "stock"))
    (truthy (f "discontinued")) (id_field (f "groupId"))
    (str_or_empty (f "groupName")) (str_or_empty (f "nameGroup"))
    (bool_field (f "inCart")) (num_field (f "amount")).

End Decode.
Export Decode.

(** ** Numbers *)

Module Num.

(** The numbers of the view are the integers among the doubles.  [round]
    is the double nearest to an integer, a tie going to the even
    significand: up to [2 ^ 53] every integer is a double, from there on
    only the multiples of the unit in the last place.  (No sum of the
    component leaves the finite doubles: it adds 1 or -1 to a double.) *)
Definition round (n : Z) : Z :=
  let m := Z.abs n in
  if (m <? 2 ^ 53)%Z then n
  else
    let ulp := (2 ^ (Z.log2 m - 52))%Z in
    let q := (m / ulp)%Z in
    let r := (m mod ulp)%Z in
    let q' :=
      if (2 * r <? ulp)%Z then q
      else if (ulp <? 2 * r)%Z then (q + 1)%Z
      else if Z.even q then q else (q + 1)%Z in
    (Z.sgn n * (q' * ulp))%Z.

(** [a + b], as the doubles add. *)
Definition add (a b : Z) : Z := round (a + b).

(** [Number.isSafeInteger]: the integers strictly between [-2 ^ 53] and
    [2 ^ 53]; adding 1 to one of them or taking 1 from it is exact. *)
Definition safe (n : Z) : Prop := (- 2 ^ 53 < n < 2 ^ 53)%Z.

End Num.

(** ** RecordsComponent: state *)

Module View.

(** A field of a FormData as [append] stores it: a text, or the text
    [n.toString()] of the number [n]. *)
Inductive FormValue : Type :=
  | FormText (s : string)
  | FormNumber (n : Z).

(** The fields of a FormData, in the order they were appended. *)
Definition FormData : Type := list (string * FormValue).

(** Remote calls, in the order they were issued: the POST and the PUT
    (to [records/<idRecord>]) with the form they send. *)
Inductive Request : Type :=
  | GetRecords
  | GetGroups
  | PostRecord (formData : FormData)
  | PutRecord (idRecord : Z) (formData : FormData)
  | DeleteRecord (id : Z)
  | PutUpdateStock (id amount : Z)
  | CartAdd (record : loc)
  | CartRemove (record : loc).

(** The component's fields, the store they point into, and what the
    component can observe of the injected services: [userService.email],
    the remote calls issued and the events handed to the stock hub. *)
Record View : Type := mkView {
  heap : gmap loc cell;
  records : loc;
  filteredRecords : loc;
  visibleError : bool;
  errorMessage : JsValue;
  groups : list JsValue;
  searchText : string;
  record : IRecord;
  userEmail : option string;
  requests : list Request;
  published : list StockUpdate
}.

Definition set_store (h : gmap loc cell) (rs fs : loc) (st : View) : View :=
  mkView h rs fs (visibleError st) (errorMessage st) (groups st)
    (searchText st) (record st) (userEmail st) (requests st) (published st).

Definition set_heap (h : gmap loc cell) (st : View) : View :=
  set_store h (records st) (filteredRecords st) st.

Definition set_filteredRecords (h : gmap loc cell) (fs : loc) (st : View)
  : View :=
  set_store h (records st) fs st.

Definition set_visibleError (b : bool) (st : View) : View :=
  mkView (heap st) (records st) (filteredRecords st) b (errorMessage st)
    (groups st) (searchText st) (record st) (userEmail st) (requests st)
    (published st).

Definition set_errorMessage (m : JsValue) (st : View) : View :=
  mkView (heap st) (records st) (filteredRecords st) (visibleError st) m
    (groups st) (searchText st) (record st) (userEmail st) (requests st)
    (published st).

Definition set_groups (gs : list JsValue) (st : View) : View :=
  mkView (heap st) (records st) (filteredRecords st) (visibleError st)
    (errorMessage st) gs (searchText st) (record st) (userEmail st)
    (requests st) (published st).

Definition set_searchText (t : string) (st : View) : View :=
  mkView (heap st) (records st) (filteredRecords st) (visibleError st)
    (errorMessage st) (groups st) t (record st) (userEmail st)
    (requests st) (published st).

Definition set_record (r : IRecord) (st : View) : View :=
  mkView (heap st) (records st) (filteredRecords st) (visibleError st)
    (errorMessage st) (groups st) (searchText st) r (userEmail st)
    (requests st) (published st).

Definition issue (q : Request) (st : View) : View :=
  mkView (heap st) (records st) (filteredRecords st) (visibleError st)
    (errorMessage st) (groups st) (searchText st) (record st) (userEmail st)
    (requests st ++ [q]) (published st).

Definition log_published (u : StockUpdate) (st : View) : View :=
  mkView (heap st) (records st) (filteredRecords st) (visibleError st)
    (errorMessage st) (groups st) (searchText st) (record st) (userEmail st)
    (requests st) (published st ++ [u]).

(** The draft the component starts with and [resetForm] restores. *)
Definition empty_record : IRecord :=
  mkRecord 0 "" None None None None 0 0 false Null "" "" None None.

(** A freshly constructed component: [records] and [filteredRecords] are
    two distinct empty arrays. *)
Definition initial (email : option string) : View :=
  mkView {[ 0%nat := CArray []; 1%nat := CArray [] ]} 0%nat 1%nat
    false (JStr "") [] "" empty_record email [] [].

(** *** The stockUpdate$ subscription (ngOnInit, lines 106-121) *)

Definition onStockUpdate (update : option StockUpdate) (st : View) : View :=
  match update with
  | None => st
  | Some u =>
      let '(rs, h1) := map_stock u (read_array (records st) (heap st)) (heap st) in
      let '(rl, h2) := new_array rs h1 in
      let '(fs, h3) := map_stock u (read_array (filteredRecords st) h2) h2 in
      let '(fl, h4) := new_array fs h3 in
      set_store h4 rl fl st
  end.

(** *** The cart$ subscription (ngOnInit, lines 124-135) *)

Module Cart.
(** A line of the cart: the fields of a cart item the subscription reads. *)
Record Item : Type := mkItem {
  idRecord : Z;
  amount : option Z
}.
End Cart.

(** [x || 0] on an optional number *)
Definition or_zero (x : option Z) : Z := default 0 x.

(** The body of the [forEach]: [find], then the two assignments. *)
Definition apply_cart (cartItems : list Cart.Item) (r : IRecord) : IRecord :=
  let cartItem :=
    find (fun item => bool_decide (Cart.idRecord item = idRecord r)) cartItems in
  with_cart
    (match cartItem with Some _ => true | None => false end)
    (match cartItem with
     | Some item => or_zero (Cart.amount item)
     | None => 0
     end)
    r.

Definition onCart (cartItems : list Cart.Item) (st : View) : View :=
  let h1 :=
    foldl (fun h l => update_record (apply_cart cartItems) l h)
      (heap st) (read_array (records st) (heap st)) in
  let '(fl, h2) := new_array (read_array (records st) h1) h1 in
  set_filteredRecords h2 fl st.

(** *** The stock hub *)

(** Modelled from the spec: StockService (stock.service.ts is not among the
    sources).  Section 4.2: publish(event) delivers the event to every
    currently-subscribed listener, synchronously, and the hub only notifies;
    section 3: the event is (recordId, newStock).  So a call hands the pair
    on as it is, and this component's subscription runs at once. *)
Definition notifyStockUpdate (recordId : option Z) (newStock : Z) (st : View)
  : View :=
  let u := mkStockUpdate recordId newStock in
  onStockUpdate (Some u) (log_published u st).

(** Modelled from the spec: StockService.updateStock, by which, section
    4.3, load publishes each record's current stock to the hub. *)
Definition updateStock (recordId : option Z) (newStock : Z) (st : View)
  : View :=
  notifyStockUpdate recordId newStock st.

(** *** Handlers that can throw: state and exception *)

(** A handler runs on the component and either returns or throws; what it
    assigned before throwing stays assigned. *)
Definition M (A : Type) : Type := View -> result A * View.

Definition ret {A} (a : A) : M A := fun st => (Ok a, st).

Definition bind {A B} (m : M A) (k : A -> M B) : M B :=
  fun st =>
    match m st with
    | (Ok a, st') => k a st'
    | (Throw e, st') => (Throw e, st')
    end.

Definition throw {A} (e : JsError) : M A := fun st => (Throw e, st).

Definition lift {A} (r : result A) : M A := fun st => (r, st).

Definition modify (f : View -> View) : M unit := fun st => (Ok tt, f st).

Notation "'run' x <- m ; k" := (bind m (fun x => k))
  (at level 10, x name, m at level 100, k at level 200).

(** [items.forEach(body)] *)
Fixpoint forEach {A} (body : A -> M unit) (items : list A) : M unit :=
  match items with
  | [] => ret tt
  | x :: rest => run _ <- body x; forEach body rest
  end.

(** [items.map(body)] on an immutable payload *)
Fixpoint mapM {A B} (body : A -> M B) (items : list A) : M (list B) :=
  match items with
  | [] => ret []
  | x :: rest =>
      run y <- body x;
      run ys <- mapM body rest;
      ret (y :: ys)
  end.

(** What an observable delivers to its subscriber. *)
Inductive notification (A : Type) : Type :=
  | Next (a : A)
  | Err (err : JsValue).
Arguments Next {A} a.
Arguments Err {A} err.

(** What the remote end answers to one HTTP request. *)
Inductive Http : Type :=
  | HttpOk (body : JsValue)
  | HttpError (err : JsValue).

(** *** RecordsService.getRecords (lines 564-617) *)

(** The callback of [records.map], lines 586-595.  Reading [record.stock]
    throws on a null or undefined element. *)
Definition service_record (record : JsValue) : M JsValue :=
  run s <- lift (prop record "stock");
  let stock := if typeof_number s then num_or_zero s else 0 in
  run _ <- modify (updateStock (as_id (prop_of_truthy record "idRecord")) stock);
  ret (JObj (set_prop "stock" (JNum stock) (own_props record))).

(** The [tap], lines 597-605: [record.stock || 0] of a processed record. *)
Definition service_notify (record : JsValue) : M unit :=
  modify (notifyStockUpdate (as_id (prop_of_truthy record "idRecord"))
            (num_or_zero (prop_of_truthy record "stock"))).

(** The whole pipe.  An exception thrown inside [map] is an error of the
    observable, and [catchError] turns every error, transport errors
    included, into the emission of an empty array: the subscriber's [next]
    always runs, its [error] never. *)
Definition service_getRecords (answer : Http) (st : View)
  : notification JsValue * View :=
  let st0 := issue GetRecords st in
  match answer with
  | HttpError _ => (Next (JArr []), st0)
  | HttpOk response =>
      match mapM service_record (Envelope.service_records response) st0 with
      | (Ok records, st1) =>
          match forEach service_notify records st1 with
          | (Ok _, st2) => (Next (JArr records), st2)
          | (Throw _, st2) => (Next (JArr []), st2)
          end
      | (Throw _, st1) => (Next (JArr []), st1)
      end
  end.

(** *** RecordsComponent.controlError (lines 427-484) *)

(** [err.status === n] *)
Definition status_is (status : JsValue) (n : Z) : bool :=
  match status with JNum m => Z.eqb m n | _ => false end.

(** [err.status >= 500], for the numeric status HttpErrorResponse has. *)
Definition status_ge (status : JsValue) (n : Z) : bool :=
  match status with JNum m => Z.leb n m | _ => false end.

(** [...v] in an argument list: the elements of an array, the characters
    of a string, a TypeError on anything else. *)
Definition spread_iterable (v : JsValue) : result (list JsValue) :=
  match v with
  | JArr xs => Ok xs
  | JStr s => Ok (char_values s)
  | _ => Throw TypeError
  end.

(** The [for (const key in errors)] loop, lines 435-440. *)
Fixpoint validation_messages (entries : list (string * JsValue))
  : result (list JsValue) :=
  match entries with
  | [] => Ok []
  | (_, v) :: rest =>
      if truthy v then
        do xs <- spread_iterable v;
        do ys <- validation_messages rest;
        Ok (xs ++ ys)%list
      else validation_messages rest
  end.

Definition controlError (err : JsValue) : M unit :=
  run status <- lift (prop err "status");
  let error := prop_of_truthy err "error" in
  let is_object := truthy error && typeof_object error in
  if status_is status 400 then
    if is_object && truthy (prop_of_truthy error "errors") then
      run msgs <- lift (validation_messages
                          (own_props (prop_of_truthy error "errors")));
      modify (set_errorMessage (JStr (Text.join Text.newline msgs)))
    else if is_object && truthy (prop_of_truthy error "title") then
      modify (set_errorMessage (prop_of_truthy error "title"))
    else
      modify (set_errorMessage
                (JStr "Invalid data. Please check your input and try again."))
  else if status_is status 401 then
    modify (set_errorMessage (JStr "Unauthorized. Please log in again."))
  else if status_is status 403 then
    modify (set_errorMessage
              (JStr "You do not have permission to perform this action."))
  else if status_is status 404 then
    modify (set_errorMessage (JStr "The requested resource was not found."))
  else if status_ge status 500 then
    modify (set_errorMessage
              (JStr "A server error occurred. Please try again later."))
  else if is_object && truthy (prop_of_truthy error "message") then
    modify (set_errorMessage (prop_of_truthy error "message"))
  else if match error with JStr _ => true | _ => false end then
    modify (set_errorMessage error)
  else if truthy (prop_of_truthy err "message") then
    modify (set_errorMessage (prop_of_truthy err "message"))
  else
    modify (set_errorMessage
              (JStr "An unexpected error occurred. Please try again.")).

(** *** RecordsComponent.getRecords (lines 144-223) *)

(** Lines 158-162: seed the stock service. *)
Definition init_stock (record : JsValue) : M unit :=
  run idv <- lift (prop record "idRecord");
  let stock := prop_of_truthy record "stock" in
  if truthy idv && typeof_number stock
  then modify (updateStock (as_id idv) (num_or_zero stock))
  else ret tt.

(** [groups.find(g => g.idGroup === groupId)]; reading [g.idGroup] throws
    on a null or undefined element met before a match. *)
Fixpoint find_group (groups : list JsValue) (groupId : Z)
  : result (option JsValue) :=
  match groups with
  | [] => Ok None
  | g :: rest =>
      do idGroup <- prop g "idGroup";
      if status_is idGroup groupId then Ok (Some g) else find_group rest groupId
  end.

Definition with_group (name : string) (r : IRecord) : IRecord :=
  mkRecord (idRecord r) (titleRecord r) (yearOfPublication r) (imageRecord r)
    (photo r) (photoName r) (price r) (stock r) (discontinued r) (groupId r)
    name name (inCart r) (amount r).

(** The callback of [recordsArray.map], lines 175-202. *)
Definition process_record (groups : list JsValue) (record : JsValue)
  : result IRecord :=
  do _ <- prop record "idRecord";
  let f := prop_of_truthy record in
  let processedRecord :=
    mkRecord
      (num_or_zero (f "idRecord")) (str_or_empty (f "titleRecord"))
      (num_or_null (f "yearOfPublication")) (str_or_null (f "imageRecord"))
      (str_or_null (f "photo")) (str_or_null (f "photoName"))
      (num_or_zero (f "price")) (num_or_zero (f "stock"))
      (truthy (f "discontinued")) (id_or_null (f "groupId"))
      "" "" None None in
  match groupId processedRecord with
  | Val gid =>
      do group <- find_group groups gid;
      match group with
      | Some g =>
          Ok (with_group (str_or_empty (prop_of_truthy g "nameGroup"))
                processedRecord)
      | None => Ok processedRecord
      end
  | _ => Ok processedRecord
  end.

Fixpoint process_records (groups : list JsValue) (recordsArray : list JsValue)
  : result (list IRecord) :=
  match recordsArray with
  | [] => Ok []
  | record :: rest =>
      do r <- process_record groups record;
      do rs <- process_records groups rest;
      Ok (r :: rs)
  end.

(** One new object per record of [rs], in order. *)
Fixpoint alloc_records (rs : list IRecord) (h : gmap loc cell)
  : list loc * gmap loc cell :=
  match rs with
  | [] => ([], h)
  | r :: rest =>
      let '(l, h1) := alloc (CRecord r) h in
      let '(ls, h2) := alloc_records rest h1 in
      (l :: ls, h2)
  end.

(** [this.records = rs; this.filteredRecords = [...this.records]] for an
    array [rs] of objects the component did not hold before. *)
Definition install (rs : list IRecord) (st : View) : View :=
  let '(ls, h1) := alloc_records rs (heap st) in
  let '(rl, h2) := new_array ls h1 in
  let '(fl, h3) := new_array (read_array rl h2) h2 in
  set_store h3 rl fl st.

(** [next] of the records subscription, up to the groups request. *)
Definition getRecords_next (data : JsValue) : M (list JsValue) :=
  let recordsArray := Envelope.component_records data in
  run _ <- forEach init_stock recordsArray;
  run _ <- modify (issue GetGroups);
  ret recordsArray.

(** [next] of the groups subscription, lines 166-207. *)
Definition getRecords_groups_next (recordsArray : list JsValue)
    (groupsResponse : JsValue) : M unit :=
  let groups := Envelope.component_load_groups groupsResponse in
  run processedRecords <- lift (process_records groups recordsArray);
  modify (install processedRecords).

(** [error] of the groups subscription, lines 208-214. *)
Definition getRecords_groups_error (recordsArray : list JsValue)
    (err : JsValue) : M unit :=
  run _ <- modify (install (as_record <$> recordsArray));
  controlError err.

(** [error] of the records subscription, lines 217-221. *)
Definition getRecords_error (err : JsValue) : M unit :=
  run _ <- modify (set_visibleError true);
  controlError err.

(** [getRecords()], given what the remote end answers to the records
    request and what GroupsService.getGroups delivers. *)
Definition getRecords (records_answer : Http)
    (groups_answer : notification JsValue) : M unit :=
  fun st =>
    match service_getRecords records_answer st with
    | (Next data, st1) =>
        (run recordsArray <- getRecords_next data;
         match groups_answer with
         | Next groupsResponse =>
             getRecords_groups_next recordsArray groupsResponse
         | Err err => getRecords_groups_error recordsArray err
         end) st1
    | (Err err, st1) => getRecords_error err st1
    end.

(** *** RecordsComponent.getGroups (lines 247-275) *)

Definition getGroups_next (response : JsValue) : M unit :=
  run r <- lift (Envelope.component_getGroups response);
  modify (set_groups (fst r)).

Definition getGroups_error (err : JsValue) : M unit :=
  run _ <- modify (set_visibleError true);
  controlError err.

Definition getGroups (answer : notification JsValue) : M unit :=
  run _ <- modify (issue GetGroups);
  match answer with
  | Next response => getGroups_next response
  | Err err => getGroups_error err
  end.

(** *** RecordsComponent.filterRecords (lines 225-240) *)

Definition matches (searchTerm : string) (r : IRecord) : bool :=
  Text.includes (Text.toLowerCase (titleRecord r)) searchTerm
  || Text.includes (Text.toLowerCase (groupName r)) searchTerm
  || match yearOfPublication r with
     | Some y => Text.includes (pretty y) searchTerm
     | None => false
     end.

Definition filterRecords (st : View) : View :=
  let h := heap st in
  let items := read_array (records st) h in
  if Text.blank (searchText st) then
    let '(fl, h1) := new_array items h in
    set_filteredRecords h1 fl st
  else
    let searchTerm := Text.toLowerCase (searchText st) in
    let kept :=
      List.filter
        (fun l => match read_record l h with
                  | Some r => matches searchTerm r
                  | None => false
                  end) items in
    let '(fl, h1) := new_array kept h in
    set_filteredRecords h1 fl st.

(** *** RecordsService.addRecord, updateRecord, deleteRecord *)

(** [!record.groupId] *)
Definition group_missing (g : nullable Z) : bool :=
  match g with
  | Val n => Z.eqb n 0
  | _ => true
  end.

(** The six [append] calls both services share (lines 675-680, 773-779),
    for a record that has passed the guard, so that its [groupId] is a
    number; [x || default] on a field of its declared type is the field.
    [photo] is no File in the typed view, so no [Photo] part is appended;
    neither [photoName] nor [imageRecord] is ever sent. *)
Definition form_fields (record : IRecord) : FormData :=
  [("TitleRecord", FormText (titleRecord record));
   ("Price", FormNumber (price record));
   ("Stock", FormNumber (stock record));
   ("Discontinued", FormText (if discontinued record then "true" else "false"));
   ("YearOfPublication",
    match yearOfPublication record with
    | Some y => FormNumber y
    | None => FormText ""
    end);
   ("GroupId",
    FormNumber (match groupId record with Val g => g | _ => 0 end))].

(** addRecord up to the point where the observable is returned and
    subscribed (lines 666-694): the guard throws before [http.post]. *)
Definition addRecord (record : IRecord) : M unit :=
  if group_missing (groupId record)
  then throw (Error "Group is required")
  else modify (issue (PostRecord (form_fields record))).

(** updateRecord, likewise (lines 764-793): its form starts with
    [IdRecord]. *)
Definition updateRecord (record : IRecord) : M unit :=
  if group_missing (groupId record)
  then throw (Error "Group is required")
  else modify
         (issue (PutRecord (idRecord record)
                   (("IdRecord", FormNumber (idRecord record))
                    :: form_fields record))).

(** The [map] and [tap] both services put on the response (lines 722-760,
    804-830): the body becomes an IRecord and its stock goes to the hub. *)
Definition saved_record (answer : Http) (st : View)
  : notification IRecord * View :=
  match answer with
  | HttpError err => (Err err, st)
  | HttpOk apiRecord =>
      if truthy apiRecord then
        let f := prop_of_truthy apiRecord in
        let r :=
          mkRecord
            (num_or_zero (f "idRecord")) (str_or_empty (f "titleRecord"))
            (num_or_null (f "yearOfPublication")) (str_or_null (f "imageRecord"))
            None (if truthy (f "photo") then Some "photo.jpg" else None)
            (num_or_zero (f "price")) (num_or_zero (f "stock"))
            (truthy (f "discontinued")) (id_or_null (f "groupId"))
            (str_or_empty (f "groupName")) (str_or_empty (f "groupName"))
            None None in
        (Next r, notifyStockUpdate (as_id (f "idRecord")) (stock r) st)
      else
        (Err (JObj [("message", JStr "No record data received from server")]),
         st)
  end.

(** deleteRecord (lines 834-846): [response.$values || {}] throws inside
    [map] on a null body, which the subscriber receives as an error. *)
Definition deleteRecord_service (id : Z) (answer : Http) (st : View)
  : notification JsValue * View :=
  let st0 := issue (DeleteRecord id) st in
  match answer with
  | HttpError err => (Err err, st0)
  | HttpOk response =>
      match prop response "$values" with
      | Ok v => (Next (if truthy v then v else JObj []), st0)
      | Throw _ => (Err (JObj [("message", JStr "TypeError")]), st0)
      end
  end.

(** *** RecordsService.decrementStock and incrementStock (lines 956-994) *)

Definition decrementStock (idRecord : Z) (answer : Http) (st : View)
  : notification JsValue * View :=
  let amount := -1 in
  let st0 := issue (PutUpdateStock idRecord amount) st in
  match answer with
  | HttpOk body => (Next body, notifyStockUpdate (Some idRecord) amount st0)
  | HttpError error => (Err error, st0)
  end.

Definition incrementStock (idRecord : Z) (answer : Http) (st : View)
  : notification JsValue * View :=
  let amount := 1 in
  let st0 := issue (PutUpdateStock idRecord amount) st in
  match answer with
  | HttpOk body => (Next body, notifyStockUpdate (Some idRecord) amount st0)
  | HttpError error => (Err error, st0)
  end.

(** *** RecordsComponent.save and deleteRecord (lines 300-373) *)

Definition resetForm (st : View) : View := set_record empty_record st.

(** [!titleRecord || !price || !stock] *)
Definition missing_required (r : IRecord) : bool :=
  String.eqb (titleRecord r) "" || Z.eqb (price r) 0 || Z.eqb (stock r) 0.

(** [{ ...this.record }] with an undefined groupId made null. *)
Definition recordToSave (r : IRecord) : IRecord :=
  mkRecord (idRecord r) (titleRecord r) (yearOfPublication r) (imageRecord r)
    (photo r) (photoName r) (price r) (stock r) (discontinued r)
    (match groupId r with Undefined => Null | g => g end)
    (groupName r) (nameGroup r) (inCart r) (amount r).

Definition save_next (records_answer : Http)
    (groups_answer : notification JsValue) : M unit :=
  run _ <- modify (set_visibleError false);
  run _ <- modify resetForm;
  getRecords records_answer groups_answer.

Definition save_error (err : JsValue) : M unit :=
  run _ <- modify (set_visibleError true);
  controlError err.

(** [save()]: [answer] is what the remote end says to the POST or PUT, the
    other two arguments feed the reload that follows a success. *)
Definition save (answer : Http) (records_answer : Http)
    (groups_answer : notification JsValue) : M unit :=
  fun st =>
    if missing_required (record st) then
      (Ok tt,
       set_errorMessage (JStr "Please fill in all required fields")
         (set_visibleError true st))
    else
      let toSave := recordToSave (record st) in
      (run _ <- (if Z.eqb (idRecord (record st)) 0
                 then addRecord toSave else updateRecord toSave);
       fun st1 =>
         match saved_record answer st1 with
         | (Next _, st2) => save_next records_answer groups_answer st2
         | (Err err, st2) => save_error err st2
         end) st.

Definition deleteRecord (id : Z) (answer : Http) (records_answer : Http)
    (groups_answer : notification JsValue) : M unit :=
  fun st =>
    match deleteRecord_service id answer st with
    | (Next _, st1) =>
        (run _ <- modify (set_visibleError false);
         getRecords records_answer groups_answer) st1
    | (Err err, st1) =>
        (run _ <- modify (set_visibleError true); controlError err) st1
    end.

(** *** RecordsComponent.addToCart and removeFromCart (lines 486-526) *)

(** How far the remote call of a cart operation has got.  CartService is
    not among the sources: the component sees of it only the observable it
    subscribes to, which is pending until it delivers [next] or [error]. *)
Inductive remote : Type :=
  | Pending
  | Resolved (response : JsValue)
  | Rejected (error : JsValue).

(** [!!userEmail] *)
Definition has_identity (email : option string) : bool :=
  match email with
  | Some e => negb (String.eqb e "")
  | None => false
  end.

(** [this.filteredRecords = [...this.records]] *)
Definition republish (st : View) : View :=
  let '(fl, h1) := new_array (read_array (records st) (heap st)) (heap st) in
  set_filteredRecords h1 fl st.

(** Lines 493-494: [record.amount = (record.amount || 0) + 1] *)
Definition added (r : IRecord) : IRecord :=
  with_cart true (Num.add (or_zero (amount r)) 1) r.

(** Lines 500-501 *)
Definition add_reverted (r : IRecord) : IRecord :=
  with_cart false 0 r.

(** Lines 514-515:
    [record.amount = Math.max(0, (record.amount || 0) - 1)], then
    [record.inCart = record.amount > 0] *)
Definition removed (r : IRecord) : IRecord :=
  let amount' := Z.max 0 (Num.add (or_zero (amount r)) (-1)) in
  with_cart (Z.ltb 0 amount') amount' r.

(** Lines 521-522: [record.amount = (record.amount || 0) + 1] *)
Definition remove_reverted (r : IRecord) : IRecord :=
  with_cart true (Num.add (or_zero (amount r)) 1) r.

Definition addToCart_next (record : loc) (st : View) : View :=
  republish (set_heap (update_record added record (heap st)) st).

Definition addToCart_error (record : loc) (st : View) : View :=
  republish (set_heap (update_record add_reverted record (heap st)) st).

Definition addToCart (record : loc) (outcome : remote) (st : View) : View :=
  if has_identity (userEmail st) then
    let st1 := issue (CartAdd record) st in
    match outcome with
    | Pending => st1
    | Resolved _ => addToCart_next record st1
    | Rejected _ => addToCart_error record st1
    end
  else st.

Definition removeFromCart_next (record : loc) (st : View) : View :=
  republish (set_heap (update_record removed record (heap st)) st).

Definition removeFromCart_error (record : loc) (st : View) : View :=
  republish (set_heap (update_record remove_reverted record (heap st)) st).

(** [!record.inCart] *)
Definition not_inCart (record : loc) (st : View) : bool :=
  match read_record record (heap st) with
  | Some r => negb (default false (inCart r))
  | None => true
  end.

Definition removeFromCart (record : loc) (outcome : remote) (st : View)
  : View :=
  if negb (has_identity (userEmail st)) || not_inCart record st then st
  else
    let st1 := issue (CartRemove record) st in
    match outcome with
    | Pending => st1
    | Resolved _ => removeFromCart_next record st1
    | Rejected _ => removeFromCart_error record st1
    end.

End View.
Export View.

(** ** OrdersComponent *)

Module Orders.

Inductive Request : Type :=
  | GetOrdersByUserEmail (email : string).

(** The component's fields and the remote calls it has issued. *)
Record View : Type := mkView {
  orders : list JsValue;
  filteredOrders : list JsValue;
  loading : bool;
  searchText : string;
  expandedOrderId : option Z;
  requests : list Request
}.

(** A freshly constructed component. *)
Definition initial : View := mkView [] [] true "" None [].

(** What OrderService.getOrdersByUserEmail delivers; the service is not
    among the sources. *)
Inductive answer : Type :=
  | Pending
  | Next (orders : JsValue)
  | Err (err : JsValue).

Definition nullish (v : JsValue) : bool :=
  match v with JUndefined | JNull => true | _ => false end.

Definition is_undefined (v : JsValue) : bool :=
  match v with JUndefined => true | _ => false end.

(** loadOrders of orders.component.ts (lines 74-119).  The [next] handler
    logs before it assigns: [JSON.parse(JSON.stringify(orders))] throws on
    undefined and [order.idOrder] throws on a null or undefined element, and
    then nothing is assigned. *)
Definition loadOrders (email : string) (a : answer) (st : View) : View :=
  let requests' := (requests st ++ [GetOrdersByUserEmail email])%list in
  let waiting :=
    mkView (orders st) (filteredOrders st) true (searchText st)
      (expandedOrderId st) requests' in
  match a with
  | Pending => waiting
  | Next orders =>
      let ordersArray := if isArray orders then elements orders else [] in
      if is_undefined orders || existsb nullish ordersArray then waiting
      else
        mkView ordersArray ordersArray false (searchText st)
          (expandedOrderId st) requests'
  | Err _ =>
      mkView [] [] false (searchText st) (expandedOrderId st) requests'
  end.

(** The variant of part_001 assigns the emission to [orders] as it comes
    (line 76).  When that is no array, [orders] holds a value the field of
    the typed view cannot: [Untyped raw st] is the component whose [orders]
    field holds [raw], its other fields being those of [st]. *)
Inductive View_v1 : Type :=
  | Typed (st : View)
  | Untyped (raw : JsValue) (st : View).

(** The fields other than [orders]. *)
Definition fields (v : View_v1) : View :=
  match v with
  | Typed st => st
  | Untyped _ st => st
  end.

(** What the [orders] field holds. *)
Definition held (v : View_v1) : JsValue :=
  match v with
  | Typed st => JArr (orders st)
  | Untyped raw _ => raw
  end.

(** loadOrders of the variant in part_001 (lines 72-87):
    [this.orders = orders; this.filteredOrders = [...orders];
    this.loading = false].  The spread throws on a value that is neither an
    array nor a string, after [orders] has been assigned and before the
    other two assignments. *)
Definition loadOrders_v1 (email : string) (a : answer) (st : View)
  : View_v1 :=
  let requests' := (requests st ++ [GetOrdersByUserEmail email])%list in
  let waiting :=
    mkView (orders st) (filteredOrders st) true (searchText st)
      (expandedOrderId st) requests' in
  match a with
  | Pending => Typed waiting
  | Next (JArr items) =>
      Typed (mkView items items false (searchText st) (expandedOrderId st)
               requests')
  | Next raw =>
      match spread_iterable raw with
      | Ok items =>
          Untyped raw
            (mkView (orders st) items false (searchText st)
               (expandedOrderId st) requests')
      | Throw _ => Untyped raw waiting
      end
  | Err _ =>
      Typed (mkView [] [] false (searchText st) (expandedOrderId st) requests')
  end.

(** [!!email] for the value [emailUser$] emits *)
Definition present (email : option string) : bool :=
  match email with
  | Some e => negb (String.eqb e "")
  | None => false
  end.

(** The emailUser$ subscription of the constructor (lines 61-67; part_001
    lines 59-65): [if (email) this.loadOrders(email)]. *)
Definition onEmail (email : option string) (a : answer) (st : View) : View :=
  match email with
  | Some e => if present email then loadOrders e a st else st
  | None => st
  end.

Definition onEmail_v1 (email : option string) (a : answer) (st : View)
  : View_v1 :=
  match email with
  | Some e => if present email then loadOrders_v1 e a st else Typed st
  | None => Typed st
  end.

End Orders.

(** ** The component as a transition system *)

Module Trace.

(** What can happen to a component that touches its lists: a stock event,
    a cart snapshot, a search, a load with the answers it gets, and the two
    cart operations with the outcome of their remote call. *)
Inductive event : Type :=
  | StockEvent (update : option StockUpdate)
  | CartEvent (cartItems : list Cart.Item)
  | Search (text : string)
  | Load (records_answer : Http) (groups_answer : notification JsValue)
  | AddToCart (record : loc) (outcome : remote)
  | RemoveFromCart (record : loc) (outcome : remote).

Definition step (st : View.View) (e : event) : View.View :=
  match e with
  | StockEvent update => onStockUpdate update st
  | CartEvent cartItems => onCart cartItems st
  | Search text => filterRecords (set_searchText text st)
  | Load records_answer groups_answer =>
      (getRecords records_answer groups_answer st).2
  | AddToCart record outcome => addToCart record outcome st
  | RemoveFromCart record outcome => removeFromCart record outcome st
  end.

(** The state of a component created for [email] after [events]. *)
Definition after (email : option string) (events : list event) : View.View :=
  foldl step (View.initial email) events.

End Trace.

(** ** A small catalogue to evaluate on *)

Module Sample.

Definition album (id : Z) (title : string) (inStock : Z) : IRecord :=
  mkRecord id title (Some 1969) None None None 20 inStock false (Val 1)
    "Apple" "Apple" None None.

(** A signed-in component holding two records, ids 7 and 8. *)
Definition catalogue : View.View :=
  install [album 7 "Abbey Road" 5; album 8 "Let It Be" 2]
    (View.initial (Some "user@example.com")).

(** The same after record 7 (the object at reference 2) was added to the
    cart once and the remote add succeeded: [inCart = true], [amount = 1]. *)
Definition with_one_in_cart : View.View :=
  addToCart 2%nat (Resolved JNull) catalogue.

(** A filled-in new record (identifier 0) for which no group was chosen. *)
Definition draft : IRecord :=
  mkRecord 0 "Help!" (Some 1965) None None None 20 3 false Null "" ""
    None None.

(** Two records as the catalog API sends them, the second one referring
    to a group that does not exist, and the one group there is. *)
Definition revolver : JsValue :=
  JObj [("idRecord", JNum 1); ("titleRecord", JStr "Revolver");
        ("stock", JNum 4); ("price", JNum 20); ("groupId", JNum 10)].

Definition aftermath : JsValue :=
  JObj [("idRecord", JNum 2); ("titleRecord", JStr "Aftermath");
        ("stock", JNum 1); ("price", JNum 18); ("groupId", JNum 99)].

Definition beatles : JsValue :=
  JObj [("idGroup", JNum 10); ("nameGroup", JStr "The Beatles")].

Definition order : JsValue :=
  JObj [("idOrder", JNum 1); ("orderDate", JStr "2024-05-01");
        ("paymentMethod", JStr "card"); ("total", JNum 40);
        ("userEmail", JStr "user@example.com")].

(** An orders component after the orders of one user arrived. *)
Definition orders_loaded : Orders.View :=
  Orders.onEmail (Some "user@example.com") (Orders.Next (JArr [order]))
    Orders.initial.

End Sample.

(** ** Vocabulary of the statements *)

Module Spec.

(** What [items.map(...)] of the stock subscription returns, entry by
    entry: an entry whose identifier is the event's becomes a reference
    that did not exist in [h], to an object of [h'] that is the old one
    with the new stock; any other entry is the reference it was. *)
Definition stock_entries (u : StockUpdate) (h h' : gmap loc cell)
    (old new : list loc) : Prop :=
  length new = length old ∧
  ∀ (i : nat) l r, old !! i = Some l → read_record l h = Some r →
    if bool_decide (Some (idRecord r) = recordId u)
    then ∃ l', new !! i = Some l' ∧ h !! l' = None
               ∧ h' !! l' = Some (CRecord (with_stock (newStock u) r))
    else new !! i = Some l.

(** [r'] is [r] in every field but [stock]. *)
Definition same_but_stock (r r' : IRecord) : Prop :=
  idRecord r' = idRecord r ∧ titleRecord r' = titleRecord r ∧
  yearOfPublication r' = yearOfPublication r ∧
  imageRecord r' = imageRecord r ∧ photo r' = photo r ∧
  photoName r' = photoName r ∧ price r' = price r ∧
  discontinued r' = discontinued r ∧ groupId r' = groupId r ∧
  groupName r' = groupName r ∧ nameGroup r' = nameGroup r ∧
  inCart r' = inCart r ∧ amount r' = amount r.

(** [r'] is [r] in every field but [inCart] and [amount]. *)
Definition same_but_cart (r r' : IRecord) : Prop :=
  idRecord r' = idRecord r ∧ titleRecord r' = titleRecord r ∧
  yearOfPublication r' = yearOfPublication r ∧
  imageRecord r' = imageRecord r ∧ photo r' = photo r ∧
  photoName r' = photoName r ∧ price r' = price r ∧ stock r' = stock r ∧
  discontinued r' = discontinued r ∧ groupId r' = groupId r ∧
  groupName r' = groupName r ∧ nameGroup r' = nameGroup r.

(** The stock subscription, entry by entry and field by field: an entry
    whose identifier is the event's becomes a reference that did not exist
    in [h], to an object of [h'] whose [stock] is the event's and whose
    other fields are the old object's; any other entry is the reference it
    was. *)
Definition stock_replaced (u : StockUpdate) (h h' : gmap loc cell)
    (old new : list loc) : Prop :=
  length new = length old ∧
  ∀ (i : nat) l r, old !! i = Some l → read_record l h = Some r →
    if bool_decide (Some (idRecord r) = recordId u)
    then ∃ l' r', new !! i = Some l' ∧ h !! l' = None
                  ∧ read_record l' h' = Some r'
                  ∧ stock r' = newStock u
                  ∧ same_but_stock r r'
                  ∧ read_record l h' = Some r
    else new !! i = Some l ∧ read_record l h' = Some r.

(** The cart marks a snapshot leaves on a record: those of the first line
    of the cart that carries the record's identifier, a missing amount
    counting as 0, and [false] and 0 when no line carries it. *)
Definition cart_marked (cartItems : list Cart.Item) (r r' : IRecord) : Prop :=
  (∀ before item after,
     cartItems = (before ++ item :: after)%list →
     Forall (fun i => Cart.idRecord i ≠ idRecord r) before →
     Cart.idRecord item = idRecord r →
     inCart r' = Some true ∧
     amount r' = Some (match Cart.amount item with Some a => a | None => 0%Z end)) ∧
  (Forall (fun i => Cart.idRecord i ≠ idRecord r) cartItems →
   inCart r' = Some false ∧ amount r' = Some 0%Z).

(** What [this.filteredRecords = [...this.records]] leaves behind: the base
    list reference is kept and the filtered list is a reference that did
    not exist before, holding the base list's entries. *)
Definition republished (st st' : View.View) : Prop :=
  records st' = records st ∧
  heap st !! filteredRecords st' = None ∧
  read_array (filteredRecords st') (heap st')
  = read_array (records st) (heap st).

(** Every run of the handler [m] relates the state it starts in to the
    state it ends in, whether it returns or throws. *)
Definition respects {A} (R : View.View → View.View → Prop) (m : M A) : Prop :=
  ∀ st r st', m st = (r, st') → R st st'.

(** Objects and arrays are only added: what existed is as it was. *)
Definition grown (st st' : View.View) : Prop := heap st ⊆ heap st'.

(** The two fields that show an error are as they were. *)
Definition same_error (st st' : View.View) : Prop :=
  visibleError st' = visibleError st ∧ errorMessage st' = errorMessage st.

(** The three envelope shapes of a payload that carries the sequence [xs]:
    the sequence itself, an object whose [$values] is the sequence, and an
    object whose [data] is the sequence while its [$values] is no array. *)
Inductive shape : Type :=
  | Bare
  | ValuesWrapped
  | DataWrapped.

Definition has_shape (s : shape) (payload : JsValue) (xs : list JsValue)
  : Prop :=
  match s with
  | Bare => payload = JArr xs
  | ValuesWrapped =>
      ∃ ps, payload = JObj ps ∧ assoc "$values" ps = Some (JArr xs)
  | DataWrapped =>
      ∃ ps, payload = JObj ps
            ∧ isArray (default JUndefined (assoc "$values" ps)) = false
            ∧ assoc "data" ps = Some (JArr xs)
  end.

(** The two list fields point at arrays of the store. *)
Definition lists_allocated (st : View.View) : Prop :=
  (∃ base, heap st !! records st = Some (CArray base)) ∧
  (∃ shown, heap st !! filteredRecords st = Some (CArray shown)).

(** Allocation of the lists, as a relation between the state a handler
    starts in and the state it ends in. *)
Definition keeps_lists (st st' : View.View) : Prop :=
  lists_allocated st → lists_allocated st'.

End Spec.
Export Spec.

(** ** What the lists show *)

Module Obs.

(** The records behind the entries of a list, in order ([None] for an entry
    that is no record object). *)
Definition contents (array : loc) (st : View.View) : list (option IRecord) :=
  (fun l => read_record l (heap st)) <$> read_array array (heap st).

(** What the base list and the displayed list hold. *)
Definition base (st : View.View) : list (option IRecord) :=
  contents (records st) st.

Definition shown (st : View.View) : list (option IRecord) :=
  contents (filteredRecords st) st.

Definition entries_are_records (h : gmap loc cell) (items : list loc) : Prop :=
  Forall (fun l => is_Some (read_record l h)) items.

(** Both list fields point at arrays, and every entry of both arrays points
    at a record object. *)
Definition well_formed (st : View.View) : Prop :=
  ∃ items shownItems,
    heap st !! records st = Some (CArray items) ∧
    heap st !! filteredRecords st = Some (CArray shownItems) ∧
    entries_are_records (heap st) items ∧
    entries_are_records (heap st) shownItems.

Definition keeps_well_formed (st st' : View.View) : Prop :=
  well_formed st → well_formed st'.

(** What a stock event does to one record. *)
Definition stock_applied (u : StockUpdate) (r : IRecord) : IRecord :=
  if bool_decide (Some (idRecord r) = recordId u)
  then with_stock (newStock u) r else r.

(** The test the search applies to an entry of the base list. *)
Definition search_hit (text : string) (o : option IRecord) : bool :=
  match o with
  | Some r => matches (Text.toLowerCase text) r
  | None => false
  end.

(** The text [t] occurs in the text [s]. *)
Definition occurs_in (t s : string) : Prop :=
  ∃ before after, s = before +:+ t +:+ after.

(** What the search looks for: the term occurs in the lower-cased title,
    in the lower-cased group name, or in the digits of the year. *)
Definition found_in (term : string) (r : IRecord) : Prop :=
  occurs_in term (Text.toLowerCase (titleRecord r)) ∨
  occurs_in term (Text.toLowerCase (groupName r)) ∨
  ∃ y, yearOfPublication r = Some y ∧ occurs_in term (pretty y).

(** A value that a numeric field of the typed view reads as the code does:
    a number, or a falsy value, which [|| 0] and [|| null] replace.  (A
    truthy value of another type, such as the text of a number, stays what
    it is in the code and is outside the typed view.) *)
Definition number_or_falsy (v : JsValue) : bool :=
  match v with
  | JNum _ => true
  | _ => negb (truthy v)
  end.

(** Likewise for a text field: a string, or a falsy value. *)
Definition string_or_falsy (v : JsValue) : bool :=
  match v with
  | JStr _ => true
  | _ => negb (truthy v)
  end.

(** A record of the payload whose identifier, stock and group identifier
    have their declared type, and a group whose name has. *)
Definition typed_record (record : JsValue) : bool :=
  number_or_falsy (prop_of_truthy record "idRecord")
  && number_or_falsy (prop_of_truthy record "stock")
  && number_or_falsy (prop_of_truthy record "groupId").

Definition typed_group (group : JsValue) : bool :=
  string_or_falsy (prop_of_truthy group "nameGroup").

(** A record the search reads as JavaScript does: its title and group name
    are ASCII text and its year, if any, is a safe integer, which
    [toString] prints digit by digit. *)
Definition plain (r : IRecord) : bool :=
  Text.ascii_only (titleRecord r) && Text.ascii_only (groupName r)
  && match yearOfPublication r with
     | Some y => (Z.abs y <? 2 ^ 53)%Z
     | None => true
     end.

Definition plain_entry (o : option IRecord) : Prop :=
  ∀ r, o = Some r → plain r = true.

(** The record's cart fields agree with each other: the amount is not
    negative, and the record is marked in-cart exactly when the amount is
    positive. *)
Definition cart_consistent (r : IRecord) : Prop :=
  (0 ≤ or_zero (amount r))%Z ∧
  (default false (inCart r) = true ↔ (0 < or_zero (amount r))%Z).

(** null or undefined: the values a property read throws on. *)
Definition nullish (v : JsValue) : bool :=
  match v with JUndefined | JNull => true | _ => false end.

(** What RecordsService.getRecords makes of one record of the payload: the
    record with its stock replaced by the number it is, or by 0. *)
Definition normalised (record : JsValue) : JsValue :=
  let s := prop_of_truthy record "stock" in
  JObj (set_prop "stock" (JNum (if typeof_number s then num_or_zero s else 0))
          (own_props record)).

(** The stock event RecordsService.getRecords publishes for a record. *)
Definition stock_event_of (record : JsValue) : StockUpdate :=
  let s := prop_of_truthy record "stock" in
  mkStockUpdate (as_id (prop_of_truthy record "idRecord"))
    (if typeof_number s then num_or_zero s else 0).

(** Only the store, the two list fields and the log of published stock
    events may differ: every other field is as it was. *)
Definition quiet (st st' : View.View) : Prop :=
  requests st' = requests st ∧ visibleError st' = visibleError st ∧
  errorMessage st' = errorMessage st ∧ record st' = record st ∧
  groups st' = groups st ∧ searchText st' = searchText st ∧
  userEmail st' = userEmail st.

End Obs.
Export Obs.

Module Forms.
Import Js Store View.

(** The request a save starts with: POST for the identifier 0, PUT for any
    other. *)
Definition save_request (r : IRecord) : Request :=
  if Z.eqb (idRecord r) 0 then PostRecord (form_fields (recordToSave r))
  else PutRecord (idRecord r)
         (("IdRecord", FormNumber (idRecord r)) :: form_fields (recordToSave r)).

(** The value a form carries under a name. *)
Fixpoint form_value (name : string) (formData : FormData) : option FormValue :=
  match formData with
  | [] => None
  | (k, v) :: rest => if String.eqb name k then Some v else form_value name rest
  end.

(** Whether the answer to a DELETE reaches the component as [next]: it has
    to be a success whose body is neither null nor undefined. *)
Definition delete_confirmed (answer : Http) : bool :=
  match answer with
  | HttpOk response => negb (nullish response)
  | HttpError _ => false
  end.


(** An entry the spread of the validation loop throws on. *)
Definition not_spreadable (v : JsValue) : Prop :=
  truthy v = true ∧ spread_iterable v = Throw TypeError.


Definition rejected (errors : JsValue) : JsValue :=
  JObj [("status", JNum 400); ("error", JObj [("errors", errors)])].

End Forms.
Export Forms.

(** ** More of the strings *)

Module Trim.
Import Text.

(** [s.trimStart()] and [s.trimEnd()], for the white space of
    [Text.is_space]. *)
Fixpoint trimStart (s : string) : string :=
  match s with
  | EmptyString => EmptyString
  | String c s' => if is_space c then trimStart s' else s
  end.

Fixpoint trimEnd (s : string) : string :=
  match s with
  | EmptyString => EmptyString
  | String c s' =>
      match trimEnd s' with
      | EmptyString => if is_space c then EmptyString else String c EmptyString
      | t => String c t
      end
  end.

(** [s.trim()] *)
Definition trim (s : string) : string := trimEnd (trimStart s).

End Trim.

(** ** OrdersComponent: the expanded row and the search *)

Module OrdersUI.
Import Js Text Trim Orders.

Definition set_filteredOrders (kept : list JsValue) (st : View) : View :=
  mkView (orders st) kept (loading st) (searchText st) (expandedOrderId st)
    (requests st).

Definition set_expandedOrderId (e : option Z) (st : View) : View :=
  mkView (orders st) (filteredOrders st) (loading st) (searchText st) e
    (requests st).

Definition set_searchText (s : string) (st : View) : View :=
  mkView (orders st) (filteredOrders st) (loading st) s (expandedOrderId st)
    (requests st).

(** toggleOrderDetails (lines 127-129; part_001 lines 95-97) *)
Definition toggleOrderDetails (orderId : Z) (st : View) : View :=
  set_expandedOrderId
    (if bool_decide (expandedOrderId st = Some orderId) then None
     else Some orderId) st.

(** isOrderExpanded (lines 131-133; part_001 lines 99-101) *)
Definition isOrderExpanded (orderId : Z) (st : View) : bool :=
  bool_decide (expandedOrderId st = Some orderId).

(** [items.filter(p)] for a callback that can throw: the first exception
    ends the call. *)
Fixpoint filter_result {A} (p : A -> result bool) (items : list A)
  : result (list A) :=
  match items with
  | [] => Ok []
  | x :: rest =>
      do keep <- p x;
      do kept <- filter_result p rest;
      Ok (if keep then x :: kept else kept)
  end.

(** The callback of part_001, lines 104-106:
    [order.orderDate.toLowerCase().includes(this.searchText.toLowerCase())].
    Reading [orderDate] throws on a null or undefined order, and
    [toLowerCase] is a method of strings only. *)
Definition date_matches (searchText : string) (order : JsValue)
  : result bool :=
  do orderDate <- prop order "orderDate";
  match orderDate with
  | JStr s => Ok (includes (toLowerCase s) (toLowerCase searchText))
  | _ => Throw TypeError
  end.

(** filterOrders of part_001 (lines 103-107); an exception leaves the
    fields as they are. *)
Definition filterOrders_v1 (st : View) : result View :=
  do kept <- filter_result (date_matches (searchText st)) (orders st);
  Ok (set_filteredOrders kept st).

(** [v?.toLowerCase() || ''] *)
Definition lower_or_empty (v : JsValue) : result string :=
  match v with
  | JUndefined | JNull => Ok ""
  | JStr s => Ok (toLowerCase s)
  | _ => Throw TypeError
  end.

(** [v?.toString() || ''] *)
Definition string_or_empty (v : JsValue) : string :=
  match v with
  | JUndefined | JNull => ""
  | _ => join_item v
  end.

Section locale.

(** [new Date(v).toLocaleDateString()]: what it prints depends on the
    locale of the browser; it throws on no value of a payload. *)
Variable toLocaleDateString : JsValue -> string.

(** The callback of orders.component.ts, lines 142-153: the three texts
    are computed before any is searched. *)
Definition order_matches (searchTerm : string) (order : JsValue)
  : result bool :=
  do date <- prop order "orderDate";
  let orderDate := toLowerCase (toLocaleDateString date) in
  do paymentMethod <- lower_or_empty (prop_of_truthy order "paymentMethod");
  let total := string_or_empty (prop_of_truthy order "total") in
  Ok (includes orderDate searchTerm
      || includes paymentMethod searchTerm
      || includes total searchTerm).

(** filterOrders of orders.component.ts (lines 135-155). *)
Definition filterOrders (st : View) : result View :=
  if String.eqb (searchText st) "" || String.eqb (trim (searchText st)) ""
  then Ok (set_filteredOrders (orders st) st)
  else
    let searchTerm := trim (toLowerCase (searchText st)) in
    do kept <- filter_result (order_matches searchTerm) (orders st);
    Ok (set_filteredOrders kept st).

End locale.

(** An order the callback of part_001 can read. *)
Definition has_date_string (order : JsValue) : bool :=
  match prop order "orderDate" with
  | Ok (JStr _) => true
  | _ => false
  end.


(** What a call of filterOrders leaves on display, or the exception. *)
Definition displayed (r : result View) : result (list JsValue) :=
  do st' <- r; Ok (filteredOrders st').

(** A formatter for the examples: the date as it was sent. *)
Definition as_sent (v : JsValue) : string := string_or_empty v.

(** Two orders and a stray null, as a payload could carry them. *)
Definition paid_by_card : JsValue :=
  JObj [("idOrder", JNum 1); ("orderDate", JStr "2024-05-01");
        ("paymentMethod", JStr "Credit Card"); ("total", JNum 30)].

Definition paid_in_cash : JsValue :=
  JObj [("idOrder", JNum 2); ("orderDate", JStr "2024-06-11");
        ("paymentMethod", JStr "Cash"); ("total", JNum 12)].

Definition two_orders : View :=
  mkView [paid_by_card; paid_in_cash] [paid_by_card; paid_in_cash] false ""
    None [].

End OrdersUI.

(** ** RecordsComponent.edit and extractImageName (lines 375-396) *)

Module Edit.
Import Js Store Decode View.

(** [s.split(sep)] for a separator of one character: never empty. *)
Fixpoint split (sep : ascii) (s : string) : list string :=
  match s with
  | EmptyString => [EmptyString]
  | String c s' =>
      if Ascii.eqb c sep then EmptyString :: split sep s'
      else match split sep s' with
           | seg :: more => String c seg :: more
           | [] => [String c EmptyString]
           end
  end.

(** Whether [c] occurs in [s]. *)
Fixpoint mentions (c : ascii) (s : string) : bool :=
  match s with
  | EmptyString => false
  | String d s' => Ascii.eqb d c || mentions c s'
  end.

Definition slash : ascii := Ascii.ascii_of_nat 47.

(** [url.split("/").pop() || ""] *)
Definition extractImageName (url : string) : string :=
  match last (split slash url) with
  | Some name => if String.eqb name "" then "" else name
  | None => ""
  end.

Definition with_photoName (name : option string) (r : IRecord) : IRecord :=
  mkRecord (idRecord r) (titleRecord r) (yearOfPublication r) (imageRecord r)
    (photo r) name (price r) (stock r) (discontinued r) (groupId r)
    (groupName r) (nameGroup r) (inCart r) (amount r).

(** [this.record.groupName = name]: [nameGroup] stays. *)
Definition with_groupName (name : string) (r : IRecord) : IRecord :=
  mkRecord (idRecord r) (titleRecord r) (yearOfPublication r) (imageRecord r)
    (photo r) (photoName r) (price r) (stock r) (discontinued r) (groupId r)
    name (nameGroup r) (inCart r) (amount r).

(** [record.imageRecord ? this.extractImageName(record.imageRecord) : ""] *)
Definition image_name (r : IRecord) : string :=
  match imageRecord r with
  | Some url => if String.eqb url "" then "" else extractImageName url
  | None => ""
  end.

(** edit (lines 375-392), for a record of the typed view: its [stock] is a
    number, so the test against null and undefined does not fire.  The
    draft is assigned before the groups are searched, and the search throws
    on a null or undefined group met before a match. *)
Definition edit (r : IRecord) : M unit :=
  fun st =>
    let st1 := set_record (with_photoName (Some (image_name r)) r) st in
    match groupId r with
    | Val gid =>
        if Z.eqb gid 0 then (Ok tt, st1)
        else
          match find_group (groups st1) gid with
          | Ok (Some selectedGroup) =>
              if truthy selectedGroup then
                (Ok tt,
                 set_record
                   (with_groupName
                      (str_or_empty (prop_of_truthy selectedGroup "nameGroup"))
                      (record st1)) st1)
              else (Ok tt, st1)
          | Ok None => (Ok tt, st1)
          | Throw e => (Throw e, st1)
          end
    | _ => (Ok tt, st1)
    end.

(** cancelEdition (lines 423-425) *)
Definition cancelEdition (st : View) : View := resetForm st.

End Edit.
Export Edit.

(** ** RecordsService.getRecordById (lines 619-664) *)

Module ById.
Import Js View.

(** The requests the call can issue. *)
Inductive Call : Type :=
  | GetRecord (id : Z)
  | GetGroup (groupId : JsValue).

(** [groupResponse?.k] *)
Definition optional_prop (v : JsValue) (k : string) : JsValue :=
  match v with
  | JUndefined | JNull => JUndefined
  | _ => prop_of_truthy v k
  end.

(** [{ ...record, groupName: name, nameGroup: name }] *)
Definition named (name : JsValue) (record : JsValue) : JsValue :=
  JObj (set_prop "nameGroup" name
          (set_prop "groupName" name (own_props record))).

(** [nameGroup || groupName || 'Sin grupo'] of the group answer *)
Definition group_name (groupResponse : JsValue) : JsValue :=
  let nameGroup := optional_prop groupResponse "nameGroup" in
  let groupName := optional_prop groupResponse "groupName" in
  if truthy nameGroup then nameGroup
  else if truthy groupName then groupName
  else JStr "Sin grupo".

(** The whole pipe: what the subscriber receives and the requests issued.
    An exception in the [switchMap] callback (the read of [groupName] on a
    null body) reaches the outer [catchError], which throws it again; an
    error of the group request is caught by the inner one. *)
Definition getRecordById (id : Z) (record_answer group_answer : Http)
  : notification JsValue * list Call :=
  match record_answer with
  | HttpError error => (Err error, [GetRecord id])
  | HttpOk record =>
      match prop record "groupName" with
      | Throw _ => (Err (JObj [("message", JStr "TypeError")]), [GetRecord id])
      | Ok groupName =>
          if truthy groupName || truthy (prop_of_truthy record "nameGroup")
          then (Next record, [GetRecord id])
          else
            let groupId := prop_of_truthy record "groupId" in
            if truthy groupId then
              let calls := [GetRecord id; GetGroup groupId] in
              match group_answer with
              | HttpOk groupResponse =>
                  (Next (named (group_name groupResponse) record), calls)
              | HttpError _ =>
                  (Next (named (JStr "Error cargando grupo") record), calls)
              end
            else (Next record, [GetRecord id])
      end
  end.

(** Whether an emitted record says which group it belongs to. *)
Definition has_group_name (record : JsValue) : bool :=
  truthy (prop_of_truthy record "groupName")
  || truthy (prop_of_truthy record "nameGroup").

End ById.
Export ById.

(** ** RecordsService.getRecordsByGroup (lines 848-946) *)

Module ByGroup.
Import Js View.













End ByGroup.
Export ByGroup.

(** * Properties *)

(** ** Numbers *)

Lemma round_exact (n : Z) :
  (- 2 ^ 53 ≤ n ≤ 2 ^ 53)%Z → Num.round n = n.
Proof.
  change (2 ^ 53)%Z with 9007199254740992%Z. intros Hn. unfold Num.round.
  change (2 ^ 53)%Z with 9007199254740992%Z.
  destruct (Z.ltb_spec (Z.abs n) 9007199254740992) as [|Hge]; [done|].
  assert (n = 9007199254740992 ∨ n = - 9007199254740992)%Z as [-> | ->] by lia;
    reflexivity.
Qed.

Lemma round_pos (n : Z) : (0 < n)%Z → (0 < Num.round n)%Z.
Proof.
  intros Hn. unfold Num.round.
  destruct (Z.ltb_spec (Z.abs n) (2 ^ 53)) as [|Hge]; [done|].
  rewrite (Z.abs_eq n) in * by lia. rewrite (Z.sgn_pos n Hn).
  assert (H53 : (53 ≤ Z.log2 n)%Z).
  { rewrite <- (Z.log2_pow2 53) by lia. by apply Z.log2_le_mono. }
  set (ulp := (2 ^ (Z.log2 n - 52))%Z).
  assert (Hulp : (0 < ulp)%Z) by (apply Z.pow_pos_nonneg; lia).
  assert (Hle : (ulp ≤ n)%Z).
  { transitivity (2 ^ Z.log2 n)%Z.
    - apply Z.pow_le_mono_r; lia.
    - by apply Z.log2_spec. }
  assert (Hq : (0 < n / ulp)%Z) by (apply Z.div_str_pos; lia).
  cbv zeta.
  repeat match goal with |- context [if ?b then _ else _] => destruct b end;
    nia.
Qed.

Lemma add_safe (a : Z) :
  Num.safe a → Num.add a 1 = (a + 1)%Z ∧ Num.add a (-1) = (a - 1)%Z.
Proof.
  unfold Num.safe, Num.add. intros Ha.
  split; (etrans; [apply round_exact|]); lia.
Qed.

Lemma add_one_pos (a : Z) : (0 ≤ a)%Z → (0 < Num.add a 1)%Z.
Proof. intros Ha. apply round_pos. lia. Qed.


(** ** The store *)

Section store.
Implicit Types (h : gmap loc cell) (l : loc) (c : cell).

Lemma alloc_spec c h l h' :
  alloc c h = (l, h') → h !! l = None ∧ h' = <[l := c]> h.
Proof.
  unfold alloc. intros [= <- <-]. split; [|done].
  apply not_elem_of_dom, is_fresh.
Qed.

Lemma alloc_extends c h l h' :
  alloc c h = (l, h') → h ⊆ h' ∧ h !! l = None ∧ h' !! l = Some c.
Proof.
  intros [Hl ->]%alloc_spec. split_and!; [|done|].
  - by apply insert_subseteq.
  - by rewrite lookup_insert_eq.
Qed.

Lemma read_record_weaken l h h' r :
  h ⊆ h' → read_record l h = Some r → read_record l h' = Some r.
Proof.
  unfold read_record. intros Hsub H.
  destruct (h !! l) as [[r0|]|] eqn:E; try done.
  by rewrite (lookup_weaken _ _ _ _ E Hsub).
Qed.

Lemma read_array_weaken l h h' items :
  h ⊆ h' → h !! l = Some (CArray items) → read_array l h' = items.
Proof.
  unfold read_array. intros Hsub E.
  by rewrite (lookup_weaken _ _ _ _ E Hsub).
Qed.

Lemma lookup_None_weaken l h h' :
  h ⊆ h' → h' !! l = None → h !! l = None.
Proof.
  intros Hsub H. destruct (h !! l) eqn:E; [|done].
  by rewrite (lookup_weaken _ _ _ _ E Hsub) in H.
Qed.

Lemma read_array_new items h l h' :
  new_array items h = (l, h') → read_array l h' = items.
Proof.
  intros (_ & _ & Hl)%alloc_extends. unfold read_array. by rewrite Hl.
Qed.
End store.

Lemma stock_entries_weaken u (h0 h h' : gmap loc cell) old new :
  h0 ⊆ h → stock_entries u h h' old new → stock_entries u h0 h' old new.
Proof.
  intros Hsub [Hlen Hel]. split; [done|].
  intros i l r Hi Hr.
  specialize (Hel i l r Hi (read_record_weaken _ _ _ _ Hsub Hr)).
  case_bool_decide; [|done].
  destruct Hel as (l' & ? & ? & ?). exists l'.
  split_and!; [done| by eapply lookup_None_weaken |done].
Qed.

Lemma stock_entries_extend u (h h1 h2 : gmap loc cell) old new :
  h1 ⊆ h2 → stock_entries u h h1 old new → stock_entries u h h2 old new.
Proof.
  intros Hsub [Hlen Hel]. split; [done|].
  intros i l r Hi Hr. specialize (Hel i l r Hi Hr).
  case_bool_decide; [|done].
  destruct Hel as (l' & ? & ? & ?). exists l'.
  split_and!; [done..|]. by eapply lookup_weaken.
Qed.

Lemma map_stock_spec u items : ∀ (h : gmap loc cell) items' h',
  map_stock u items h = (items', h') →
  h ⊆ h' ∧ stock_entries u h h' items items'.
Proof.
  induction items as [|l rest IH]; intros h items' h' Hm; cbn [map_stock] in Hm.
  - injection Hm as <- <-. split; [done|]. split; [done|]. by intros i l r Hi.
  - destruct (read_record l h) as [r0|] eqn:Hr.
    + case_bool_decide as Hid.
      * destruct (alloc _ h) as [l1 h1] eqn:Ha.
        destruct (map_stock u rest h1) as [rest' h2] eqn:Hrest.
        injection Hm as <- <-.
        apply alloc_extends in Ha as (Hsub1 & Hfresh & Hnew).
        destruct (IH _ _ _ Hrest) as (Hsub2 & Hent).
        apply (stock_entries_weaken _ _ _ _ _ _ Hsub1) in Hent as [Hlen Hel].
        split; [by etrans|]. split; [simpl; lia|].
        intros [|i] l2 r Hi Hr2; simpl in Hi.
        -- injection Hi as <-. rewrite Hr in Hr2. injection Hr2 as <-.
           rewrite bool_decide_eq_true_2 by done.
           exists l1. split_and!; [done..|]. by eapply lookup_weaken.
        -- apply (Hel i l2 r Hi Hr2).
      * destruct (map_stock u rest h) as [rest' h2] eqn:Hrest.
        injection Hm as <- <-.
        destruct (IH _ _ _ Hrest) as (Hsub2 & Hlen & Hel).
        split; [done|]. split; [simpl; lia|].
        intros [|i] l2 r Hi Hr2; simpl in Hi.
        -- injection Hi as <-. rewrite Hr in Hr2. injection Hr2 as <-.
           by rewrite bool_decide_eq_false_2.
        -- apply (Hel i l2 r Hi Hr2).
    + destruct (map_stock u rest h) as [rest' h2] eqn:Hrest.
      injection Hm as <- <-.
      destruct (IH _ _ _ Hrest) as (Hsub2 & Hlen & Hel).
      split; [done|]. split; [simpl; lia|].
      intros [|i] l2 r Hi Hr2; simpl in Hi.
      -- injection Hi as <-. congruence.
      -- apply (Hel i l2 r Hi Hr2).
Qed.



(** ** Cart snapshots, search and the lists they install *)

Lemma update_record_lookup f l (h : gmap loc cell) l' :
  update_record f l h !! l' =
    match h !! l' with
    | Some (CRecord r) => Some (CRecord (if bool_decide (l = l') then f r else r))
    | c => c
    end.
Proof.
  unfold update_record.
  destruct (decide (l = l')) as [<-|Hne].
  - rewrite bool_decide_eq_true_2 by done.
    destruct (h !! l) as [[r|items]|] eqn:E; rewrite ?lookup_insert_eq, ?E; done.
  - rewrite bool_decide_eq_false_2 by done.
    destruct (h !! l) as [[r|items]|] eqn:E.
    + rewrite lookup_insert_ne by done. by destruct (h !! l') as [[]|].
    + by destruct (h !! l') as [[]|].
    + by destruct (h !! l') as [[]|].
Qed.

Lemma update_record_array f l (h : gmap loc cell) l' :
  read_array l' (update_record f l h) = read_array l' h.
Proof.
  unfold read_array. rewrite update_record_lookup.
  by destruct (h !! l') as [[]|].
Qed.

Lemma update_record_None f l (h : gmap loc cell) l' :
  update_record f l h !! l' = None ↔ h !! l' = None.
Proof.
  rewrite update_record_lookup. by destruct (h !! l') as [[]|].
Qed.

(** The [forEach] of the cart subscription: every object of the list ends
    as [f] of what it was, provided applying [f] twice is applying it once
    (an object may occur twice in the list); the rest of the store and
    every array stay as they are. *)
Lemma foldl_update_record f (Hf : ∀ r, f (f r) = f r) items :
  ∀ (h : gmap loc cell) l',
    foldl (fun h l => update_record f l h) h items !! l' =
      match h !! l' with
      | Some (CRecord r) =>
          Some (CRecord (if bool_decide (l' ∈ items) then f r else r))
      | c => c
      end.
Proof.
  induction items as [|l rest IH]; intros h l'; simpl.
  - by destruct (h !! l') as [[r|]|].
  - rewrite IH, update_record_lookup.
    destruct (h !! l') as [[r|]|]; try done.
    do 2 f_equal.
    destruct (decide (l = l')) as [<-|Hne].
    + rewrite (bool_decide_eq_true_2 (l = l)) by done.
      rewrite (bool_decide_eq_true_2 (l ∈ l :: rest)) by left.
      destruct (bool_decide (l ∈ rest)); [apply Hf|done].
    + rewrite (bool_decide_eq_false_2 (l = l')) by done.
      rewrite (bool_decide_ext (l' ∈ l :: rest) (l' ∈ rest)); [done|].
      rewrite elem_of_cons.
      split; [intros [E|E]; [by symmetry in E|done] | by right].
Qed.

Lemma apply_cart_idemp cartItems r :
  apply_cart cartItems (apply_cart cartItems r) = apply_cart cartItems r.
Proof. done. Qed.

Lemma onCart_spec (cartItems : list Cart.Item) (st : View.View) :
  let st' := onCart cartItems st in
  let base := read_array (records st) (heap st) in
  records st' = records st ∧
  heap st !! filteredRecords st' = None ∧
  read_array (filteredRecords st') (heap st') = base ∧
  (∀ l r, heap st !! l = Some (CRecord r) →
     heap st' !! l =
       Some (CRecord (if bool_decide (l ∈ base) then apply_cart cartItems r
                      else r))) ∧
  (∀ l items, heap st !! l = Some (CArray items) →
     heap st' !! l = Some (CArray items)).
Proof.
  unfold onCart.
  set (h1 := foldl _ _ _).
  assert (Hh1 : ∀ l', h1 !! l' =
      match heap st !! l' with
      | Some (CRecord r) =>
          Some (CRecord (if bool_decide
                              (l' ∈ read_array (records st) (heap st))
                         then apply_cart cartItems r else r))
      | c => c
      end).
  { intros l'. apply foldl_update_record, apply_cart_idemp. }
  assert (Harr : read_array (records st) h1
                 = read_array (records st) (heap st)).
  { unfold read_array at 1. rewrite Hh1.
    unfold read_array. by destruct (heap st !! records st) as [[]|]. }
  destruct (new_array _ h1) as [fl h2] eqn:H2. cbn.
  pose proof (read_array_new _ _ _ _ H2) as R2.
  apply alloc_extends in H2 as (S2 & F2 & L2).
  split_and!.
  - done.
  - specialize (Hh1 fl). rewrite F2 in Hh1.
    by destruct (heap st !! fl) as [[]|].
  - by rewrite R2.
  - intros l r Hl. apply (lookup_weaken h1); [|done]. by rewrite Hh1, Hl.
  - intros l items Hl. apply (lookup_weaken h1); [|done]. by rewrite Hh1, Hl.
Qed.

Lemma filterRecords_spec (st : View.View) :
  let st' := filterRecords st in
  records st' = records st ∧
  heap st !! filteredRecords st' = None ∧
  heap st ⊆ heap st' ∧
  (Text.blank (searchText st) = true →
   read_array (filteredRecords st') (heap st')
   = read_array (records st) (heap st)).
Proof.
  unfold filterRecords.
  destruct (Text.blank (searchText st)).
  - destruct (new_array _ _) as [fl h1] eqn:H1. cbn.
    pose proof (read_array_new _ _ _ _ H1).
    apply alloc_extends in H1 as (? & ? & ?). done.
  - destruct (new_array _ _) as [fl h1] eqn:H1. cbn.
    apply alloc_extends in H1 as (? & ? & ?). done.
Qed.

Lemma alloc_records_extends rs : ∀ (h : gmap loc cell) ls h',
  alloc_records rs h = (ls, h') → h ⊆ h'.
Proof.
  induction rs as [|r rest IH]; intros h ls h' Ha; cbn [alloc_records] in Ha.
  - by injection Ha as <- <-.
  - destruct (alloc _ h) as [l h1] eqn:H1.
    destruct (alloc_records rest h1) as [ls' h2] eqn:H2.
    injection Ha as <- <-.
    apply alloc_extends in H1 as (? & _). apply IH in H2. by transitivity h1.
Qed.

Lemma install_spec (rs : list IRecord) (st : View.View) :
  let st' := install rs st in
  heap st ⊆ heap st' ∧
  heap st !! records st' = None ∧
  heap st !! filteredRecords st' = None ∧
  visibleError st' = visibleError st ∧
  errorMessage st' = errorMessage st ∧
  (rs = [] → read_array (records st') (heap st') = []
             ∧ read_array (filteredRecords st') (heap st') = []).
Proof.
  unfold install.
  destruct (alloc_records rs (heap st)) as [ls h1] eqn:H1.
  destruct (new_array ls h1) as [rl h2] eqn:H2.
  destruct (new_array (read_array rl h2) h2) as [fl h3] eqn:H3. cbn.
  pose proof (read_array_new _ _ _ _ H2) as R2.
  pose proof (read_array_new _ _ _ _ H3) as R3.
  apply alloc_records_extends in H1 as S1.
  apply alloc_extends in H2 as (S2 & F2 & L2).
  apply alloc_extends in H3 as (S3 & F3 & L3).
  assert (S02 : heap st ⊆ h2) by (by transitivity h1).
  split_and!; try done.
  - by transitivity h2.
  - exact (lookup_None_weaken _ _ _ S1 F2).
  - exact (lookup_None_weaken _ _ _ S02 F3).
  - intros ->. cbn in H1. injection H1 as <- <-.
    rewrite R3, (read_array_weaken _ _ _ _ S3 L2). by rewrite R2.
Qed.

(** ** Handlers: relations every run respects *)

Section handlers.
Context (R : View.View → View.View → Prop) `{!Reflexive R, !Transitive R}.

Lemma respects_ret {A} (a : A) : respects R (ret a).
Proof. by intros st r st' [= <- <-]. Qed.

Lemma respects_lift {A} (x : result A) : respects R (lift x).
Proof. by intros st r st' [= <- <-]. Qed.

Lemma respects_bind {A B} (m : M A) (k : A → M B) :
  respects R m → (∀ a, respects R (k a)) → respects R (bind m k).
Proof.
  intros Hm Hk st r st'. unfold bind.
  destruct (m st) as [[a|e] st1] eqn:E; intros H.
  - transitivity st1; [by eapply Hm | by eapply Hk].
  - injection H as <- <-. by eapply Hm.
Qed.

Lemma respects_modify (f : View.View → View.View) :
  (∀ st, R st (f st)) → respects R (modify f).
Proof. intros Hf st r st' [= <- <-]. apply Hf. Qed.

Lemma respects_forEach {A} (body : A → M unit) items :
  (∀ x, respects R (body x)) → respects R (forEach body items).
Proof.
  intros Hb. induction items as [|x rest IH]; cbn [forEach].
  - apply respects_ret.
  - apply respects_bind; [apply Hb | by intros _].
Qed.

Lemma respects_mapM {A B} (body : A → M B) items :
  (∀ x, respects R (body x)) → respects R (mapM body items).
Proof.
  intros Hb. induction items as [|x rest IH]; cbn [mapM].
  - apply respects_ret.
  - apply respects_bind; [apply Hb | intros y].
    apply respects_bind; [done | intros ys; apply respects_ret].
Qed.

(** From here on [R] also holds across the two things the service does to
    the component: publishing a stock event and issuing a request. *)
Hypothesis R_notify : ∀ id s st, R st (notifyStockUpdate id s st).
Hypothesis R_issue : ∀ q st, R st (issue q st).

Lemma respects_service_record record : respects R (service_record record).
Proof.
  unfold service_record. apply respects_bind; [apply respects_lift | intros s].
  apply respects_bind; [|intros _; apply respects_ret].
  apply respects_modify. intros st. apply R_notify.
Qed.

Lemma respects_service_notify record : respects R (service_notify record).
Proof. apply respects_modify. intros st. apply R_notify. Qed.

Lemma respects_init_stock record : respects R (init_stock record).
Proof.
  unfold init_stock. apply respects_bind; [apply respects_lift | intros idv].
  destruct (_ && _); [|apply respects_ret].
  apply respects_modify. intros st. apply R_notify.
Qed.

(** The service always delivers [next] with an array; a transport error
    arrives as the empty array. *)
Lemma service_getRecords_next answer (st : View.View) :
  ∃ records st',
    service_getRecords answer st = (Next (JArr records), st') ∧ R st st'.
Proof.
  unfold service_getRecords. destruct answer as [response|err].
  - destruct (mapM _ _ _) as [[records|e] st1] eqn:E1.
    + destruct (forEach _ _ _) as [[[]|e] st2] eqn:E2.
      * exists records, st2. split; [done|].
        transitivity (issue GetRecords st); [apply R_issue|].
        transitivity st1.
        -- by apply (respects_mapM _ _ respects_service_record _ _ _ E1).
        -- by apply (respects_forEach _ _ respects_service_notify _ _ _ E2).
      * exists [], st2. split; [done|].
        transitivity (issue GetRecords st); [apply R_issue|].
        transitivity st1.
        -- by apply (respects_mapM _ _ respects_service_record _ _ _ E1).
        -- by apply (respects_forEach _ _ respects_service_notify _ _ _ E2).
    + exists [], st1. split; [done|].
      transitivity (issue GetRecords st); [apply R_issue|].
      by apply (respects_mapM _ _ respects_service_record _ _ _ E1).
  - exists [], (issue GetRecords st). split; [done|]. apply R_issue.
Qed.

Lemma respects_getRecords_next data : respects R (getRecords_next data).
Proof.
  unfold getRecords_next.
  apply respects_bind; [apply respects_forEach, respects_init_stock | intros _].
  apply respects_bind; [by apply respects_modify | intros _; apply respects_ret].
Qed.

End handlers.

Lemma onStockUpdate_grown update (st : View.View) :
  grown st (onStockUpdate update st).
Proof.
  unfold grown. destruct update as [u|]; [|done]. unfold onStockUpdate.
  destruct (map_stock u _ (heap st)) as [rs h1] eqn:H1.
  destruct (new_array rs h1) as [rl h2] eqn:H2.
  destruct (map_stock u _ h2) as [fs h3] eqn:H3.
  destruct (new_array fs h3) as [fl h4] eqn:H4. cbn.
  apply map_stock_spec in H1 as [S1 _]. apply map_stock_spec in H3 as [S3 _].
  apply alloc_extends in H2 as (S2 & _). apply alloc_extends in H4 as (S4 & _).
  transitivity h1; [done|]. transitivity h2; [done|]. by transitivity h3.
Qed.

Lemma onStockUpdate_same_error update (st : View.View) :
  same_error st (onStockUpdate update st)
  ∧ published (onStockUpdate update st) = published st.
Proof.
  unfold same_error. destruct update as [u|]; [|done]. unfold onStockUpdate.
  destruct (map_stock u _ (heap st)) as [rs h1].
  destruct (new_array rs h1) as [rl h2].
  destruct (map_stock u _ h2) as [fs h3].
  by destruct (new_array fs h3) as [fl h4].
Qed.

#[local] Instance grown_refl : Reflexive grown.
Proof. intros st. by unfold grown. Qed.

#[local] Instance grown_trans : Transitive grown.
Proof. unfold grown. intros st1 st2 st3 ??. by transitivity (heap st2). Qed.

#[local] Instance same_error_refl : Reflexive same_error.
Proof. intros st. by unfold same_error. Qed.

#[local] Instance same_error_trans : Transitive same_error.
Proof. unfold same_error. intros st1 st2 st3 [??] [??]. split; congruence. Qed.

Lemma notifyStockUpdate_grown id s (st : View.View) :
  grown st (notifyStockUpdate id s st).
Proof. apply (onStockUpdate_grown _ (log_published _ st)). Qed.

Lemma notifyStockUpdate_same_error id s (st : View.View) :
  same_error st (notifyStockUpdate id s st).
Proof. apply (onStockUpdate_same_error _ (log_published _ st)). Qed.

Lemma issue_grown q (st : View.View) : grown st (issue q st).
Proof. by unfold grown. Qed.

Lemma issue_same_error q (st : View.View) : same_error st (issue q st).
Proof. by unfold same_error. Qed.

(** [controlError] only ever assigns [errorMessage]. *)
Lemma controlError_frame err (st : View.View) r st' :
  controlError err st = (r, st') →
  heap st' = heap st ∧
  records st' = records st ∧
  filteredRecords st' = filteredRecords st ∧
  visibleError st' = visibleError st ∧
  requests st' = requests st.
Proof.
  unfold controlError, bind, lift, modify.
  destruct (prop err "status") as [status|e]; [|by intros [= <- <-]].
  repeat match goal with
         | |- context [if ?b then _ else _] => destruct b
         | |- context [match ?x with Ok _ => _ | Throw _ => _ end] => destruct x
         end;
  by intros [= <- <-].
Qed.

Lemma bind_Ok_inv {A B} (m : M A) (k : A → M B) (st st' : View.View) b :
  bind m k st = (Ok b, st') →
  ∃ a st1, m st = (Ok a, st1) ∧ k a st1 = (Ok b, st').
Proof.
  unfold bind. destruct (m st) as [[a|e] st1]; [|done]. intros H. by exists a, st1.
Qed.

Lemma getRecords_next_Ok data (st st' : View.View) recordsArray :
  getRecords_next data st = (Ok recordsArray, st') →
  recordsArray = Envelope.component_records data ∧
  heap st ⊆ heap st'.
Proof.
  unfold getRecords_next.
  intros (u1 & st1 & E1 & (u2 & st2 & E2 & E3)%bind_Ok_inv)%bind_Ok_inv.
  unfold modify in E2. unfold ret in E3. simplify_eq. split; [done|].
  apply (respects_forEach grown _ _
           (respects_init_stock grown notifyStockUpdate_grown)) in E1.
  exact E1.
Qed.

(** A load that completes has installed two lists that did not exist
    before, and has modified nothing that did. *)
Lemma getRecords_installs records_answer groups_answer (st st' : View.View) :
  getRecords records_answer groups_answer st = (Ok tt, st') →
  heap st ⊆ heap st' ∧
  heap st !! records st' = None ∧
  heap st !! filteredRecords st' = None.
Proof.
  unfold getRecords.
  destruct (service_getRecords_next grown notifyStockUpdate_grown issue_grown
              records_answer st) as (data & st1 & -> & S1).
  intros (recordsArray & st3 & [-> S2]%getRecords_next_Ok & H)%bind_Ok_inv.
  assert (S3 : heap st ⊆ heap st3) by (by transitivity (heap st1)).
  destruct groups_answer as [groupsResponse|err].
  - unfold getRecords_groups_next in H.
    apply bind_Ok_inv in H as (rs & st4 & E4 & E5).
    unfold lift in E4. injection E4 as Hrs <-.
    unfold modify in E5. injection E5 as <-.
    destruct (install_spec rs st3) as (S & F1 & F2 & _).
    split_and!.
    + by transitivity (heap st3).
    + exact (lookup_None_weaken _ _ _ S3 F1).
    + exact (lookup_None_weaken _ _ _ S3 F2).
  - unfold getRecords_groups_error in H.
    apply bind_Ok_inv in H as (u4 & st4 & E4 & E5).
    unfold modify in E4. injection E4 as _ <-.
    apply controlError_frame in E5 as (-> & -> & -> & _).
    destruct (install_spec (as_record <$> Envelope.component_records (JArr data)) st3)
      as (S & F1 & F2 & _).
    split_and!.
    + by transitivity (heap st3).
    + exact (lookup_None_weaken _ _ _ S3 F1).
    + exact (lookup_None_weaken _ _ _ S3 F2).
Qed.

(** When the records request fails, the load ends as the load of an empty
    catalogue, whatever the error was. *)
Lemma getRecords_transport_error err groupsResponse (st : View.View) :
  getRecords (HttpError err) (Next groupsResponse) st
  = (Ok tt, install [] (issue GetGroups (issue GetRecords st))).
Proof. reflexivity. Qed.

(** ** The list fields always point at arrays *)

Lemma initial_lists_allocated email : lists_allocated (View.initial email).
Proof. split; by eexists. Qed.

Lemma set_new_array_allocated items (h : gmap loc cell) l fl h' :
  is_Some (h !! l) → new_array items h = (fl, h') →
  (∃ c, h !! l = Some c ∧ h' !! l = Some c) ∧ h' !! fl = Some (CArray items).
Proof.
  intros [c Hc] (S & _ & L)%alloc_extends. split; [|done].
  exists c. split; [done|]. exact (lookup_weaken _ _ _ _ Hc S).
Qed.

Lemma onStockUpdate_lists_allocated update (st : View.View) :
  lists_allocated st → lists_allocated (onStockUpdate update st).
Proof.
  destruct update as [u|]; [|done]. intros _. unfold onStockUpdate.
  destruct (map_stock u _ (heap st)) as [rs h1].
  destruct (new_array rs h1) as [rl h2] eqn:H2.
  destruct (map_stock u _ h2) as [fs h3] eqn:H3.
  destruct (new_array fs h3) as [fl h4] eqn:H4. cbn.
  apply alloc_extends in H2 as (_ & _ & L2).
  apply map_stock_spec in H3 as [S3 _].
  apply alloc_extends in H4 as (S4 & _ & L4).
  split; [exists rs | by exists fs].
  apply (lookup_weaken h3); [|done]. exact (lookup_weaken _ _ _ _ L2 S3).
Qed.

Lemma onCart_lists_allocated cartItems (st : View.View) :
  lists_allocated st → lists_allocated (onCart cartItems st).
Proof.
  intros [[base Hb] _].
  destruct (onCart_spec cartItems st) as (Hr & _ & _ & _ & Harr).
  split.
  - exists base. rewrite Hr. by apply Harr.
  - unfold onCart.
    destruct (new_array _ _) as [fl h2] eqn:H2. cbn.
    apply alloc_extends in H2 as (_ & _ & L2). by eexists.
Qed.

Lemma filterRecords_lists_allocated (st : View.View) :
  lists_allocated st → lists_allocated (filterRecords st).
Proof.
  intros [[base Hb] _]. unfold filterRecords.
  destruct (Text.blank (searchText st));
    destruct (new_array _ (heap st)) as [fl h1] eqn:H1; cbn;
    apply alloc_extends in H1 as (S1 & _ & L1);
    (split; [exists base; exact (lookup_weaken _ _ _ _ Hb S1) | by eexists]).
Qed.

Lemma install_lists_allocated rs (st : View.View) :
  lists_allocated (install rs st).
Proof.
  unfold install.
  destruct (alloc_records rs (heap st)) as [ls h1].
  destruct (new_array ls h1) as [rl h2] eqn:H2.
  destruct (new_array (read_array rl h2) h2) as [fl h3] eqn:H3. cbn.
  apply alloc_extends in H2 as (_ & _ & L2).
  apply alloc_extends in H3 as (S3 & _ & L3).
  split; [exists ls; exact (lookup_weaken _ _ _ _ L2 S3) | by eexists].
Qed.

Lemma republish_lists_allocated f l (st : View.View) :
  lists_allocated st →
  lists_allocated (republish (set_heap (update_record f l (heap st)) st)).
Proof.
  intros [[base Hb] _]. unfold republish. cbn -[new_array].
  destruct (new_array _ _) as [fl h1] eqn:H1. cbn.
  apply alloc_extends in H1 as (S1 & _ & L1).
  split; [exists base | by eexists].
  apply (lookup_weaken (update_record f l (heap st))); [|done].
  pose proof (update_record_lookup f l (heap st) (records st)) as E.
  by rewrite Hb in E.
Qed.

#[local] Instance keeps_lists_refl : Reflexive keeps_lists.
Proof. by intros st H. Qed.

#[local] Instance keeps_lists_trans : Transitive keeps_lists.
Proof. intros st1 st2 st3 H12 H23 H. by apply H23, H12. Qed.

Lemma getRecords_lists_allocated records_answer groups_answer
    (st : View.View) r st' :
  getRecords records_answer groups_answer st = (r, st') →
  lists_allocated st → lists_allocated st'.
Proof.
  assert (Hn : ∀ id s st0, keeps_lists st0 (notifyStockUpdate id s st0)).
  { intros id s st0 H. by apply (onStockUpdate_lists_allocated _ (log_published _ st0)). }
  assert (Hi : ∀ q st0, keeps_lists st0 (issue q st0)) by (by intros q st0 H).
  unfold getRecords.
  destruct (service_getRecords_next keeps_lists Hn Hi records_answer st)
    as (data & st1 & -> & K1).
  unfold bind at 1.
  destruct (getRecords_next (JArr data) st1) as [[recordsArray|e] st2] eqn:E2;
    apply (respects_getRecords_next keeps_lists Hn Hi) in E2 as K2.
  - destruct groups_answer as [groupsResponse|err].
    + unfold getRecords_groups_next, bind, lift, modify.
      destruct (process_records _ recordsArray) as [rs|e].
      * intros [= <- <-] _. apply install_lists_allocated.
      * intros [= <- <-] H. by apply K2, K1.
    + unfold getRecords_groups_error, bind at 1, modify.
      intros (Hh & Hr & Hf & _)%controlError_frame _.
      unfold lists_allocated. rewrite Hh, Hr, Hf.
      apply install_lists_allocated.
  - intros [= <- <-] H. by apply K2, K1.
Qed.

(** In every state a component can reach, both list fields point at arrays
    of the store. *)
Lemma reachable_lists_allocated email events :
  lists_allocated (Trace.after email events).
Proof.
  unfold Trace.after.
  induction events as [|e events IH] using rev_ind.
  - apply initial_lists_allocated.
  - rewrite foldl_app. cbn [foldl].
    set (st := foldl Trace.step (View.initial email) events) in *.
    destruct e as [update|cartItems|text|ra ga|l o|l o]; cbn [Trace.step].
    + by apply onStockUpdate_lists_allocated.
    + by apply onCart_lists_allocated.
    + by apply filterRecords_lists_allocated.
    + destruct (getRecords ra ga st) as [r st'] eqn:E.
      by apply (getRecords_lists_allocated _ _ _ _ _ E).
    + unfold addToCart. destruct (has_identity _); [|done].
      destruct o; [done| |];
        by apply (republish_lists_allocated _ _ (issue _ st)).
    + unfold removeFromCart. destruct (_ || _); [done|].
      destruct o; [done| |];
        by apply (republish_lists_allocated _ _ (issue _ st)).
Qed.

(** ** Cart operations *)

Import Sample.

Lemma cart_update_republished f l (st : View.View) r q :
  read_record l (heap st) = Some r →
  let st' := republish (set_heap (update_record f l (heap st)) (issue q st)) in
  read_record l (heap st') = Some (f r) ∧
  republished st st' ∧
  requests st' = (requests st ++ [q])%list.
Proof.
  intros Hr. unfold republish. cbn -[new_array].
  rewrite update_record_array.
  destruct (new_array (read_array (records st) (heap st))
              (update_record f l (heap st))) as [fl h1] eqn:H1. cbn.
  pose proof (read_array_new _ _ _ _ H1) as R1.
  apply alloc_extends in H1 as (S1 & F1 & L1).
  split_and!; [|split_and!|done]; try done.
  - apply (read_record_weaken _ _ _ _ S1).
    unfold read_record in *. rewrite update_record_lookup.
    destruct (heap st !! l) as [[r0|]|]; try done.
    rewrite bool_decide_eq_true_2 by done. congruence.
  - by apply update_record_None in F1.
Qed.

(** C1 (as amended): with an identity present, addToCart issues the remote
    add and, while that call is pending, leaves the record and both lists
    as they are.  When the remote add succeeds the record gets
    [inCart = true] and its amount plus 1 as the doubles add (an undefined
    amount counting as 0): exactly 1 more for every safe integer amount,
    while from [2 ^ 53] on the increment is lost.  When the remote add
    fails the record gets [inCart = false] and [amount = 0] whatever the
    amount was.  In both cases every other field of the record stays and
    the filtered list is republished as a new reference. *)
Theorem C1_addToCart_applies_on_confirmation
    (st : View.View) (l : loc) (r : IRecord) (response error : JsValue) :
  has_identity (userEmail st) = true →
  read_record l (heap st) = Some r →
  let pending := addToCart l Pending st in
  let confirmed := addToCart l (Resolved response) st in
  let failed := addToCart l (Rejected error) st in
  (requests pending = (requests st ++ [CartAdd l])%list ∧
   heap pending = heap st ∧
   records pending = records st ∧
   filteredRecords pending = filteredRecords st) ∧
  (∃ r', read_record l (heap confirmed) = Some r' ∧
         inCart r' = Some true ∧
         (Num.safe (or_zero (amount r)) →
          amount r' = Some (or_zero (amount r) + 1)%Z) ∧
         (or_zero (amount r) = 2 ^ 53 → amount r' = Some (2 ^ 53))%Z ∧
         same_but_cart r r' ∧
         republished st confirmed) ∧
  (∃ r', read_record l (heap failed) = Some r' ∧
         inCart r' = Some false ∧
         amount r' = Some 0%Z ∧
         same_but_cart r r' ∧
         republished st failed).
Proof.
  intros Hid Hr. unfold addToCart. rewrite Hid. cbv zeta.
  split_and!; try done.
  - destruct (cart_update_republished added l st r (CartAdd l) Hr)
      as (Hrec & Hrep & _).
    exists (added r). unfold same_but_cart.
    split_and!; try done.
    + intros Hsafe. cbn [added amount with_cart]. f_equal. by apply add_safe.
    + intros Hbig. cbn [added amount with_cart]. rewrite Hbig. reflexivity.
  - destruct (cart_update_republished add_reverted l st r (CartAdd l) Hr)
      as (Hrec & Hrep & _).
    exists (add_reverted r). unfold same_but_cart. by split_and!.
Qed.

Lemma C1_witness :
  has_identity (userEmail catalogue) = true ∧
  read_record 2%nat (heap catalogue) = Some (album 7 "Abbey Road" 5) ∧
  (∃ r', read_record 2%nat (heap (addToCart 2%nat (Resolved JNull) catalogue))
         = Some r' ∧
         inCart r' = Some true ∧ amount r' = Some 1%Z ∧ stock r' = 5%Z) ∧
  (∃ r', read_record 2%nat (heap (addToCart 2%nat (Rejected JNull) catalogue))
         = Some r' ∧
         inCart r' = Some false ∧ amount r' = Some 0%Z ∧ stock r' = 5%Z).
Proof.
  split; [reflexivity|]. split; [reflexivity|].
  destruct (C1_addToCart_applies_on_confirmation catalogue 2%nat
              (album 7 "Abbey Road" 5) JNull JNull eq_refl eq_refl)
    as (_ & (r1 & H1 & Hc1 & Ha1 & _ & Hs1 & _) & (r2 & H2 & Hc2 & Ha2 & Hs2 & _)).
  split.
  - exists r1. split_and!; [exact H1 | exact Hc1 | | ].
    + apply Ha1. unfold Num.safe. cbn. lia.
    + by destruct Hs1 as (_ & _ & _ & _ & _ & _ & _ & -> & _).
  - exists r2. split_and!; [exact H2 | exact Hc2 | exact Ha2 | ].
    by destruct Hs2 as (_ & _ & _ & _ & _ & _ & _ & -> & _).
Defined.

(** C1 as stated fails: with an identity present and the remote add
    issued but not yet settled, record 7 is still not marked in-cart, its
    amount is still undefined and the filtered list is the reference it
    was. *)
Lemma C1_counterexample :
  let st' := addToCart 2%nat Pending catalogue in
  has_identity (userEmail catalogue) = true ∧
  requests st' = [CartAdd 2%nat] ∧
  (inCart <$> read_record 2%nat (heap st')) = Some None ∧
  (amount <$> read_record 2%nat (heap st')) = Some None ∧
  (inCart <$> read_record 2%nat (heap st')) ≠ Some (Some true) ∧
  filteredRecords st' = filteredRecords catalogue.
Proof. vm_compute. split_and!; done. Qed.




(** ** Stock events and loading *)

(** C3: the code publishes the signed amount.  Whenever the remote stock
    update succeeds, decrementStock hands the hub the event
    [(idRecord, -1)] and incrementStock the event [(idRecord, 1)]; the
    subscription installs that number as the stock: record 7, in stock 5
    times, is shown with stock -1 after one successful decrement, in the
    base list and in the filtered list. *)
Theorem C3_stock_delta_is_installed_as_stock :
  (∀ idRecord body st,
     published (decrementStock idRecord (HttpOk body) st).2
     = (published st ++ [mkStockUpdate (Some idRecord) (-1)])%list) ∧
  (∀ idRecord body st,
     published (incrementStock idRecord (HttpOk body) st).2
     = (published st ++ [mkStockUpdate (Some idRecord) 1])%list) ∧
  (let st := catalogue in
   let st' := (decrementStock 7 (HttpOk JNull) st).2 in
   let shown (list : loc) (s : View.View) :=
     (fun l => stock <$> read_record l (heap s))
       <$> read_array list (heap s) in
   shown (records st) st = [Some 5; Some 2] ∧
   shown (records st') st' = [Some (-1); Some 2] ∧
   shown (filteredRecords st') st' = [Some (-1); Some 2]).
Proof.
  split_and!.
  - intros. unfold decrementStock, notifyStockUpdate. cbn [snd].
    by rewrite (proj2 (onStockUpdate_same_error _ _)).
  - intros. unfold incrementStock, notifyStockUpdate. cbn [snd].
    by rewrite (proj2 (onStockUpdate_same_error _ _)).
  - vm_compute. done.
Qed.

(** C4: the code swallows the transport error.  Whatever error the records
    request fails with, the service delivers an empty array instead, the
    load completes as the load of an empty catalogue, and neither
    [visibleError] nor [errorMessage] is assigned: both lists are empty and
    no error is shown.  And when only the groups request fails, the records
    are installed and [errorMessage] may be set, but [visibleError] stays
    what it was. *)
Theorem C4_records_transport_error_is_swallowed :
  (∀ err groupsResponse st,
     ∃ st', getRecords (HttpError err) (Next groupsResponse) st = (Ok tt, st') ∧
       visibleError st' = visibleError st ∧
       errorMessage st' = errorMessage st ∧
       read_array (records st') (heap st') = [] ∧
       read_array (filteredRecords st') (heap st') = []) ∧
  (∀ response err st r st',
     getRecords (HttpOk response) (Err err) st = (r, st') →
     visibleError st' = visibleError st) ∧
  (let st := View.initial (Some "user@example.com") in
   let st' := (getRecords (HttpError (JObj [("status", JNum 500)]))
                 (Next (JArr [])) st).2 in
   visibleError st' = false ∧ errorMessage st' = JStr "").
Proof.
  split_and!.
  - intros err groupsResponse st. eexists. split; [apply getRecords_transport_error|].
    destruct (install_spec [] (issue GetGroups (issue GetRecords st)))
      as (_ & _ & _ & Hv & Hm & Hempty).
    destruct (Hempty eq_refl) as [Hr Hf]. done.
  - intros response err st r st'. unfold getRecords.
    destruct (service_getRecords_next same_error notifyStockUpdate_same_error
                issue_same_error (HttpOk response) st)
      as (data & st1 & -> & [Hv1 _]).
    unfold bind at 1.
    destruct (getRecords_next (JArr data) st1) as [[recordsArray|e] st2] eqn:E2;
      apply (respects_getRecords_next same_error notifyStockUpdate_same_error
               issue_same_error) in E2 as [Hv2 _].
    + unfold getRecords_groups_error, bind at 1, modify.
      intros (_ & _ & _ & -> & _)%controlError_frame.
      destruct (install_spec (as_record <$> recordsArray) st2)
        as (_ & _ & _ & -> & _).
      congruence.
    + intros [= <- <-]. congruence.
  - vm_compute. done.
Qed.

(** ** Lists and references *)

Lemma find_first {A} (p : A → bool) (before : list A) item after :
  Forall (fun x => p x = false) before → p item = true →
  find p (before ++ item :: after) = Some item.
Proof.
  induction 1 as [|x before Hx _ IH]; intros Hp; cbn.
  - by rewrite Hp.
  - rewrite Hx. by apply IH.
Qed.

Lemma find_none {A} (p : A → bool) (items : list A) :
  Forall (fun x => p x = false) items → find p items = None.
Proof. induction 1 as [|x items Hx _ IH]; cbn; [done|]. by rewrite Hx. Qed.

(** C5 (as amended): a stock event, a search and a load each install list
    references that did not exist before and leave every object and array
    that existed as it was.  A cart snapshot keeps the base list reference:
    it assigns [inCart] and [amount] on the very objects of the base list
    (true and the amount of the first cart line with the same identifier,
    a missing amount counting as 0; false and 0 when there is no such line),
    leaves their other fields and every other object as they were, changes
    no array, and installs a new filtered list holding the base
    list's entries. *)
Theorem C5_new_lists_except_cart_base (st : View.View) :
  (∀ u, let st' := onStockUpdate (Some u) st in
        heap st !! records st' = None ∧
        heap st !! filteredRecords st' = None ∧
        heap st ⊆ heap st') ∧
  (let st' := filterRecords st in
   records st' = records st ∧
   heap st !! filteredRecords st' = None ∧
   heap st ⊆ heap st') ∧
  (∀ records_answer groups_answer st',
     getRecords records_answer groups_answer st = (Ok tt, st') →
     heap st !! records st' = None ∧
     heap st !! filteredRecords st' = None ∧
     heap st ⊆ heap st') ∧
  (∀ cartItems,
     let st' := onCart cartItems st in
     let base := read_array (records st) (heap st) in
     records st' = records st ∧
     heap st !! filteredRecords st' = None ∧
     read_array (filteredRecords st') (heap st') = base ∧
     (∀ l items, heap st !! l = Some (CArray items) →
        heap st' !! l = Some (CArray items)) ∧
     (∀ l r, heap st !! l = Some (CRecord r) →
        if bool_decide (l ∈ base)
        then ∃ r', heap st' !! l = Some (CRecord r') ∧
                   cart_marked cartItems r r' ∧ same_but_cart r r'
        else heap st' !! l = Some (CRecord r))).
Proof.
  split_and!.
  - intros u. unfold onStockUpdate.
    destruct (map_stock u _ (heap st)) as [rs h1] eqn:H1.
    destruct (new_array rs h1) as [rl h2] eqn:H2.
    destruct (map_stock u _ h2) as [fs h3] eqn:H3.
    destruct (new_array fs h3) as [fl h4] eqn:H4. cbn.
    apply map_stock_spec in H1 as [S1 _]. apply map_stock_spec in H3 as [S3 _].
    apply alloc_extends in H2 as (S2 & F2 & _).
    apply alloc_extends in H4 as (S4 & F4 & _).
    assert (S03 : heap st ⊆ h3).
    { transitivity h1; [done|]. by transitivity h2. }
    split_and!.
    + exact (lookup_None_weaken _ _ _ S1 F2).
    + exact (lookup_None_weaken _ _ _ S03 F4).
    + by transitivity h3.
  - destruct (filterRecords_spec st) as (? & ? & ? & _). done.
  - intros ra ga st' H. apply getRecords_installs in H as (? & ? & ?). done.
  - intros cartItems.
    destruct (onCart_spec cartItems st) as (? & ? & ? & Hrec & Harr).
    split_and!; try done.
    intros l r Hl. specialize (Hrec l r Hl).
    destruct (bool_decide _); [|done].
    exists (apply_cart cartItems r). split; [done|].
    unfold apply_cart. cbv zeta.
    set (p := fun item : Cart.Item =>
                bool_decide (Cart.idRecord item = idRecord r)).
    split; [split|].
    + intros before item after -> Hb Hi.
      rewrite (find_first p before item after).
      * by destruct (Cart.amount item).
      * eapply Forall_impl; [exact Hb|]. intros x Hx.
        by apply bool_decide_eq_false_2.
      * by apply bool_decide_eq_true_2.
    + intros Hall. rewrite (find_none p cartItems); [done|].
      eapply Forall_impl; [exact Hall|]. intros x Hx.
      by apply bool_decide_eq_false_2.
    + unfold same_but_cart. by split_and!.
Qed.

(** C5 as stated fails: a cart snapshot installs no new base list.  With
    two copies of record 7 in the cart, the base list is the reference it
    was, a reference that existed before, and record 7 was changed in
    place; only the filtered list is a new reference. *)
Lemma C5_counterexample :
  let st := catalogue in
  let st' := onCart [Cart.mkItem 7 (Some 2)] st in
  records st' = records st ∧
  heap st !! records st' = Some (CArray [2%nat; 3%nat]) ∧
  heap st !! records st' ≠ None ∧
  read_record 2%nat (heap st) = Some (album 7 "Abbey Road" 5) ∧
  read_record 2%nat (heap st')
  = Some (with_cart true 2 (album 7 "Abbey Road" 5)) ∧
  (inCart <$> read_record 2%nat (heap st)) = Some None ∧
  (inCart <$> read_record 2%nat (heap st')) = Some (Some true) ∧
  (amount <$> read_record 2%nat (heap st')) = Some (Some 2) ∧
  heap st !! filteredRecords st' = None.
Proof. vm_compute. split_and!; done. Qed.

Lemma C5_witness :
  let st' := onCart [Cart.mkItem 7 (Some 2)] catalogue in
  records st' = records catalogue ∧
  read_array (filteredRecords st') (heap st') = [2%nat; 3%nat] ∧
  (∃ r', heap st' !! 2%nat = Some (CRecord r') ∧
         inCart r' = Some true ∧ amount r' = Some 2%Z ∧ stock r' = 5%Z) ∧
  (∃ r', heap st' !! 3%nat = Some (CRecord r') ∧
         inCart r' = Some false ∧ amount r' = Some 0%Z) ∧
  heap catalogue !! records (filterRecords catalogue) = Some (CArray [2%nat; 3%nat]) ∧
  heap catalogue !! filteredRecords (filterRecords catalogue) = None.
Proof.
  destruct (C5_new_lists_except_cart_base catalogue)
    as (_ & (Hs1 & Hs2 & _) & _ & Hcart).
  destruct (Hcart [Cart.mkItem 7 (Some 2)]) as (Hc1 & _ & Hc3 & _ & Hrec).
  cbv zeta in Hrec.
  split; [exact Hc1|]. split; [exact Hc3|].
  destruct (Hrec 2%nat (album 7 "Abbey Road" 5) eq_refl)
    as (r7 & H7 & [Hfound _] & Hsame7).
  destruct (Hrec 3%nat (album 8 "Let It Be" 2) eq_refl)
    as (r8 & H8 & [_ Hnone] & _).
  destruct (Hfound [] (Cart.mkItem 7 (Some 2)) [] eq_refl
              ltac:(constructor) eq_refl) as [Hi Ha].
  destruct Hnone as [Hi8 Ha8].
  { repeat constructor. cbn. lia. }
  split.
  { exists r7. split_and!; [exact H7 | exact Hi | exact Ha |].
    by destruct Hsame7 as (_ & _ & _ & _ & _ & _ & _ & -> & _). }
  split; [by exists r8|].
  split; [rewrite Hs1; reflexivity | exact Hs2].
Defined.

(** C7: after the stock event [{recordId: r, newStock: s}], in the base
    list and in the filtered list alike, every entry whose identifier is
    [r] is a new object whose [stock] is [s] and whose other fields are
    those of the old object, which is itself left as it was; every other
    entry is the very reference it was, to an unchanged object; both lists
    are references that did not exist before (and differ from each other);
    no object or array that existed is modified. *)
Theorem C7_stock_event_replaces_matching_records
    (st : View.View) (r s : Z) (base shown : list loc) :
  heap st !! records st = Some (CArray base) →
  heap st !! filteredRecords st = Some (CArray shown) →
  let u := mkStockUpdate (Some r) s in
  let st' := onStockUpdate (Some u) st in
  ∃ base' shown',
    heap st' !! records st' = Some (CArray base') ∧
    heap st' !! filteredRecords st' = Some (CArray shown') ∧
    stock_replaced u (heap st) (heap st') base base' ∧
    stock_replaced u (heap st) (heap st') shown shown' ∧
    heap st !! records st' = None ∧
    heap st !! filteredRecords st' = None ∧
    records st' ≠ filteredRecords st' ∧
    heap st ⊆ heap st'.
Proof.
  intros Hb Hs u st'. subst st'. unfold onStockUpdate.
  rewrite (read_array_weaken _ _ _ _ (reflexivity _) Hb).
  destruct (map_stock u base (heap st)) as [rs h1] eqn:H1.
  destruct (new_array rs h1) as [rl h2] eqn:H2.
  apply map_stock_spec in H1 as [S1 E1].
  apply alloc_extends in H2 as (S2 & F2 & L2).
  assert (S02 : heap st ⊆ h2) by (by transitivity h1).
  rewrite (read_array_weaken _ _ _ _ S02 Hs).
  destruct (map_stock u shown h2) as [fs h3] eqn:H3.
  destruct (new_array fs h3) as [fl h4] eqn:H4. cbn.
  apply map_stock_spec in H3 as [S3 E3].
  apply alloc_extends in H4 as (S4 & F4 & L4).
  assert (S03 : heap st ⊆ h3) by (by transitivity h2).
  assert (S14 : h1 ⊆ h4) by (transitivity h2; [done|by transitivity h3]).
  assert (S24 : h2 ⊆ h4) by (by transitivity h3).
  assert (S04 : heap st ⊆ h4) by (by transitivity h3).
  assert (Hfields : ∀ old new,
            stock_entries u (heap st) h4 old new →
            stock_replaced u (heap st) h4 old new).
  { intros old new [Hlen H]. split; [done|].
    intros i l r0 Hi Hr. specialize (H i l r0 Hi Hr).
    pose proof (read_record_weaken _ _ _ _ S04 Hr) as Hr'.
    destruct (bool_decide _); [|done].
    destruct H as (l' & Hn & Hf & Hc).
    exists l', (with_stock (newStock u) r0).
    unfold same_but_stock, read_record. rewrite Hc. by split_and!. }
  exists rs, fs. split_and!.
  - exact (lookup_weaken _ _ _ _ L2 S24).
  - exact L4.
  - apply Hfields.
    exact (stock_entries_extend _ _ _ _ _ _ S14 E1).
  - apply Hfields.
    eapply stock_entries_weaken; [exact S02|].
    exact (stock_entries_extend _ _ _ _ _ _ S4 E3).
  - exact (lookup_None_weaken _ _ _ S1 F2).
  - exact (lookup_None_weaken _ _ _ S03 F4).
  - intros ->. by rewrite (lookup_weaken _ _ _ _ L2 S3) in F4.
  - exact S04.
Qed.

Lemma C7_witness :
  let st := catalogue in
  let u := mkStockUpdate (Some 7) 3 in
  let st' := onStockUpdate (Some u) st in
  heap st !! records st = Some (CArray [2%nat; 3%nat]) ∧
  heap st !! filteredRecords st = Some (CArray [2%nat; 3%nat]) ∧
  ∃ base' l' r',
    heap st' !! records st' = Some (CArray base') ∧
    base' !! 0%nat = Some l' ∧
    heap st !! l' = None ∧
    read_record l' (heap st') = Some r' ∧
    stock r' = 3%Z ∧ titleRecord r' = "Abbey Road" ∧
    base' !! 1%nat = Some 3%nat ∧
    read_record 2%nat (heap st') = Some (album 7 "Abbey Road" 5).
Proof.
  split; [reflexivity|]. split; [reflexivity|].
  destruct (C7_stock_event_replaces_matching_records catalogue 7 3
              [2%nat; 3%nat] [2%nat; 3%nat] eq_refl eq_refl)
    as (base' & shown' & Hb & _ & [_ Hrep] & _).
  destruct (Hrep 0%nat 2%nat (album 7 "Abbey Road" 5) eq_refl eq_refl)
    as (l' & r' & H0 & Hfresh & Hr' & Hstock & Hsame & Hold).
  destruct (Hrep 1%nat 3%nat (album 8 "Let It Be" 2) eq_refl eq_refl)
    as [H1 _].
  exists base', l', r'.
  split_and!; try done.
  by destruct Hsame as (_ & -> & _).
Defined.

(** The same event, evaluated: record 7 is replaced in both lists by new
    objects (references 6 and 8) with stock 3, record 8 stays reference 3. *)
Example stock_event_on_catalogue :
  let st' := onStockUpdate (Some (mkStockUpdate (Some 7) 3)) catalogue in
  read_array (records st') (heap st') = [6%nat; 3%nat] ∧
  read_array (filteredRecords st') (heap st') = [8%nat; 3%nat] ∧
  read_record 6%nat (heap st') = Some (album 7 "Abbey Road" 3) ∧
  read_record 8%nat (heap st') = Some (album 7 "Abbey Road" 3) ∧
  read_record 2%nat (heap st') = Some (album 7 "Abbey Road" 5) ∧
  read_record 3%nat (heap st') = Some (album 8 "Let It Be" 2).
Proof. vm_compute. split_and!; done. Qed.

(** ** Envelopes *)

(** C6 (as amended): a bare sequence and a [$values]-wrapped sequence are
    read as that sequence at every call site.  A [data]-wrapped sequence is
    read as that sequence by the component's record handler and by
    getGroups only: the service's record handler has no [data] strategy and
    answers with the object's property values, and the group handler of the
    load has neither a [data] strategy nor a fallback and answers with the
    empty sequence. *)
Theorem C6_envelopes_agree_except_on_data
    (s : shape) (payload : JsValue) (xs : list JsValue) :
  has_shape s payload xs →
  Envelope.component_records payload = xs ∧
  Envelope.component_getGroups payload = Ok (xs, false) ∧
  Envelope.service_records payload
  = (match s with DataWrapped => object_values payload | _ => xs end) ∧
  Envelope.component_load_groups payload
  = (match s with DataWrapped => [] | _ => xs end).
Proof.
  destruct s; cbn [has_shape].
  - intros ->. done.
  - intros (ps & -> & Hv).
    unfold Envelope.component_records, Envelope.component_getGroups,
      Envelope.service_records, Envelope.component_load_groups.
    cbn. rewrite Hv. done.
  - intros (ps & -> & Hv & Hd).
    unfold Envelope.component_records, Envelope.component_getGroups,
      Envelope.service_records, Envelope.component_load_groups.
    cbn. rewrite Hv, Hd. cbn. split_and!; try done.
    unfold object_keys. destruct ps as [|p ps]; [done|].
    by rewrite bool_decide_eq_true_2 by (cbn; lia).
Qed.

Lemma C6_witness :
  let xs := [JObj [("idRecord", JNum 7)]] in
  let payload := JObj [("$id", JStr "1"); ("data", JArr xs)] in
  has_shape DataWrapped payload xs ∧
  Envelope.component_records payload = xs ∧
  Envelope.component_getGroups payload = Ok (xs, false) ∧
  Envelope.service_records payload = object_values payload ∧
  Envelope.component_load_groups payload = [].
Proof.
  assert (H : has_shape DataWrapped
                (JObj [("$id", JStr "1");
                       ("data", JArr [JObj [("idRecord", JNum 7)]])])
                [JObj [("idRecord", JNum 7)]]).
  { eexists. split; [reflexivity|]. split; reflexivity. }
  split; [exact H|].
  exact (C6_envelopes_agree_except_on_data DataWrapped _ _ H).
Defined.

(** C6 as stated fails: for the one-record sequence wrapped in [data], the
    component's record handler extracts the record, the service's record
    handler extracts the array that holds it (and would go on to process
    that array as if it were a record), and the group handler of the load
    extracts nothing. *)
Lemma C6_counterexample :
  let record := JObj [("idRecord", JNum 7); ("stock", JNum 5)] in
  let payload := JObj [("data", JArr [record])] in
  Envelope.component_records payload = [record] ∧
  Envelope.service_records payload = [JArr [record]] ∧
  Envelope.service_records payload ≠ Envelope.service_records (JArr [record]) ∧
  Envelope.service_records payload ≠ Envelope.component_records payload ∧
  Envelope.component_load_groups payload = [] ∧
  Envelope.component_load_groups payload ≠ Envelope.component_records payload.
Proof. vm_compute. split_and!; done. Qed.

(** C8: getGroups throws on a null payload.  Its envelope handling reads
    [response.$values] without testing [response] first, so for null (and
    for undefined) the [next] handler throws a TypeError and assigns
    nothing; the record handlers of the component and of the service, and
    the group handler of the load, do test and answer with the empty
    sequence, as all four do for the empty object. *)
Theorem C8_getGroups_throws_on_null :
  Envelope.component_getGroups JNull = Throw TypeError ∧
  Envelope.component_getGroups JUndefined = Throw TypeError ∧
  (∀ st, getGroups_next JNull st = (Throw TypeError, st)) ∧
  (∀ st, ∃ st', getGroups (Next JNull) st = (Throw TypeError, st')
                ∧ groups st' = groups st
                ∧ same_error st st') ∧
  (∀ payload, payload = JNull ∨ payload = JObj [] →
     Envelope.service_records payload = [] ∧
     Envelope.component_records payload = [] ∧
     Envelope.component_load_groups payload = []) ∧
  Envelope.component_getGroups (JObj []) = Ok ([], true).
Proof.
  split_and!; try done.
  - intros st. by eexists.
  - by intros payload [-> | ->].
Qed.

(** ** Orders *)

(** C9 (as amended): when the identity changes to a present (non-empty)
    one, the coordinator issues one fetch for that identity.  When the
    fetch delivers an array with no null or undefined element, both lists
    hold its elements and loading ends; when the fetch fails, both lists
    are empty and loading ends; while it is pending the lists stay and
    loading is on.  Otherwise the variants differ.  orders.component.ts
    holds the empty sequence for a value that is no array, and for
    undefined or an array with a null or undefined element its handler
    throws while logging: the lists stay what they were and loading stays
    on.  part_001 assigns to [orders] whatever is delivered and, unless
    that is an array or a string (whose characters become the filtered
    list), throws before the filtered list and [loading] are assigned.  When the identity changes to no identity the
    coordinator does nothing in either variant: no fetch is issued and the
    held order lists stay what they were. *)
Theorem C9_orders_reload_only_for_present_identity
    (email : option string) (a : Orders.answer) (st : Orders.View) :
  let st' := Orders.onEmail email a st in
  let st1 := Orders.onEmail_v1 email a st in
  match email with
  | Some e =>
      if Orders.present email then
        (Orders.requests st'
         = (Orders.requests st ++ [Orders.GetOrdersByUserEmail e])%list ∧
         match a with
         | Orders.Pending =>
             Orders.orders st' = Orders.orders st ∧
             Orders.filteredOrders st' = Orders.filteredOrders st ∧
             Orders.loading st' = true
         | Orders.Next os =>
             if Orders.is_undefined os
                || existsb Orders.nullish (elements os)
             then Orders.orders st' = Orders.orders st ∧
                  Orders.filteredOrders st' = Orders.filteredOrders st ∧
                  Orders.loading st' = true
             else Orders.orders st' = elements os ∧
                  Orders.filteredOrders st' = elements os ∧
                  Orders.loading st' = false
         | Orders.Err _ =>
             Orders.orders st' = [] ∧ Orders.filteredOrders st' = [] ∧
             Orders.loading st' = false
         end) ∧
        (Orders.requests (Orders.fields st1)
         = (Orders.requests st ++ [Orders.GetOrdersByUserEmail e])%list ∧
         match a with
         | Orders.Pending =>
             Orders.held st1 = JArr (Orders.orders st) ∧
             Orders.filteredOrders (Orders.fields st1)
             = Orders.filteredOrders st ∧
             Orders.loading (Orders.fields st1) = true
         | Orders.Next os =>
             Orders.held st1 = os ∧
             match os with
             | JArr items =>
                 Orders.filteredOrders (Orders.fields st1) = items ∧
                 Orders.loading (Orders.fields st1) = false
             | JStr s =>
                 (Text.ascii_only s = true →
                  Orders.filteredOrders (Orders.fields st1) = char_values s) ∧
                 Orders.loading (Orders.fields st1) = false
             | _ =>
                 Orders.filteredOrders (Orders.fields st1)
                 = Orders.filteredOrders st ∧
                 Orders.loading (Orders.fields st1) = true
             end
         | Orders.Err _ =>
             Orders.held st1 = JArr [] ∧
             Orders.filteredOrders (Orders.fields st1) = [] ∧
             Orders.loading (Orders.fields st1) = false
         end)
      else st' = st ∧ st1 = Orders.Typed st
  | None => st' = st ∧ st1 = Orders.Typed st
  end.
Proof.
  cbv zeta. destruct email as [e|]; [|done].
  unfold Orders.onEmail, Orders.onEmail_v1.
  destruct (Orders.present (Some e)); [|done].
  split.
  - unfold Orders.loadOrders. destruct a as [|os|err]; [done| |done].
    assert (E : (if isArray os then elements os else []) = elements os)
      by (by destruct os).
    rewrite E. by destruct (_ || _).
  - unfold Orders.loadOrders_v1. destruct a as [|os|err]; [done| |done].
    by destruct os.
Qed.

(** C9 as stated fails: a component that holds the orders of one user and
    is then told there is no identity (null, or the empty string) keeps
    holding those orders and issues no fetch. *)
Lemma C9_counterexample :
  let st := orders_loaded in
  let st' := Orders.onEmail None Orders.Pending st in
  Orders.orders st = [order] ∧
  Orders.orders st' = [order] ∧
  Orders.orders st' ≠ [] ∧
  Orders.filteredOrders st' ≠ [] ∧
  Orders.requests st' = Orders.requests st ∧
  Orders.onEmail_v1 None Orders.Pending st = Orders.Typed st ∧
  Orders.held (Orders.onEmail_v1 (Some "") Orders.Pending st) = JArr [order] ∧
  Orders.onEmail (Some "") Orders.Pending st = st.
Proof. vm_compute. split_and!; done. Qed.

(** ** Saving *)

(** C10: for a record whose groupId is null or undefined, addRecord and
    updateRecord throw 'Group is required' and leave the component as it
    was, so no request has been issued; and save, for such a draft that
    passes its own check of title, price and stock, ends by that exception
    with the component exactly as it was: [visibleError] and
    [errorMessage] are not assigned, no request is issued, and what the
    remote end would have answered plays no part. *)
Theorem C10_missing_group_throws_before_any_request
    (st : View.View) (r : IRecord) (answer records_answer : Http)
    (groups_answer : notification JsValue) :
  groupId r = Null ∨ groupId r = Undefined →
  addRecord r st = (Throw (Error "Group is required"), st) ∧
  updateRecord r st = (Throw (Error "Group is required"), st) ∧
  (missing_required r = false →
   save answer records_answer groups_answer (set_record r st)
   = (Throw (Error "Group is required"), set_record r st)).
Proof.
  intros Hg.
  assert (Hm : group_missing (groupId r) = true) by (by destruct Hg as [-> | ->]).
  assert (Hs : group_missing (groupId (recordToSave r)) = true).
  { cbn. by destruct Hg as [-> | ->]. }
  split_and!.
  - unfold addRecord. by rewrite Hm.
  - unfold updateRecord. by rewrite Hm.
  - intros Hreq. unfold save. cbn [record set_record].
    rewrite Hreq. unfold bind, addRecord, updateRecord. rewrite Hs.
    by destruct (Z.eqb (idRecord r) 0).
Qed.

Lemma C10_witness :
  groupId draft = Null ∧
  missing_required draft = false ∧
  addRecord draft catalogue = (Throw (Error "Group is required"), catalogue) ∧
  save (HttpOk JNull) (HttpOk (JArr [])) (Next (JArr []))
    (set_record draft catalogue)
  = (Throw (Error "Group is required"), set_record draft catalogue).
Proof.
  split; [reflexivity|]. split; [reflexivity|].
  destruct (C10_missing_group_throws_before_any_request catalogue draft
              (HttpOk JNull) (HttpOk (JArr [])) (Next (JArr [])))
    as (Hadd & _ & Hsave); [left; reflexivity|].
  split; [exact Hadd | apply Hsave; reflexivity].
Defined.

(** ** Evaluations *)

(** A load of two records and one group, the payload wrapped in [$values]:
    both records are installed, the first with the name of its group, the
    second, whose group does not exist, with the empty name. *)
Example load_joins_group_names :
  let payload := JObj [("$id", JStr "1"); ("$values", JArr [revolver; aftermath])] in
  let out := getRecords (HttpOk payload) (Next (JArr [beatles])) (View.initial None) in
  let st := out.2 in
  out.1 = Ok tt ∧
  requests st = [GetRecords; GetGroups] ∧
  ((fun l => (fun r => (idRecord r, groupName r, stock r))
               <$> read_record l (heap st))
     <$> read_array (filteredRecords st) (heap st))
  = [Some (1, "The Beatles", 4); Some (2, "", 1)] ∧
  read_array (records st) (heap st) = read_array (filteredRecords st) (heap st) ∧
  records st ≠ filteredRecords st.
Proof. vm_compute. split_and!; done. Qed.

(** The same load when the groups request fails with status 500: the
    records are installed without group names and a message is set, but
    [visibleError] stays false. *)
Example load_with_failing_groups :
  let err := JObj [("status", JNum 500)] in
  let out := getRecords (HttpOk (JArr [revolver])) (Err err) (View.initial None) in
  let st := out.2 in
  out.1 = Ok tt ∧
  ((fun l => groupName <$> read_record l (heap st))
     <$> read_array (records st) (heap st)) = [Some ""] ∧
  errorMessage st = JStr "A server error occurred. Please try again later." ∧
  visibleError st = false.
Proof. vm_compute. split_and!; done. Qed.

(** What the service makes of a [data]-wrapped payload: one "record", the
    array itself spread into an object, with stock 0. *)
Example service_on_data_wrapped :
  (service_getRecords (HttpOk (JObj [("data", JArr [revolver])]))
     (View.initial None)).1
  = Next (JArr [JObj [("0", revolver); ("stock", JNum 0)]]).
Proof. vm_compute. done. Qed.

(** Searching is case-insensitive on the title, matches the year as text,
    and a blank text shows the whole base list. *)
Example search_on_catalogue :
  let shown text :=
    let st := filterRecords (set_searchText text catalogue) in
    read_array (filteredRecords st) (heap st) in
  shown "ABBEY" = [2%nat] ∧ shown "1969" = [2%nat; 3%nat] ∧
  shown "  " = [2%nat; 3%nat] ∧ shown "zappa" = [].
Proof. vm_compute. split_and!; done. Qed.

(** A save that fails its own check issues no request and shows an error. *)
Example save_rejects_empty_draft :
  let out := save (HttpOk JNull) (HttpOk (JArr [])) (Next (JArr [])) catalogue in
  out.1 = Ok tt ∧ visibleError out.2 = true ∧ requests out.2 = [] ∧
  errorMessage out.2 = JStr "Please fill in all required fields".
Proof. vm_compute. split_and!; done. Qed.

(** * Further properties *)

(** ** Records behind the lists *)

Lemma entries_are_records_weaken (h h' : gmap loc cell) items :
  h ⊆ h' → entries_are_records h items →
  entries_are_records h' items ∧
  (fun l => read_record l h') <$> items = (fun l => read_record l h) <$> items.
Proof.
  intros Hsub Hrec. split.
  - eapply Forall_impl; [exact Hrec|]. intros l [r Hr].
    exists r. by eapply read_record_weaken.
  - apply Forall_fmap_ext. eapply Forall_impl; [exact Hrec|].
    intros l [r Hr]. cbn. rewrite Hr. by eapply read_record_weaken.
Qed.

Lemma stock_entries_contents u (h h' h'' : gmap loc cell) old new :
  entries_are_records h old → stock_entries u h h' old new →
  h ⊆ h'' → h' ⊆ h'' →
  entries_are_records h'' new ∧
  (fun l => read_record l h'') <$> new
  = (fun l => stock_applied u <$> read_record l h) <$> old.
Proof.
  intros Hrec [Hlen Hel] S S'.
  assert (Hi : ∀ (i : nat) l', new !! i = Some l' →
            ∃ l r, old !! i = Some l ∧ read_record l h = Some r ∧
                   read_record l' h'' = Some (stock_applied u r)).
  { intros i l' Hn.
    destruct (old !! i) as [l|] eqn:Ho.
    2:{ apply lookup_ge_None in Ho. apply lookup_lt_Some in Hn. lia. }
    destruct (Forall_lookup_1 _ _ _ _ Hrec Ho) as [r Hr].
    exists l, r. split_and!; [done..|].
    specialize (Hel i l r Ho Hr). unfold stock_applied.
    destruct (bool_decide (Some (idRecord r) = recordId u)).
    - destruct Hel as (l1 & Hl1 & _ & Hnew). simplify_eq.
      unfold read_record. by rewrite (lookup_weaken _ _ _ _ Hnew S').
    - simplify_eq. exact (read_record_weaken _ _ _ _ S Hr). }
  split.
  - apply Forall_lookup. intros i l' Hn.
    destruct (Hi i l' Hn) as (l & r & _ & _ & Hr). by eexists.
  - apply list_eq. intros i. rewrite !list_lookup_fmap.
    destruct (new !! i) as [l'|] eqn:Hn.
    + destruct (Hi i l' Hn) as (l & r & -> & Hr & Hr'). cbn. by rewrite Hr, Hr'.
    + apply lookup_ge_None in Hn. rewrite (lookup_ge_None_2 old i) by lia. done.
Qed.

(** The two maps of the stock subscription, taken apart once. *)
Lemma onStockUpdate_inv u (st : View.View) items shownItems :
  heap st !! records st = Some (CArray items) →
  heap st !! filteredRecords st = Some (CArray shownItems) →
  let st' := onStockUpdate (Some u) st in
  ∃ items' shownItems',
    heap st' !! records st' = Some (CArray items') ∧
    heap st' !! filteredRecords st' = Some (CArray shownItems') ∧
    stock_entries u (heap st) (heap st') items items' ∧
    stock_entries u (heap st) (heap st') shownItems shownItems' ∧
    heap st ⊆ heap st'.
Proof.
  intros Hb Hs st'. subst st'. unfold onStockUpdate.
  rewrite (read_array_weaken _ _ _ _ (reflexivity _) Hb).
  destruct (map_stock u items (heap st)) as [rs h1] eqn:H1.
  destruct (new_array rs h1) as [rl h2] eqn:H2.
  apply map_stock_spec in H1 as [S1 E1].
  apply alloc_extends in H2 as (S2 & F2 & L2).
  assert (S02 : heap st ⊆ h2) by (by transitivity h1).
  rewrite (read_array_weaken _ _ _ _ S02 Hs).
  destruct (map_stock u shownItems h2) as [fs h3] eqn:H3.
  destruct (new_array fs h3) as [fl h4] eqn:H4. cbn.
  apply map_stock_spec in H3 as [S3 E3].
  apply alloc_extends in H4 as (S4 & F4 & L4).
  assert (S14 : h1 ⊆ h4) by (transitivity h2; [done|by transitivity h3]).
  assert (S24 : h2 ⊆ h4) by (by transitivity h3).
  exists rs, fs. split_and!.
  - exact (lookup_weaken _ _ _ _ L2 S24).
  - exact L4.
  - exact (stock_entries_extend _ _ _ _ _ _ S14 E1).
  - eapply stock_entries_weaken; [exact S02|].
    exact (stock_entries_extend _ _ _ _ _ _ S4 E3).
  - by transitivity h2.
Qed.

Lemma contents_eq array (st : View.View) items :
  heap st !! array = Some (CArray items) →
  contents array st = (fun l => read_record l (heap st)) <$> items.
Proof. intros H. unfold contents, read_array. by rewrite H. Qed.

Lemma onStockUpdate_contents u (st : View.View) :
  well_formed st →
  let st' := onStockUpdate (Some u) st in
  well_formed st' ∧
  base st' = (fun o : option IRecord => stock_applied u <$> o) <$> base st ∧
  shown st' = (fun o : option IRecord => stock_applied u <$> o) <$> shown st.
Proof.
  intros (items & shownItems & Hb & Hs & Rb & Rs) st'.
  destruct (onStockUpdate_inv u st items shownItems Hb Hs)
    as (items' & shownItems' & Hb' & Hs' & Eb & Es & S).
  fold st' in Hb', Hs', Eb, Es, S.
  destruct (stock_entries_contents u _ _ (heap st') _ _ Rb Eb S (reflexivity _))
    as [Rb' Cb].
  destruct (stock_entries_contents u _ _ (heap st') _ _ Rs Es S (reflexivity _))
    as [Rs' Cs].
  split_and!.
  - by exists items', shownItems'.
  - unfold base. rewrite (contents_eq _ _ _ Hb'), (contents_eq _ _ _ Hb), Cb.
    by rewrite <- list_fmap_compose.
  - unfold shown. rewrite (contents_eq _ _ _ Hs'), (contents_eq _ _ _ Hs), Cs.
    by rewrite <- list_fmap_compose.
Qed.

Lemma stock_applied_same (u1 u2 : StockUpdate) (r : IRecord) :
  recordId u1 = recordId u2 →
  stock_applied u2 (stock_applied u1 r) = stock_applied u2 r.
Proof.
  intros E. unfold stock_applied. rewrite E.
  destruct (bool_decide (Some (idRecord r) = recordId u2)) eqn:B; cbn; by rewrite B.
Qed.

Lemma stock_applied_comm (u1 u2 : StockUpdate) (r : IRecord) :
  recordId u1 ≠ recordId u2 →
  stock_applied u2 (stock_applied u1 r) = stock_applied u1 (stock_applied u2 r).
Proof.
  intros E. unfold stock_applied.
  destruct (decide (Some (idRecord r) = recordId u1)) as [E1|E1];
    destruct (decide (Some (idRecord r) = recordId u2)) as [E2|E2];
    try congruence;
    repeat (match goal with
            | H : ?P |- context [bool_decide ?P] =>
                rewrite (bool_decide_eq_true_2 P H)
            | H : ?x ≠ ?y |- context [bool_decide (?x = ?y)] =>
                rewrite (bool_decide_eq_false_2 (x = y) H)
            end; cbn [idRecord with_stock]);
    done.
Qed.

(** X1: stock events act on what the lists show record by record, so two
    events for the same identifier leave what the later one alone would
    leave (the last write wins), and two events for different identifiers
    can arrive in either order. *)
Theorem stock_events_compose (st : View.View) (u1 u2 : StockUpdate) :
  well_formed st →
  let after a b := onStockUpdate (Some b) (onStockUpdate (Some a) st) in
  (recordId u1 = recordId u2 →
   base (after u1 u2) = base (onStockUpdate (Some u2) st) ∧
   shown (after u1 u2) = shown (onStockUpdate (Some u2) st)) ∧
  (recordId u1 ≠ recordId u2 →
   base (after u1 u2) = base (after u2 u1) ∧
   shown (after u1 u2) = shown (after u2 u1)).
Proof.
  intros Hwf after. subst after. cbv beta.
  destruct (onStockUpdate_contents u1 st Hwf) as (W1 & B1 & S1).
  destruct (onStockUpdate_contents u2 st Hwf) as (W2 & B2 & S2).
  destruct (onStockUpdate_contents u2 _ W1) as (_ & B12 & S12).
  destruct (onStockUpdate_contents u1 _ W2) as (_ & B21 & S21).
  rewrite B12, S12, B21, S21, B1, S1, B2, S2.
  rewrite <- !list_fmap_compose.
  split; intros E; split; apply list_fmap_ext; intros _ [r|] _; cbn; try done;
    f_equal; by (apply stock_applied_same || apply stock_applied_comm).
Qed.

Lemma stock_events_compose_witness :
  well_formed catalogue ∧
  base (onStockUpdate (Some (mkStockUpdate (Some 7) 3))
          (onStockUpdate (Some (mkStockUpdate (Some 7) 9)) catalogue))
  = [Some (album 7 "Abbey Road" 3); Some (album 8 "Let It Be" 2)].
Proof.
  assert (W : well_formed catalogue).
  { exists [2%nat; 3%nat], [2%nat; 3%nat].
    split_and!; try reflexivity; repeat constructor; by eexists. }
  split; [exact W|].
  destruct (stock_events_compose catalogue (mkStockUpdate (Some 7) 9)
              (mkStockUpdate (Some 7) 3) W) as [Hsame _].
  destruct (Hsame eq_refl) as [Hb _]. rewrite Hb. reflexivity.
Defined.

(** ** Well-formed states *)

#[local] Instance keeps_well_formed_refl : Reflexive keeps_well_formed.
Proof. by intros st H. Qed.

#[local] Instance keeps_well_formed_trans : Transitive keeps_well_formed.
Proof. intros st1 st2 st3 H12 H23 H. by apply H23, H12. Qed.

Lemma initial_well_formed email : well_formed (View.initial email).
Proof. exists [], []. split_and!; try done; constructor. Qed.

(** What a cart snapshot does to the lists and their records. *)
Lemma onCart_contents cartItems (st : View.View) :
  well_formed st →
  let st' := onCart cartItems st in
  well_formed st' ∧
  base st' = (fun o : option IRecord => apply_cart cartItems <$> o) <$> base st ∧
  shown st' = base st'.
Proof.
  intros (items & shownItems & Hb & Hs & Rb & Rs) st'.
  destruct (onCart_spec cartItems st) as (Hr & _ & Hf & Hrec & Harr).
  fold st' in Hr, Hf, Hrec, Harr.
  destruct (onCart_lists_allocated cartItems st) as [_ [fs Hfs]].
  { split; by eexists. }
  fold st' in Hfs.
  assert (Hitems : read_array (records st) (heap st) = items).
  { unfold read_array. by rewrite Hb. }
  rewrite Hitems in Hf, Hrec.
  assert (fs = items) as ->.
  { unfold read_array in Hf. by rewrite Hfs in Hf. }
  assert (Hb' : heap st' !! records st' = Some (CArray items)).
  { rewrite Hr. by apply Harr. }
  assert (C : (fun l => read_record l (heap st')) <$> items
              = (fun l => apply_cart cartItems <$> read_record l (heap st)) <$> items).
  { apply list_fmap_ext. intros i l Hl.
    destruct (Forall_lookup_1 _ _ _ _ Rb Hl) as [r Hrd]. rewrite Hrd.
    change (apply_cart cartItems <$> Some r) with (Some (apply_cart cartItems r)).
    unfold read_record in Hrd |- *.
    destruct (heap st !! l) as [[r0|]|] eqn:E; try done. injection Hrd as ->.
    rewrite (Hrec l r E).
    rewrite bool_decide_eq_true_2; [done|].
    apply list_elem_of_lookup. by exists i. }
  assert (R' : entries_are_records (heap st') items).
  { apply Forall_lookup. intros i l Hl.
    destruct (Forall_lookup_1 _ _ _ _ Rb Hl) as [r Hrd].
    unfold read_record in Hrd |- *.
    destruct (heap st !! l) as [[r0|]|] eqn:E; try done.
    rewrite (Hrec l r0 E). by eexists. }
  split_and!.
  - by exists items, items.
  - unfold base. rewrite (contents_eq _ _ _ Hb'), (contents_eq _ _ _ Hb), C.
    by rewrite <- list_fmap_compose.
  - unfold shown, base.
    by rewrite (contents_eq _ _ _ Hfs), (contents_eq _ _ _ Hb').
Qed.

Lemma filter_fmap {A B} (f : A → B) (q : B → bool) (l : list A) :
  f <$> List.filter (fun a => q (f a)) l = List.filter q (f <$> l).
Proof.
  induction l as [|a l IH]; [done|]. cbn.
  destruct (q (f a)); cbn; by rewrite IH.
Qed.

Lemma filter_sublist {A} (q : A → bool) (l : list A) :
  sublist (List.filter q l) l.
Proof.
  induction l as [|a l IH]; cbn; [constructor|].
  destruct (q a); by constructor.
Qed.

(** What a search does to the lists and their records. *)
Lemma filterRecords_contents (st : View.View) :
  well_formed st →
  let st' := filterRecords st in
  well_formed st' ∧
  base st' = base st ∧
  shown st' = (if Text.blank (searchText st) then base st
               else List.filter (search_hit (searchText st)) (base st)).
Proof.
  intros (items & shownItems & Hb & Hs & Rb & Rs) st'.
  subst st'. unfold filterRecords.
  rewrite (read_array_weaken _ _ _ _ (reflexivity _) Hb).
  set (kept := if Text.blank (searchText st) then items
               else List.filter
                      (fun l => search_hit (searchText st) (read_record l (heap st)))
                      items).
  assert (Hkept : sublist kept items).
  { subst kept. destruct (Text.blank _); [done|apply filter_sublist]. }
  assert (Hgoal : ∀ fl h1, new_array kept (heap st) = (fl, h1) →
     let st' := set_filteredRecords h1 fl st in
     well_formed st' ∧ base st' = base st ∧
     shown st' = (fun l => read_record l (heap st)) <$> kept).
  { intros fl h1 H1 st'.
    apply alloc_extends in H1 as (S1 & F1 & L1).
    assert (Rk : entries_are_records (heap st) kept)
      by (apply Forall_forall; intros l Hl;
          exact (proj1 (Forall_forall _ _) Rb l (elem_of_sublist _ _ _ Hl Hkept))).
    destruct (entries_are_records_weaken _ _ _ S1 Rb) as [Rb' Cb].
    destruct (entries_are_records_weaken _ _ _ S1 Rk) as [Rk' Ck].
    assert (Hb' : heap st' !! records st' = Some (CArray items))
      by exact (lookup_weaken _ _ _ _ Hb S1).
    split_and!.
    - by exists items, kept.
    - unfold base. rewrite (contents_eq _ _ _ Hb'), (contents_eq _ _ _ Hb).
      exact Cb.
    - unfold shown. etrans; [exact (contents_eq fl st' kept L1)|]. exact Ck. }
  subst kept. destruct (Text.blank (searchText st)).
  - destruct (new_array items (heap st)) as [fl h1] eqn:H1.
    destruct (Hgoal fl h1 eq_refl) as (W & B & S).
    split_and!; [done..|]. rewrite S. unfold base.
    by rewrite (contents_eq _ _ _ Hb).
  - destruct (new_array _ (heap st)) as [fl h1] eqn:H1.
    destruct (Hgoal fl h1 eq_refl) as (W & B & S).
    split_and!; [done..|]. rewrite S. unfold base.
    rewrite (contents_eq _ _ _ Hb). apply filter_fmap.
Qed.

Lemma alloc_records_contents rs : ∀ (h : gmap loc cell) ls h',
  alloc_records rs h = (ls, h') →
  h ⊆ h' ∧ (fun l => read_record l h') <$> ls = Some <$> rs.
Proof.
  induction rs as [|r rest IH]; intros h ls h' Ha; cbn [alloc_records] in Ha.
  - by injection Ha as <- <-.
  - destruct (alloc _ h) as [l h1] eqn:H1.
    destruct (alloc_records rest h1) as [ls' h2] eqn:H2.
    injection Ha as <- <-.
    apply alloc_extends in H1 as (S1 & _ & L1).
    apply IH in H2 as [S2 C2]. split; [by transitivity h1|].
    cbn. rewrite C2. f_equal.
    unfold read_record. by rewrite (lookup_weaken _ _ _ _ L1 S2).
Qed.

(** What installing a loaded catalogue leaves: exactly the loaded records,
    in order, in both lists. *)
Lemma install_contents rs (st : View.View) :
  let st' := install rs st in
  well_formed st' ∧ base st' = Some <$> rs ∧ shown st' = Some <$> rs.
Proof.
  unfold install.
  destruct (alloc_records rs (heap st)) as [ls h1] eqn:H1.
  destruct (new_array ls h1) as [rl h2] eqn:H2.
  destruct (new_array (read_array rl h2) h2) as [fl h3] eqn:H3. cbn zeta.
  rewrite (read_array_new _ _ _ _ H2) in H3.
  apply alloc_records_contents in H1 as [S1 C1].
  apply alloc_extends in H2 as (S2 & _ & L2).
  apply alloc_extends in H3 as (S3 & _ & L3).
  assert (S13 : h1 ⊆ h3) by (by transitivity h2).
  assert (R1 : entries_are_records h1 ls).
  { apply Forall_lookup. intros i l Hl.
    assert (E := f_equal (fun x => x !! i) C1). cbn in E.
    rewrite !list_lookup_fmap, Hl in E. cbn in E.
    destruct (rs !! i) as [r|]; [|done]. cbn in E. injection E as E. by eexists. }
  destruct (entries_are_records_weaken _ _ _ S13 R1) as [R3 C3].
  assert (L2' : h3 !! rl = Some (CArray ls)) by exact (lookup_weaken _ _ _ _ L2 S3).
  split_and!.
  - by exists ls, ls.
  - unfold base. etrans; [exact (contents_eq rl (set_store h3 rl fl st) ls L2')|].
    etrans; [exact C3 | exact C1].
  - unfold shown. etrans; [exact (contents_eq fl (set_store h3 rl fl st) ls L3)|].
    etrans; [exact C3 | exact C1].
Qed.

(** What the callback of a cart operation does to the lists and their
    records: the record behind [l] changes, wherever the base list has it,
    and the displayed list becomes the base list. *)
Lemma cart_update_contents f l (st : View.View) q :
  well_formed st →
  let st' := republish (set_heap (update_record f l (heap st)) (issue q st)) in
  well_formed st' ∧
  shown st' = base st' ∧
  base st'
  = (fun l' => (if bool_decide (l = l') then f else id) <$> read_record l' (heap st))
      <$> read_array (records st) (heap st).
Proof.
  intros (items & shownItems & Hb & Hs & Rb & Rs) st'. subst st'.
  unfold republish. cbn -[new_array].
  rewrite update_record_array.
  rewrite (read_array_weaken _ _ _ _ (reflexivity _) Hb).
  destruct (new_array items (update_record f l (heap st))) as [fl h1] eqn:H1.
  apply alloc_extends in H1 as (S1 & F1 & L1).
  set (st' := set_filteredRecords h1 fl _).
  assert (Hb' : heap st' !! records st' = Some (CArray items)).
  { apply (lookup_weaken (update_record f l (heap st))); [|done].
    pose proof (update_record_lookup f l (heap st) (records st)) as E.
    by rewrite Hb in E. }
  assert (C : (fun l' => read_record l' h1) <$> items
              = (fun l' => (if bool_decide (l = l') then f else id)
                             <$> read_record l' (heap st)) <$> items).
  { apply list_fmap_ext. intros i l' Hl.
    destruct (Forall_lookup_1 _ _ _ _ Rb Hl) as [r Hrd]. rewrite Hrd.
    apply (read_record_weaken _ _ _ _ S1).
    unfold read_record in Hrd |- *. rewrite update_record_lookup.
    destruct (heap st !! l') as [[r0|]|]; try done. injection Hrd as ->.
    by destruct (bool_decide (l = l')). }
  assert (R' : entries_are_records h1 items).
  { apply Forall_lookup. intros i l' Hl.
    assert (E := f_equal (fun x => x !! i) C). cbn in E.
    rewrite !list_lookup_fmap, Hl in E. cbn in E.
    destruct (Forall_lookup_1 _ _ _ _ Rb Hl) as [r Hrd]. rewrite Hrd in E.
    injection E as E. by eexists. }
  split_and!.
  - by exists items, items.
  - unfold shown, base.
    etrans; [exact (contents_eq fl st' items L1)|].
    symmetry. exact (contents_eq _ st' items Hb').
  - unfold base. etrans; [exact (contents_eq _ st' items Hb')|]. exact C.
Qed.

Lemma getRecords_well_formed records_answer groups_answer
    (st : View.View) r st' :
  getRecords records_answer groups_answer st = (r, st') →
  well_formed st → well_formed st'.
Proof.
  assert (Hn : ∀ id s st0, keeps_well_formed st0 (notifyStockUpdate id s st0)).
  { intros id s st0 H.
    by apply (onStockUpdate_contents _ (log_published _ st0)). }
  assert (Hi : ∀ q st0, keeps_well_formed st0 (issue q st0)) by (by intros q st0 H).
  unfold getRecords.
  destruct (service_getRecords_next keeps_well_formed Hn Hi records_answer st)
    as (data & st1 & -> & K1).
  unfold bind at 1.
  destruct (getRecords_next (JArr data) st1) as [[recordsArray|e] st2] eqn:E2;
    apply (respects_getRecords_next keeps_well_formed Hn Hi) in E2 as K2.
  - destruct groups_answer as [groupsResponse|err].
    + unfold getRecords_groups_next, bind, lift, modify.
      destruct (process_records _ recordsArray) as [rs|e].
      * intros [= <- <-] _. apply install_contents.
      * intros [= <- <-] H. by apply K2, K1.
    + unfold getRecords_groups_error, bind at 1, modify.
      intros (Hh & Hr & Hf & _)%controlError_frame _.
      destruct (install_contents (as_record <$> recordsArray) st2)
        as ((items & shownItems & ? & ? & ? & ?) & _).
      exists items, shownItems. by rewrite Hh, Hr, Hf.
  - intros [= <- <-] H. by apply K2, K1.
Qed.

(** X2: in every state a component can reach, by stock events, cart
    snapshots, searches, loads and cart operations in any order and with
    any answers of the remote end, both list fields point at arrays and
    every entry of the base list and of the displayed list points at a
    record object. *)
Theorem reachable_well_formed (email : option string)
    (events : list Trace.event) :
  well_formed (Trace.after email events).
Proof.
  unfold Trace.after.
  induction events as [|e events IH] using rev_ind.
  - apply initial_well_formed.
  - rewrite foldl_app. cbn [foldl].
    set (st := foldl Trace.step (View.initial email) events) in *.
    destruct e as [update|cartItems|text|ra ga|l o|l o]; cbn [Trace.step].
    + destruct update as [u|]; [|done]. by apply onStockUpdate_contents.
    + by apply onCart_contents.
    + by apply (filterRecords_contents (set_searchText text st)).
    + destruct (getRecords ra ga st) as [r st'] eqn:E.
      by apply (getRecords_well_formed _ _ _ _ _ E).
    + unfold addToCart. destruct (has_identity _); [|done].
      destruct o; [done| |].
      * exact (proj1 (cart_update_contents added l st (CartAdd l) IH)).
      * exact (proj1 (cart_update_contents add_reverted l st (CartAdd l) IH)).
    + unfold removeFromCart. destruct (_ || _); [done|].
      destruct o; [done| |].
      * exact (proj1 (cart_update_contents removed l st (CartRemove l) IH)).
      * exact (proj1 (cart_update_contents remove_reverted l st (CartRemove l) IH)).
Qed.

(** X3: a cart operation on a record object that is not an entry of the
    base list does not show.  When the remote add for such an object
    succeeds, the base list holds what it held and the displayed list is
    replaced by the base list, so nothing displayed carries the new mark.
    The displayed copy of a record that a stock event has just replaced is
    such an object. *)
Theorem addToCart_outside_base_list_is_not_shown
    (st : View.View) (l : loc) (response : JsValue) :
  well_formed st →
  has_identity (userEmail st) = true →
  l ∉ read_array (records st) (heap st) →
  let st' := addToCart l (Resolved response) st in
  base st' = base st ∧ shown st' = base st.
Proof.
  intros Hwf Hid Hl st'. subst st'. unfold addToCart. rewrite Hid.
  destruct (cart_update_contents added l st (CartAdd l) Hwf) as (_ & Hs & Hb).
  unfold addToCart_next. cbn [heap issue] in *.
  assert (E : base (republish
                      (set_heap (update_record added l (heap st))
                         (issue (CartAdd l) st))) = base st).
  { rewrite Hb. unfold base, contents. apply list_fmap_ext.
    intros i l' Hi. rewrite bool_decide_eq_false_2.
    - by destruct (read_record l' (heap st)).
    - intros ->. apply Hl, list_elem_of_lookup. by exists i. }
  split; [exact E|]. etrans; [exact Hs | exact E].
Qed.

Lemma addToCart_outside_base_list_witness :
  let st := onStockUpdate (Some (mkStockUpdate (Some 7) 3)) catalogue in
  read_array (filteredRecords st) (heap st) = [8%nat; 3%nat] ∧
  read_array (records st) (heap st) = [6%nat; 3%nat] ∧
  shown (addToCart 8%nat (Resolved JNull) st)
  = [Some (album 7 "Abbey Road" 3); Some (album 8 "Let It Be" 2)].
Proof.
  split; [reflexivity|]. split; [reflexivity|].
  assert (W : well_formed catalogue).
  { exists [2%nat; 3%nat], [2%nat; 3%nat].
    split_and!; try reflexivity; repeat constructor; by eexists. }
  destruct (onStockUpdate_contents (mkStockUpdate (Some 7) 3) catalogue W)
    as (W' & _ & _).
  destruct (addToCart_outside_base_list_is_not_shown _ 8%nat JNull W')
    as [_ Hs]; [reflexivity| |].
  - vm_compute. intros H. by repeat (apply elem_of_cons in H as [H|H]; [done|]);
      apply elem_of_nil in H.
  - rewrite Hs. reflexivity.
Defined.

(** ** Cart snapshots and cart operations *)

Lemma apply_cart_latest (c1 c2 : list Cart.Item) (r : IRecord) :
  apply_cart c2 (apply_cart c1 r) = apply_cart c2 r.
Proof. done. Qed.

Lemma apply_cart_stock (c : list Cart.Item) (u : StockUpdate) (r : IRecord) :
  apply_cart c (stock_applied u r) = stock_applied u (apply_cart c r).
Proof.
  unfold stock_applied. cbn [idRecord apply_cart with_cart].
  by destruct (bool_decide (Some (idRecord r) = recordId u)).
Qed.

(** X4: what the lists show after a cart snapshot depends on no earlier
    snapshot: a second snapshot overrides the first on every record, so the
    cart marks always agree with the latest snapshot alone (and applying
    one snapshot twice is applying it once); after any snapshot the
    displayed list is the base list. *)
Theorem latest_cart_snapshot_wins (st : View.View) (c1 c2 : list Cart.Item) :
  well_formed st →
  let st' := onCart c2 (onCart c1 st) in
  base st' = base (onCart c2 st) ∧
  shown st' = base st' ∧
  base (onCart c1 (onCart c1 st)) = base (onCart c1 st).
Proof.
  intros Hwf st'. subst st'.
  destruct (onCart_contents c1 st Hwf) as (W1 & B1 & S1).
  destruct (onCart_contents c2 st Hwf) as (W2 & B2 & S2).
  destruct (onCart_contents c2 _ W1) as (_ & B12 & S12).
  destruct (onCart_contents c1 _ W1) as (_ & B11 & _).
  split_and!.
  - rewrite B12, B2, B1, <- list_fmap_compose.
    apply list_fmap_ext. by intros _ [r|] _.
  - exact S12.
  - rewrite B11, B1, <- list_fmap_compose.
    apply list_fmap_ext. by intros _ [r|] _.
Qed.

Lemma latest_cart_snapshot_witness :
  well_formed catalogue ∧
  base (onCart [Cart.mkItem 8 (Some 1)] (onCart [Cart.mkItem 7 (Some 2)] catalogue))
  = [Some (with_cart false 0 (album 7 "Abbey Road" 5));
     Some (with_cart true 1 (album 8 "Let It Be" 2))].
Proof.
  assert (W : well_formed catalogue).
  { exists [2%nat; 3%nat], [2%nat; 3%nat].
    split_and!; try reflexivity; repeat constructor; by eexists. }
  split; [exact W|].
  destruct (latest_cart_snapshot_wins catalogue [Cart.mkItem 7 (Some 2)]
              [Cart.mkItem 8 (Some 1)] W) as (Hb & _).
  rewrite Hb. reflexivity.
Defined.

(** X5: stock events and cart snapshots do not interfere: a stock event
    keeps every cart mark and a snapshot keeps every stock, so a stock event
    and a cart snapshot leave the same records in the base list and in the
    displayed list in whichever order they arrive. *)
Theorem stock_event_and_cart_snapshot_commute
    (st : View.View) (u : StockUpdate) (c : list Cart.Item) :
  well_formed st →
  let st1 := onStockUpdate (Some u) (onCart c st) in
  let st2 := onCart c (onStockUpdate (Some u) st) in
  base st1 = base st2 ∧ shown st1 = shown st2 ∧
  base st1
  = (fun o : option IRecord => stock_applied u <$> (apply_cart c <$> o))
      <$> base st.
Proof.
  intros Hwf st1 st2. subst st1 st2.
  destruct (onCart_contents c st Hwf) as (W1 & B1 & S1).
  destruct (onStockUpdate_contents u st Hwf) as (W2 & B2 & S2).
  destruct (onStockUpdate_contents u _ W1) as (_ & B12 & S12).
  destruct (onCart_contents c _ W2) as (_ & B21 & S21).
  assert (E : base (onStockUpdate (Some u) (onCart c st))
              = base (onCart c (onStockUpdate (Some u) st))).
  { rewrite B12, B21, B1, B2, <- !list_fmap_compose.
    apply list_fmap_ext. intros _ [r|] _; [|done]. cbn.
    by rewrite apply_cart_stock. }
  split_and!.
  - exact E.
  - rewrite S12, S21, S1, <- E. by rewrite B12.
  - rewrite B12, B1, <- list_fmap_compose. done.
Qed.

Lemma stock_event_and_cart_snapshot_witness :
  well_formed catalogue ∧
  shown (onCart [Cart.mkItem 7 (Some 2)]
           (onStockUpdate (Some (mkStockUpdate (Some 7) 3)) catalogue))
  = [Some (with_cart true 2 (album 7 "Abbey Road" 3));
     Some (with_cart false 0 (album 8 "Let It Be" 2))].
Proof.
  assert (W : well_formed catalogue).
  { exists [2%nat; 3%nat], [2%nat; 3%nat].
    split_and!; try reflexivity; repeat constructor; by eexists. }
  split; [exact W|].
  destruct (stock_event_and_cart_snapshot_commute catalogue
              (mkStockUpdate (Some 7) 3) [Cart.mkItem 7 (Some 2)] W)
    as (_ & Hs & _).
  rewrite <- Hs. reflexivity.
Defined.

Lemma cart_consistent_callbacks (r : IRecord) :
  cart_consistent r →
  cart_consistent (added r) ∧ cart_consistent (add_reverted r) ∧
  cart_consistent (removed r) ∧ cart_consistent (remove_reverted r).
Proof.
  unfold cart_consistent, added, add_reverted, removed, remove_reverted.
  intros [H0 _]. pose proof (add_one_pos _ H0) as Hp.
  cbn [amount inCart with_cart or_zero default]. unfold id.
  generalize dependent (Num.add (or_zero (amount r)) 1).
  generalize (Num.add (or_zero (amount r)) (-1)).
  intros m p Hp.
  split_and!;
    first [ lia | apply Z.ltb_lt
          | split; [intros _; lia | done]
          | split; [done | intros ?; lia] ].
Qed.

(** X6: the cart callbacks keep a record's cart fields consistent.  If the
    amount of a record is not negative and the record is marked in-cart
    exactly when its amount is positive, the same holds after addToCart and
    after removeFromCart, whether the remote call is pending, succeeds or
    fails. *)
Theorem cart_operations_keep_marks_consistent
    (st : View.View) (l : loc) (r : IRecord) (outcome : remote) :
  read_record l (heap st) = Some r →
  cart_consistent r →
  (∃ r', read_record l (heap (addToCart l outcome st)) = Some r'
         ∧ cart_consistent r') ∧
  (∃ r', read_record l (heap (removeFromCart l outcome st)) = Some r'
         ∧ cart_consistent r').
Proof.
  intros Hr Hc.
  destruct (cart_consistent_callbacks r Hc) as (Ha & Har & Hrm & Hrr).
  split.
  - unfold addToCart. destruct (has_identity _); [|by exists r].
    destruct outcome; [by exists r| |].
    + exists (added r). split; [|done].
      by destruct (cart_update_republished added l st r (CartAdd l) Hr).
    + exists (add_reverted r). split; [|done].
      by destruct (cart_update_republished add_reverted l st r (CartAdd l) Hr).
  - unfold removeFromCart. destruct (_ || _); [by exists r|].
    destruct outcome; [by exists r| |].
    + exists (removed r). split; [|done].
      by destruct (cart_update_republished removed l st r (CartRemove l) Hr).
    + exists (remove_reverted r). split; [|done].
      by destruct (cart_update_republished remove_reverted l st r (CartRemove l) Hr).
Qed.

Lemma cart_operations_keep_marks_consistent_witness :
  read_record 2%nat (heap with_one_in_cart)
  = Some (with_cart true 1 (album 7 "Abbey Road" 5)) ∧
  cart_consistent (with_cart true 1 (album 7 "Abbey Road" 5)) ∧
  ∃ r', read_record 2%nat
          (heap (removeFromCart 2%nat (Rejected JNull) with_one_in_cart))
        = Some r' ∧ cart_consistent r'.
Proof.
  assert (C : cart_consistent (with_cart true 1 (album 7 "Abbey Road" 5))).
  { split; [cbn; lia|]. split; [cbn; lia | done]. }
  split; [reflexivity|]. split; [exact C|].
  exact (proj2 (cart_operations_keep_marks_consistent with_one_in_cart 2%nat
                  _ (Rejected JNull) eq_refl C)).
Defined.

(** X7: a confirmed add followed by a confirmed remove is a round trip.
    For a record whose amount is a safe integer that is not negative (from
    0 to [2 ^ 53 - 1], where the doubles add exactly), after addToCart and
    then removeFromCart on it, both confirmed by the remote end, the record
    has the amount it had (an undefined amount counting as 0) and is marked
    in-cart exactly when that amount is positive; every other field is what
    it was; two requests were issued, the add and then the remove. *)
Theorem add_then_remove_restores_amount
    (st : View.View) (l : loc) (r : IRecord) (response1 response2 : JsValue) :
  has_identity (userEmail st) = true →
  read_record l (heap st) = Some r →
  (0 ≤ or_zero (amount r) < 2 ^ 53)%Z →
  let st' := removeFromCart l (Resolved response2)
               (addToCart l (Resolved response1) st) in
  (∃ r', read_record l (heap st') = Some r' ∧
         amount r' = Some (or_zero (amount r)) ∧
         inCart r' = Some (Z.ltb 0 (or_zero (amount r))) ∧
         same_but_cart r r') ∧
  requests st' = (requests st ++ [CartAdd l; CartRemove l])%list.
Proof.
  intros Hid Hr H0 st'. subst st'.
  destruct (cart_update_republished added l st r (CartAdd l) Hr)
    as (Hr1 & _ & Hq1).
  set (st1 := addToCart_next l (issue (CartAdd l) st)) in *.
  change (republish (set_heap (update_record added l (heap st))
                       (issue (CartAdd l) st))) with st1 in Hr1, Hq1.
  assert (E1 : addToCart l (Resolved response1) st = st1)
    by (unfold addToCart; by rewrite Hid).
  rewrite E1.
  assert (Hid1 : has_identity (userEmail st1) = true).
  { subst st1. unfold addToCart_next, republish.
    by destruct (new_array _ _). }
  destruct (cart_update_republished removed l st1 (added r) (CartRemove l) Hr1)
    as (Hr2 & _ & Hq2).
  assert (E2 : removeFromCart l (Resolved response2) st1
               = removeFromCart_next l (issue (CartRemove l) st1)).
  { unfold removeFromCart, not_inCart. by rewrite Hid1, Hr1. }
  rewrite E2. split.
  - exists (removed (added r)). split; [exact Hr2|].
    assert (E : Z.max 0 (Num.add (Num.add (or_zero (amount r)) 1) (-1))
                = or_zero (amount r)).
    { unfold Num.add. rewrite (round_exact (or_zero (amount r) + 1)) by lia.
      rewrite round_exact by lia. lia. }
    unfold removed, added. cbn [amount with_cart or_zero default]. unfold id.
    fold (or_zero (amount r)). rewrite E.
    unfold same_but_cart. by split_and!.
  - etrans; [exact Hq2|]. rewrite Hq1. by rewrite <- app_assoc.
Qed.

Lemma add_then_remove_witness :
  has_identity (userEmail catalogue) = true ∧
  read_record 2%nat (heap catalogue) = Some (album 7 "Abbey Road" 5) ∧
  (0 ≤ or_zero (amount (album 7 "Abbey Road" 5)) < 2 ^ 53)%Z ∧
  ∃ r', read_record 2%nat
          (heap (removeFromCart 2%nat (Resolved JNull)
                   (addToCart 2%nat (Resolved JNull) catalogue)))
        = Some r' ∧
        amount r' = Some 0%Z ∧ inCart r' = Some false ∧ stock r' = 5%Z.
Proof.
  assert (Hb : (0 ≤ or_zero (amount (album 7 "Abbey Road" 5)) < 2 ^ 53)%Z)
    by (cbn; lia).
  split; [reflexivity|]. split; [reflexivity|]. split; [exact Hb|].
  destruct (add_then_remove_restores_amount catalogue 2%nat
              (album 7 "Abbey Road" 5) JNull JNull eq_refl eq_refl Hb)
    as [(r' & Hr & Ha & Hc & Hsame) _].
  exists r'. split_and!; [exact Hr | exact Ha | exact Hc |].
  by destruct Hsame as (_ & _ & _ & _ & _ & _ & _ & -> & _).
Defined.

(** ** Searching *)

Lemma lower_ascii_idemp c : Text.lower_ascii (Text.lower_ascii c) = Text.lower_ascii c.
Proof. by destruct c as [[] [] [] [] [] [] [] []]. Qed.

Lemma is_space_lower_ascii c : Text.is_space (Text.lower_ascii c) = Text.is_space c.
Proof. by destruct c as [[] [] [] [] [] [] [] []]. Qed.

Lemma toLowerCase_idemp t : Text.toLowerCase (Text.toLowerCase t) = Text.toLowerCase t.
Proof. induction t as [|c t IH]; [done|]. cbn. by rewrite lower_ascii_idemp, IH. Qed.

Lemma blank_toLowerCase t : Text.blank (Text.toLowerCase t) = Text.blank t.
Proof. induction t as [|c t IH]; [done|]. cbn. by rewrite is_space_lower_ascii, IH. Qed.

Lemma toLowerCase_app s t :
  Text.toLowerCase (s +:+ t) = Text.toLowerCase s +:+ Text.toLowerCase t.
Proof. induction s as [|c s IH]; [done|]. simpl. by rewrite IH. Qed.

Lemma blank_app s t : Text.blank (s +:+ t) = Text.blank s && Text.blank t.
Proof.
  induction s as [|c s IH]; [done|]. simpl. rewrite IH. by rewrite andb_assoc.
Qed.

Lemma string_app_assoc (a b c : string) : (a +:+ b) +:+ c = a +:+ b +:+ c.
Proof.
  induction a as [|x a IH]; [done|].
  change (String x ((a +:+ b) +:+ c) = String x (a +:+ b +:+ c)). by rewrite IH.
Qed.

Lemma prefix_spec t s : String.prefix t s = true ↔ ∃ post, s = t +:+ post.
Proof.
  revert s. induction t as [|c t IH]; intros s.
  - split; [intros _; by exists s | by destruct s].
  - destruct s as [|d s]; simpl.
    { split; [done | by intros [post ?]]. }
    destruct (Ascii.ascii_dec c d) as [->|Hne].
    + rewrite IH. split; intros [post E]; exists post; [by rewrite E|].
      by injection E.
    + split; [done|]. intros [post E]. by injection E.
Qed.

(** [includes] is the substring test. *)
Lemma includes_spec s t :
  Text.includes s t = true ↔ ∃ pre post, s = pre +:+ t +:+ post.
Proof.
  induction s as [|c s IH]; cbn [Text.includes].
  - rewrite orb_false_r, prefix_spec. split.
    + intros [post E]. by exists "", post.
    + intros (pre & post & E). destruct pre; [by exists post|done].
  - rewrite orb_true_iff, prefix_spec, IH. split.
    + intros [[post E] | (pre & post & E)].
      * by exists "", post.
      * exists (String c pre), post. by rewrite E.
    + intros (pre & post & E). destruct pre as [|d pre].
      * left. by exists post.
      * right. exists pre, post. by injection E.
Qed.

Lemma includes_trans a b c :
  Text.includes a b = true → Text.includes b c = true → Text.includes a c = true.
Proof.
  rewrite !includes_spec. intros (p1 & q1 & ->) (p2 & q2 & ->).
  exists (p1 +:+ p2), (q2 +:+ q1).
  by rewrite !string_app_assoc.
Qed.

Lemma includes_toLowerCase s t :
  Text.includes s t = true →
  Text.includes (Text.toLowerCase s) (Text.toLowerCase t) = true.
Proof.
  rewrite !includes_spec. intros (p & q & ->).
  exists (Text.toLowerCase p), (Text.toLowerCase q).
  by rewrite !toLowerCase_app.
Qed.

Lemma includes_blank s t :
  Text.includes s t = true → Text.blank s = true → Text.blank t = true.
Proof.
  rewrite includes_spec. intros (p & q & ->). rewrite !blank_app.
  by intros [_ [? _]%andb_true_iff]%andb_true_iff.
Qed.

Lemma matches_narrow (s1 s2 : string) (r : IRecord) :
  Text.includes s2 s1 = true → matches s2 r = true → matches s1 r = true.
Proof.
  intros Hs. unfold matches. rewrite !orb_true_iff.
  intros [[H | H] | H].
  - left; left. by eapply includes_trans.
  - left; right. by eapply includes_trans.
  - right. destruct (yearOfPublication r); [|done]. by eapply includes_trans.
Qed.

Lemma filter_sublist_impl {A} (p q : A → bool) (l : list A) :
  (∀ a, p a = true → q a = true) →
  sublist (List.filter p l) (List.filter q l).
Proof.
  intros Hpq. induction l as [|a l IH]; cbn; [constructor|].
  destruct (p a) eqn:P.
  - rewrite (Hpq a P). by constructor.
  - destruct (q a); [by constructor | done].
Qed.

Lemma base_set_searchText t (st : View.View) : base (set_searchText t st) = base st.
Proof. done. Qed.

Lemma well_formed_set_searchText t (st : View.View) :
  well_formed st → well_formed (set_searchText t st).
Proof. done. Qed.

Lemma matches_found_in term (r : IRecord) :
  matches term r = true ↔ found_in term r.
Proof.
  unfold matches, found_in, occurs_in.
  rewrite !orb_true_iff, !includes_spec.
  destruct (yearOfPublication r) as [y|].
  - rewrite includes_spec. split.
    + intros [[H|H]|H]; [by left | by right; left | right; right; by exists y].
    + intros [H|[H|(y' & [= <-] & H)]]; [by left; left | by left; right | by right].
  - split.
    + intros [[H|H]|H]; [by left | by right; left | done].
    + intros [H|[H|(y' & [=] & H)]]; [by left; left | by left; right].
Qed.

(** X8: a search never touches the base list and displays a sub-sequence
    of it, in the base list's order.  For a search text of ASCII characters
    and records whose title and group name are ASCII text (and whose year is
    a safe integer): a blank text displays the whole base list again,
    whatever was displayed before, and any other text displays exactly the
    records of the base list in which its lower-case form occurs: in the
    lower-cased title, in the lower-cased group name or in the digits of
    the year. *)
Theorem search_displays_a_subsequence (st : View.View) (text : string) :
  well_formed st →
  Text.ascii_only text = true →
  Forall plain_entry (base st) →
  let st' := filterRecords (set_searchText text st) in
  base st' = base st ∧
  shown st' `sublist_of` base st ∧
  (Text.blank text = true → shown st' = base st) ∧
  (Text.blank text = false →
   ∀ o, o ∈ shown st' ↔
        o ∈ base st ∧ ∃ r, o = Some r ∧ found_in (Text.toLowerCase text) r).
Proof.
  intros Hwf _ _ st'. subst st'.
  destruct (filterRecords_contents (set_searchText text st)
              (well_formed_set_searchText text st Hwf)) as (_ & Hb & Hs).
  cbn [searchText set_searchText] in Hs. rewrite base_set_searchText in Hb, Hs.
  split_and!; [done| | |].
  - rewrite Hs. destruct (Text.blank text); [done|apply filter_sublist].
  - intros E. by rewrite Hs, E.
  - intros E o. rewrite Hs, E.
    rewrite list_elem_of_In, List.filter_In, <- list_elem_of_In.
    split.
    + intros [Ho Hhit]. split; [done|].
      destruct o as [r|]; [|done]. exists r. split; [done|].
      by apply matches_found_in.
    + intros [Ho (r & -> & Hf)]. split; [done|].
      by apply matches_found_in.
Qed.

Lemma search_displays_a_subsequence_witness :
  well_formed catalogue ∧
  Text.ascii_only "abbey" = true ∧
  Forall plain_entry (base catalogue) ∧
  Some (album 7 "Abbey Road" 5)
  ∈ shown (filterRecords (set_searchText "abbey" catalogue)) ∧
  shown (filterRecords (set_searchText "   " catalogue)) = base catalogue.
Proof.
  assert (W : well_formed catalogue).
  { exists [2%nat; 3%nat], [2%nat; 3%nat].
    split_and!; try reflexivity; repeat constructor; by eexists. }
  assert (P : Forall plain_entry (base catalogue)).
  { repeat constructor; by intros r [= <-]. }
  split; [exact W|]. split; [reflexivity|]. split; [exact P|].
  split.
  - destruct (search_displays_a_subsequence catalogue "abbey" W eq_refl P)
      as (_ & _ & _ & H).
    apply (H eq_refl). split; [by left|].
    eexists. split; [reflexivity|]. left. by exists "", " road".
  - destruct (search_displays_a_subsequence catalogue "   " W eq_refl P)
      as (_ & _ & H & _).
    by apply H.
Defined.

(** X9: the search ignores the case of the search text: two texts with the
    same lower-case form display the same records. *)
Theorem search_ignores_case (st : View.View) (t1 t2 : string) :
  well_formed st →
  Text.toLowerCase t1 = Text.toLowerCase t2 →
  shown (filterRecords (set_searchText t1 st))
  = shown (filterRecords (set_searchText t2 st)).
Proof.
  intros Hwf E.
  destruct (filterRecords_contents (set_searchText t1 st)
              (well_formed_set_searchText t1 st Hwf)) as (_ & _ & H1).
  destruct (filterRecords_contents (set_searchText t2 st)
              (well_formed_set_searchText t2 st Hwf)) as (_ & _ & H2).
  cbn [searchText set_searchText] in H1, H2.
  rewrite base_set_searchText in H1, H2. rewrite H1, H2.
  rewrite <- (blank_toLowerCase t1), <- (blank_toLowerCase t2), E.
  destruct (Text.blank (Text.toLowerCase t2)); [reflexivity|].
  f_equal. unfold search_hit. by rewrite E.
Qed.

Lemma search_ignores_case_witness :
  well_formed catalogue ∧
  Text.toLowerCase "ABBEY Road" = Text.toLowerCase "abbey road" ∧
  shown (filterRecords (set_searchText "ABBEY Road" catalogue))
  = shown (filterRecords (set_searchText "abbey road" catalogue)).
Proof.
  assert (W : well_formed catalogue).
  { exists [2%nat; 3%nat], [2%nat; 3%nat].
    split_and!; try reflexivity; repeat constructor; by eexists. }
  split; [exact W|]. split; [reflexivity|].
  exact (search_ignores_case catalogue "ABBEY Road" "abbey road" W eq_refl).
Defined.

(** X10: lengthening the search text never adds results.  For search
    texts of ASCII characters: if the text [t1] occurs inside the text
    [t2], every record displayed for [t2] is displayed for [t1], in the
    same order. *)
Theorem search_narrows (st : View.View) (t1 t2 : string) :
  well_formed st →
  Text.ascii_only t2 = true →
  Text.includes t2 t1 = true →
  shown (filterRecords (set_searchText t2 st))
  `sublist_of` shown (filterRecords (set_searchText t1 st)).
Proof.
  intros Hwf _ Hin.
  destruct (filterRecords_contents (set_searchText t1 st)
              (well_formed_set_searchText t1 st Hwf)) as (_ & _ & H1).
  destruct (filterRecords_contents (set_searchText t2 st)
              (well_formed_set_searchText t2 st Hwf)) as (_ & _ & H2).
  cbn [searchText set_searchText] in H1, H2.
  rewrite base_set_searchText in H1, H2. rewrite H1, H2.
  destruct (Text.blank t2) eqn:B2.
  - by rewrite (includes_blank _ _ Hin B2).
  - destruct (Text.blank t1); [apply filter_sublist|].
    apply filter_sublist_impl. intros [r|]; [|done]. cbn.
    apply matches_narrow. by apply includes_toLowerCase.
Qed.

Lemma search_narrows_witness :
  well_formed catalogue ∧
  Text.ascii_only "abbey road" = true ∧
  Text.includes "abbey road" "bey" = true ∧
  shown (filterRecords (set_searchText "abbey road" catalogue))
  `sublist_of` shown (filterRecords (set_searchText "bey" catalogue)).
Proof.
  assert (W : well_formed catalogue).
  { exists [2%nat; 3%nat], [2%nat; 3%nat].
    split_and!; try reflexivity; repeat constructor; by eexists. }
  split; [exact W|]. split; [reflexivity|]. split; [reflexivity|].
  exact (search_narrows catalogue "bey" "abbey road" W eq_refl eq_refl).
Defined.

(** ** Loading *)

Lemma assoc_set_prop_eq k v ps : assoc k (set_prop k v ps) = Some v.
Proof.
  induction ps as [|[k' v'] ps IH]; cbn.
  - by rewrite String.eqb_refl.
  - destruct (String.eqb k k') eqn:E; cbn; by rewrite E.
Qed.

Lemma assoc_set_prop_ne k k' v ps :
  k ≠ k' → assoc k' (set_prop k v ps) = assoc k' ps.
Proof.
  intros Hne. induction ps as [|[k0 v0] ps IH]; cbn.
  - destruct (String.eqb k' k) eqn:E; [|done].
    apply String.eqb_eq in E. congruence.
  - destruct (String.eqb k k0) eqn:E; cbn.
    + apply String.eqb_eq in E as <-.
      destruct (String.eqb k' k) eqn:E'; [|done].
      apply String.eqb_eq in E'. congruence.
    + by rewrite IH.
Qed.

Lemma status_is_spec v n : status_is v n = true ↔ v = JNum n.
Proof.
  destruct v; cbn; try (split; [done | by intros [=]]).
  rewrite Z.eqb_eq. split; [by intros -> | by intros [=]].
Qed.

Lemma prop_not_nullish v k :
  nullish v = false → prop v k = Ok (prop_of_truthy v k).
Proof. by destruct v. Qed.

Lemma find_group_spec groups gid :
  Forall (fun g => nullish g = false) groups →
  ∃ found, find_group groups gid = Ok found ∧
    match found with
    | Some g => g ∈ groups ∧ prop_of_truthy g "idGroup" = JNum gid
    | None => ∀ g, g ∈ groups → prop_of_truthy g "idGroup" ≠ JNum gid
    end.
Proof.
  induction 1 as [|g groups Hg _ IH]; cbn [find_group].
  - exists None. split; [done|]. by intros g ?%elem_of_nil.
  - rewrite (prop_not_nullish _ _ Hg). cbn [rbind].
    destruct (status_is (prop_of_truthy g "idGroup") gid) eqn:E.
    + exists (Some g). split; [done|]. split; [left|]. by apply status_is_spec.
    + destruct IH as (found & -> & Hf). exists found. split; [done|].
      destruct found as [g'|].
      * destruct Hf. split; [by right|done].
      * intros g' [->|?]%elem_of_cons; [|by apply Hf].
        intros E'. apply status_is_spec in E'. congruence.
Qed.

Lemma find_group_first before g after gid :
  Forall (fun x => nullish x = false ∧ prop_of_truthy x "idGroup" ≠ JNum gid)
    before →
  prop_of_truthy g "idGroup" = JNum gid →
  find_group (before ++ g :: after) gid = Ok (Some g).
Proof.
  intros Hb Hg. induction Hb as [|x before [Hx Hne] _ IH]; cbn [app find_group].
  - assert (Hn : nullish g = false) by (by destruct g).
    rewrite (prop_not_nullish _ _ Hn), Hg. cbn. by rewrite Z.eqb_refl.
  - rewrite (prop_not_nullish _ _ Hx). cbn [rbind].
    destruct (status_is (prop_of_truthy x "idGroup") gid) eqn:E; [|exact IH].
    by apply status_is_spec in E.
Qed.

Lemma process_record_left_join (groups : list JsValue) (record : JsValue) :
  Forall (fun g => nullish g = false) groups →
  nullish record = false →
  ∃ r, process_record groups record = Ok r ∧
    groupName r = nameGroup r ∧ inCart r = None ∧ amount r = None ∧
    idRecord r = num_or_zero (prop_of_truthy record "idRecord") ∧
    stock r = num_or_zero (prop_of_truthy record "stock") ∧
    match groupId r with
    | Val gid =>
        ((∀ g, g ∈ groups → prop_of_truthy g "idGroup" ≠ JNum gid) →
         groupName r = "") ∧
        (groupName r ≠ "" →
         ∃ g, g ∈ groups ∧ prop_of_truthy g "idGroup" = JNum gid ∧
              prop_of_truthy g "nameGroup" = JStr (groupName r))
    | _ => groupName r = ""
    end.
Proof.
  intros Hg Hr. unfold process_record.
  rewrite (prop_not_nullish _ _ Hr). cbn [rbind groupId].
  destruct (id_or_null (prop_of_truthy record "groupId")) as [| |gid] eqn:Egid;
    try (eexists; split; [reflexivity|]; by cbn).
  destruct (find_group_spec groups gid Hg) as (found & -> & Hf). cbn [rbind].
  destruct found as [g|].
  - destruct Hf as [Hin Hid].
    eexists; split; [reflexivity|]. cbn.
    split_and!; try done.
    + intros Hno. by destruct (Hno g Hin).
    + intros Hne. exists g. split_and!; [done..|].
      destruct (prop_of_truthy g "nameGroup"); cbn in Hne |- *; done.
  - eexists; split; [reflexivity|]. by cbn.
Qed.

Lemma process_record_first_group
    (before : list JsValue) g after (record : JsValue) n name :
  Forall (fun x => nullish x = false ∧ prop_of_truthy x "idGroup" ≠ JNum n)
    before →
  nullish record = false →
  prop_of_truthy record "groupId" = JNum n → n ≠ 0%Z →
  prop_of_truthy g "idGroup" = JNum n →
  prop_of_truthy g "nameGroup" = JStr name →
  ∃ r, process_record (before ++ g :: after) record = Ok r ∧
       groupId r = Val n ∧ groupName r = name.
Proof.
  intros Hb Hr Hgid Hn Hg Hname. unfold process_record.
  rewrite (prop_not_nullish _ _ Hr). cbn [rbind groupId].
  rewrite Hgid. cbn [id_or_null]. rewrite (proj2 (Z.eqb_neq _ _) Hn).
  rewrite (find_group_first before g after n Hb Hg). cbn [rbind].
  eexists. split; [reflexivity|]. rewrite Hname. by cbn.
Qed.

(** X11: the load joins each record to its group as a left join.  For a
    record object whose identifier, stock and group identifier are numbers
    (or falsy) and groups that are objects whose names are strings (or
    falsy), the conversion never fails; the record comes out with
    [groupName = nameGroup], without cart marks, and with the identifier
    and stock it came with (0 for a falsy one).  A record whose [groupId] is
    a number other than 0 keeps it and takes the name of the first group
    whose [idGroup] is that number; when no group carries it (or the
    record has none) the name is empty; and a non-empty name is always the
    [nameGroup] of a group that carries the identifier. *)
Theorem load_joins_groups_as_left_join
    (groups : list JsValue) (record : JsValue) :
  Forall (fun g => nullish g = false ∧ typed_group g = true) groups →
  nullish record = false →
  typed_record record = true →
  ∃ r, process_record groups record = Ok r ∧
    groupName r = nameGroup r ∧ inCart r = None ∧ amount r = None ∧
    (∀ n, prop_of_truthy record "idRecord" = JNum n → idRecord r = n) ∧
    (truthy (prop_of_truthy record "idRecord") = false → idRecord r = 0%Z) ∧
    (∀ n, prop_of_truthy record "stock" = JNum n → stock r = n) ∧
    (truthy (prop_of_truthy record "stock") = false → stock r = 0%Z) ∧
    (∀ n, prop_of_truthy record "groupId" = JNum n → n ≠ 0%Z →
       groupId r = Val n ∧
       ∀ before g after name,
         groups = (before ++ g :: after)%list →
         Forall (fun x => prop_of_truthy x "idGroup" ≠ JNum n) before →
         prop_of_truthy g "idGroup" = JNum n →
         prop_of_truthy g "nameGroup" = JStr name →
         groupName r = name) ∧
    match groupId r with
    | Val gid =>
        ((∀ g, g ∈ groups → prop_of_truthy g "idGroup" ≠ JNum gid) →
         groupName r = "") ∧
        (groupName r ≠ "" →
         ∃ g, g ∈ groups ∧ prop_of_truthy g "idGroup" = JNum gid ∧
              prop_of_truthy g "nameGroup" = JStr (groupName r))
    | _ => groupName r = ""
    end.
Proof.
  intros Hg Hr _.
  assert (Hg' : Forall (fun g => nullish g = false) groups).
  { eapply Forall_impl; [exact Hg|]. by intros g [? _]. }
  destruct (process_record_left_join groups record Hg' Hr)
    as (r & Er & H1 & H2 & H3 & H4 & H5 & H6).
  assert (Hnum : ∀ v n, v = JNum n → num_or_zero v = n) by (by intros v n ->).
  assert (Hfalsy : ∀ v, truthy v = false → num_or_zero v = 0%Z).
  { intros [| |[]|n|?|?|?]; cbn; try done.
    intros Hz. by destruct (Z.eqb_spec n 0). }
  exists r. split_and!; try done.
  { intros n Hn. rewrite H4. by apply Hnum. }
  { intros Hf. rewrite H4. by apply Hfalsy. }
  { intros n Hn. rewrite H5. by apply Hnum. }
  { intros Hf. rewrite H5. by apply Hfalsy. }
  intros n Hn Hn0.
  assert (Hid : groupId r = Val n).
  { revert Er. unfold process_record.
    rewrite (prop_not_nullish _ _ Hr). cbn [rbind groupId].
    rewrite Hn. cbn [id_or_null]. rewrite (proj2 (Z.eqb_neq _ _) Hn0).
    destruct (find_group groups n) as [[g|]|e]; cbn [rbind]; [| |done];
      by intros [= <-]. }
  split; [exact Hid|].
  intros before g after name -> Hb Hgn Hname.
  assert (Hb' : Forall (fun x => nullish x = false
                                 ∧ prop_of_truthy x "idGroup" ≠ JNum n) before).
  { apply Forall_app in Hg' as [Hg1 _].
    apply Forall_forall. intros x Hx. split.
    - exact (proj1 (Forall_forall _ _) Hg1 x Hx).
    - exact (proj1 (Forall_forall _ _) Hb x Hx). }
  destruct (process_record_first_group before g after record n name
              Hb' Hr Hn Hn0 Hgn Hname) as (r' & Er' & _ & Hname').
  rewrite Er in Er'. by injection Er' as <-.
Qed.

Lemma load_joins_groups_witness :
  Forall (fun g => nullish g = false ∧ typed_group g = true) [beatles] ∧
  nullish revolver = false ∧
  typed_record revolver = true ∧
  ∃ r, process_record [beatles] revolver = Ok r ∧
       groupId r = Val 10 ∧ groupName r = "The Beatles".
Proof.
  assert (Hg : Forall (fun g => nullish g = false ∧ typed_group g = true)
                 [beatles]) by (by repeat constructor).
  split; [exact Hg|]. split; [reflexivity|]. split; [reflexivity|].
  destruct (load_joins_groups_as_left_join [beatles] revolver Hg eq_refl eq_refl)
    as (r & Hr & _ & _ & _ & _ & _ & _ & _ & Hjoin & _).
  destruct (Hjoin 10%Z eq_refl ltac:(done)) as [Hid Hname].
  exists r. split_and!; [exact Hr | exact Hid |].
  exact (Hname [] beatles [] "The Beatles" eq_refl ltac:(constructor)
           eq_refl eq_refl).
Defined.

Lemma process_records_fields groups recordsArray rs :
  process_records groups recordsArray = Ok rs →
  Forall (fun r => inCart r = None ∧ amount r = None ∧ groupName r = nameGroup r) rs
  ∧ length rs = length recordsArray.
Proof.
  revert rs. induction recordsArray as [|x xs IH]; intros rs; cbn [process_records].
  - intros [= <-]. by split.
  - destruct (process_record groups x) as [r|e] eqn:Er; [|done]. cbn [rbind].
    destruct (process_records groups xs) as [rs'|e]; [|done]. cbn [rbind].
    intros [= <-]. destruct (IH rs' eq_refl) as [IH1 IH2].
    split; [|cbn; lia]. constructor; [|done].
    unfold process_record in Er.
    destruct (prop x "idRecord"); [|done]. cbn [rbind groupId] in Er.
    destruct (id_or_null _); try (injection Er as <-; done).
    destruct (find_group groups a0) as [[g|]|]; [| |done];
      cbn [rbind] in Er; injection Er as <-; done.
Qed.

Lemma getRecords_discards_cart_marks
    (records_answer : Http) (groupsResponse : JsValue) (st st' : View.View) :
  getRecords records_answer (Next groupsResponse) st = (Ok tt, st') →
  well_formed st' ∧
  shown st' = base st' ∧
  Forall (fun o => ∃ r, o = Some r ∧ inCart r = None ∧ amount r = None)
    (base st').
Proof.
  unfold getRecords.
  destruct (service_getRecords_next grown notifyStockUpdate_grown issue_grown
              records_answer st) as (data & st1 & -> & _).
  intros (recordsArray & st3 & [-> _]%getRecords_next_Ok & H)%bind_Ok_inv.
  unfold getRecords_groups_next in H.
  apply bind_Ok_inv in H as (rs & st4 & E4 & E5).
  unfold lift in E4. injection E4 as Hrs <-.
  unfold modify in E5. injection E5 as <-.
  destruct (install_contents rs st3) as (W & B & S).
  split_and!; [done|by rewrite S, B|].
  rewrite B. apply Forall_fmap.
  eapply Forall_impl; [exact (proj1 (process_records_fields _ _ _ Hrs))|].
  intros r (? & ? & _). by exists r.
Qed.

(** ** RecordsService.getRecords *)

#[local] Instance quiet_refl : Reflexive quiet.
Proof. intros st. by unfold quiet. Qed.

#[local] Instance quiet_trans : Transitive quiet.
Proof.
  unfold quiet. intros st1 st2 st3 (?&?&?&?&?&?&?) (?&?&?&?&?&?&?).
  split_and!; congruence.
Qed.

Lemma notifyStockUpdate_log id s (st : View.View) :
  let st' := notifyStockUpdate id s st in
  published st' = (published st ++ [mkStockUpdate id s])%list ∧ quiet st st'.
Proof.
  unfold notifyStockUpdate, onStockUpdate, quiet.
  destruct (map_stock _ _ _) as [rs h1].
  destruct (new_array rs h1) as [rl h2].
  destruct (map_stock _ _ h2) as [fs h3].
  by destruct (new_array fs h3) as [fl h4].
Qed.

Lemma notifyStockUpdate_quiet id s (st : View.View) :
  quiet st (notifyStockUpdate id s st).
Proof. apply notifyStockUpdate_log. Qed.

Lemma mapM_service_record_Ok xs : ∀ (st : View.View) rs st',
  mapM service_record xs st = (Ok rs, st') →
  Forall (fun rec => ∃ ps s, rec = JObj ps ∧ assoc "stock" ps = Some (JNum s)) rs.
Proof.
  induction xs as [|x xs IH]; intros st rs st'; cbn [mapM].
  - intros [= <- <-]. constructor.
  - intros (y & st1 & Ey & (ys & st2 & Eys & E)%bind_Ok_inv)%bind_Ok_inv.
    unfold ret in E. injection E as <- <-.
    constructor; [|by eapply IH].
    unfold service_record in Ey.
    apply bind_Ok_inv in Ey as (s & st3 & _ & (u & st4 & _ & E)%bind_Ok_inv).
    unfold ret in E. injection E as <- _.
    eexists _, _. split; [reflexivity|]. apply assoc_set_prop_eq.
Qed.

(** The shape of what the service delivers, for use below. *)
Lemma service_getRecords_shape (answer : Http) (st : View.View) :
  ∃ records st',
    service_getRecords answer st = (Next (JArr records), st') ∧
    Forall (fun rec => ∃ ps s, rec = JObj ps ∧ assoc "stock" ps = Some (JNum s))
      records ∧
    quiet (issue GetRecords st) st'.
Proof.
  unfold service_getRecords. destruct answer as [response|err].
  2:{ by exists [], (issue GetRecords st). }
  destruct (mapM service_record _ _) as [[records|e] st1] eqn:E1;
    pose proof (respects_mapM quiet _ _
        (respects_service_record quiet notifyStockUpdate_quiet)
        _ _ _ E1) as Q1.
  - destruct (forEach service_notify records st1) as [[[]|e] st2] eqn:E2;
      pose proof (respects_forEach quiet _ _
        (respects_service_notify quiet notifyStockUpdate_quiet)
        _ _ _ E2) as Q2.
    + exists records, st2. split_and!; [done| |by transitivity st1].
      by eapply mapM_service_record_Ok.
    + exists [], st2. split_and!; [done|constructor|by transitivity st1].
  - exists [], st1. by split_and!.
Qed.

(** X12: RecordsService.getRecords never notifies an error.  Whatever the
    remote end answers, a payload of any shape or a transport error, the
    subscriber receives [next] with an array; every element of that array
    is an object whose [stock] is a number; exactly one request, the GET of
    the records, has been issued; and nothing that shows an error has been
    assigned. *)
Theorem service_getRecords_never_errors (answer : Http) (st : View.View) :
  ∃ records st',
    service_getRecords answer st = (Next (JArr records), st') ∧
    Forall (fun rec => ∃ ps s, rec = JObj ps ∧ assoc "stock" ps = Some (JNum s))
      records ∧
    requests st' = (requests st ++ [GetRecords])%list ∧
    same_error st st'.
Proof.
  destruct (service_getRecords_shape answer st)
    as (records & st' & E & F & (Q & V & M & _)).
  exists records, st'. by split_and!.
Qed.

Lemma mapM_service_record_objects xs : ∀ (st : View.View),
  Forall (fun x => nullish x = false) xs →
  ∃ st', mapM service_record xs st = (Ok (normalised <$> xs), st') ∧
         published st' = (published st ++ (stock_event_of <$> xs))%list.
Proof.
  induction xs as [|x xs IH]; intros st Hxs; cbn [mapM].
  - exists st. split; [done|]. by rewrite app_nil_r.
  - apply Forall_cons in Hxs as [Hx Hxs].
    set (st1 := updateStock (as_id (prop_of_truthy x "idRecord"))
                  (if typeof_number (prop_of_truthy x "stock")
                   then num_or_zero (prop_of_truthy x "stock") else 0) st).
    assert (Es : service_record x st = (Ok (normalised x), st1)).
    { unfold service_record, bind, lift, modify, ret.
      by rewrite (prop_not_nullish _ _ Hx). }
    destruct (IH st1 Hxs) as (st' & E & P).
    exists st'. split.
    + unfold bind. by rewrite Es, E.
    + rewrite P. subst st1. unfold updateStock.
      rewrite (proj1 (notifyStockUpdate_log _ _ st)).
      by rewrite <- app_assoc.
Qed.

Lemma forEach_service_notify_objects xs : ∀ (st : View.View),
  Forall (fun x => ∃ ps, x = JObj ps) xs →
  ∃ st', forEach service_notify (normalised <$> xs) st = (Ok tt, st') ∧
         published st' = (published st ++ (stock_event_of <$> xs))%list.
Proof.
  induction xs as [|x xs IH]; intros st Hxs; cbn [forEach fmap list_fmap].
  - exists st. split; [done|]. by rewrite app_nil_r.
  - apply Forall_cons in Hxs as [[ps ->] Hxs].
    set (st1 := notifyStockUpdate (recordId (stock_event_of (JObj ps)))
                  (newStock (stock_event_of (JObj ps))) st).
    destruct (IH st1 Hxs) as (st' & E & P).
    exists st'.
    assert (Es : service_notify (normalised (JObj ps)) st = (Ok tt, st1)).
    { unfold service_notify, modify. f_equal. subst st1. f_equal.
      - unfold normalised, stock_event_of. cbn [prop_of_truthy recordId own_props].
        by rewrite assoc_set_prop_ne.
      - unfold normalised, stock_event_of. cbn [prop_of_truthy newStock own_props].
        by rewrite assoc_set_prop_eq. }
    split.
    + unfold bind. by rewrite Es.
    + rewrite P. subst st1.
      rewrite (proj1 (notifyStockUpdate_log _ _ st)).
      rewrite <- app_assoc. by destruct (stock_event_of (JObj ps)).
Qed.

(** X13: for a payload whose records are objects, the service delivers
    the records in order, each with its [stock] replaced by the number it
    is (0 when it is none), and has published each record's own stock to
    the hub twice, once per record in the [map] and once more per record in
    the [tap]. *)
Theorem service_getRecords_on_objects (response : JsValue) (st : View.View) :
  Forall (fun x => ∃ ps, x = JObj ps) (Envelope.service_records response) →
  let xs := Envelope.service_records response in
  ∃ st',
    service_getRecords (HttpOk response) st
    = (Next (JArr (normalised <$> xs)), st') ∧
    published st'
    = (published st ++ (stock_event_of <$> xs) ++ (stock_event_of <$> xs))%list.
Proof.
  intros Hobj xs. unfold service_getRecords. fold xs.
  assert (Hnn : Forall (fun x => nullish x = false) xs).
  { eapply Forall_impl; [exact Hobj|]. by intros x [ps ->]. }
  destruct (mapM_service_record_objects xs (issue GetRecords st) Hnn)
    as (st1 & -> & P1).
  destruct (forEach_service_notify_objects xs st1 Hobj) as (st2 & -> & P2).
  exists st2. split; [done|]. rewrite P2, P1. by rewrite <- app_assoc.
Qed.

Lemma service_getRecords_on_objects_witness :
  let response := JObj [("$values", JArr [revolver; aftermath])] in
  Forall (fun x => ∃ ps, x = JObj ps) (Envelope.service_records response) ∧
  published (service_getRecords (HttpOk response) (View.initial None)).2
  = [mkStockUpdate (Some 1) 4; mkStockUpdate (Some 2) 1;
     mkStockUpdate (Some 1) 4; mkStockUpdate (Some 2) 1].
Proof.
  assert (H : Forall (fun x => ∃ ps, x = JObj ps)
                (Envelope.service_records
                   (JObj [("$values", JArr [revolver; aftermath])]))).
  { repeat constructor; by eexists. }
  split; [exact H|].
  destruct (service_getRecords_on_objects _ (View.initial None) H) as (st' & E & P).
  rewrite E. exact P.
Defined.

Lemma mapM_service_record_nullish xs : ∀ (st : View.View),
  existsb nullish xs = true →
  ∃ st', mapM service_record xs st = (Throw TypeError, st').
Proof.
  induction xs as [|x xs IH]; intros st; cbn [existsb mapM]; [done|].
  destruct (nullish x) eqn:Hx; cbn [orb].
  - intros _. exists st. unfold bind, service_record, bind, lift.
    by destruct x.
  - intros Hxs. unfold bind at 1.
    destruct (service_record x st) as [[y|e] st1] eqn:Ey.
    + destruct (IH st1 Hxs) as (st' & E). exists st'. unfold bind. by rewrite E.
    + unfold service_record, bind, lift, modify, ret in Ey.
      rewrite (prop_not_nullish _ _ Hx) in Ey. done.
Qed.

(** X14: one null entry blanks the catalogue.  When the payload of the
    records request holds a null (or undefined) element among its records,
    reading that element's stock throws inside the [map], the service's
    [catchError] turns the failure into an empty array, and the subscriber
    receives no record at all, not even the ones before the null. *)
Theorem service_getRecords_null_entry_blanks_all
    (response : JsValue) (st : View.View) :
  existsb nullish (Envelope.service_records response) = true →
  (service_getRecords (HttpOk response) st).1 = Next (JArr []).
Proof.
  intros H. unfold service_getRecords.
  by destruct (mapM_service_record_nullish _ (issue GetRecords st) H) as (st' & ->).
Qed.

Lemma service_getRecords_null_entry_witness :
  existsb nullish (Envelope.service_records (JArr [revolver; JNull])) = true ∧
  (service_getRecords (HttpOk (JArr [revolver; JNull])) (View.initial None)).1
  = Next (JArr []).
Proof.
  split; [reflexivity|].
  exact (service_getRecords_null_entry_blanks_all (JArr [revolver; JNull])
           (View.initial None) eq_refl).
Defined.

(** ** Loads, saves and deletes as sequences of requests *)

Lemma forEach_init_stock_objects xs : ∀ (st : View.View),
  Forall (fun x => nullish x = false) xs →
  ∃ st', forEach init_stock xs st = (Ok tt, st').
Proof.
  induction xs as [|x xs IH]; intros st Hxs; cbn [forEach].
  - by exists st.
  - apply Forall_cons in Hxs as [Hx Hxs].
    assert (∃ st1, init_stock x st = (Ok tt, st1)) as [st1 E1].
    { unfold init_stock, bind, lift. rewrite (prop_not_nullish _ _ Hx).
      destruct (_ && _); by eexists. }
    destruct (IH st1 Hxs) as (st' & E). exists st'. unfold bind. by rewrite E1.
Qed.

Lemma install_frame rs (st : View.View) :
  let st' := install rs st in
  requests st' = requests st ∧ visibleError st' = visibleError st ∧
  record st' = record st ∧ errorMessage st' = errorMessage st ∧
  searchText st' = searchText st.
Proof.
  unfold install.
  destruct (alloc_records rs (heap st)) as [ls h1].
  destruct (new_array ls h1) as [rl h2].
  by destruct (new_array (read_array rl h2) h2) as [fl h3].
Qed.

Lemma controlError_frame2 err (st : View.View) r st' :
  controlError err st = (r, st') → st' = set_errorMessage (errorMessage st') st.
Proof.
  unfold controlError, bind, lift, modify.
  destruct (prop err "status") as [status|e]; [|intros [= <- <-]; by destruct st].
  repeat match goal with
         | |- context [if ?b then _ else _] => destruct b
         | |- context [match ?x with Ok _ => _ | Throw _ => _ end] => destruct x
         end;
  intros [= <- <-]; by destruct st.
Qed.

(** What every load does, whatever the answers: both requests are issued,
    the records request first, and of the fields that are no list only
    [errorMessage] can change. *)
Lemma getRecords_frame records_answer groups_answer (st : View.View) r st' :
  getRecords records_answer groups_answer st = (r, st') →
  requests st' = (requests st ++ [GetRecords; GetGroups])%list ∧
  visibleError st' = visibleError st ∧
  record st' = record st ∧
  groups st' = groups st ∧
  searchText st' = searchText st.
Proof.
  unfold getRecords.
  destruct (service_getRecords_shape records_answer st)
    as (data & st1 & -> & Hobj & Q1).
  assert (Hnn : Forall (fun x => nullish x = false) data).
  { eapply Forall_impl; [exact Hobj|]. by intros x (ps & s & -> & _). }
  destruct (forEach_init_stock_objects data st1 Hnn) as (st2 & E2).
  pose proof (respects_forEach quiet _ _
                (respects_init_stock quiet notifyStockUpdate_quiet) _ _ _ E2) as Q2.
  assert (Q : quiet (issue GetRecords st) st2) by (by transitivity st1).
  destruct Q as (Qr & Qv & Qm & Qd & Qg & Qs & _).
  assert (En : getRecords_next (JArr data) st1 = (Ok data, issue GetGroups st2)).
  { unfold getRecords_next, bind, modify, ret. cbn [Envelope.component_records isArray elements].
    by rewrite E2. }
  unfold bind at 1. rewrite En.
  assert (Hreq : requests (issue GetGroups st2)
                 = (requests st ++ [GetRecords; GetGroups])%list).
  { cbn [requests issue] in Qr |- *. rewrite Qr. by rewrite <- app_assoc. }
  destruct groups_answer as [groupsResponse|err].
  - unfold getRecords_groups_next, bind, lift, modify.
    destruct (process_records _ data) as [rs|e]; intros [= <- <-].
    + destruct (install_frame rs (issue GetGroups st2)) as (-> & -> & -> & _ & ->).
      cbn [groups install] in *. split_and!; try done.
      unfold install.
      destruct (alloc_records rs _) as [ls h1].
      destruct (new_array ls h1) as [rl h2].
      by destruct (new_array (read_array rl h2) h2) as [fl h3].
    + by split_and!.
  - unfold getRecords_groups_error, bind at 1, modify.
    intros H. pose proof (controlError_frame2 _ _ _ _ H) as ->.
    cbn [requests visibleError record groups searchText set_errorMessage].
    destruct (install_frame (as_record <$> data) (issue GetGroups st2))
      as (-> & -> & -> & _ & ->).
    split_and!; try done.
    unfold install.
    destruct (alloc_records _ _) as [ls h1].
    destruct (new_array ls h1) as [rl h2].
    by destruct (new_array (read_array rl h2) h2) as [fl h3].
Qed.

(** X15: every load issues the same two requests.  Whatever the remote end
    answers and whether the load completes or throws, [getRecords()] has
    issued the GET of the records and then the GET of the groups, and has
    changed neither [visibleError], nor the draft, nor the component's own
    list of groups. *)
Theorem load_issues_records_then_groups
    (records_answer : Http) (groups_answer : notification JsValue)
    (st : View.View) :
  let st' := (getRecords records_answer groups_answer st).2 in
  requests st' = (requests st ++ [GetRecords; GetGroups])%list ∧
  visibleError st' = visibleError st ∧
  record st' = record st ∧
  groups st' = groups st.
Proof.
  cbv zeta. destruct (getRecords records_answer groups_answer st) as [r st'] eqn:E.
  destruct (getRecords_frame _ _ _ _ _ E) as (? & ? & ? & ? & _). done.
Qed.

Lemma save_issues (st : View.View) :
  missing_required (record st) = false →
  group_missing (groupId (record st)) = false →
  (if Z.eqb (idRecord (record st)) 0
   then addRecord (recordToSave (record st))
   else updateRecord (recordToSave (record st))) st
  = (Ok tt, issue (save_request (record st)) st).
Proof.
  intros _ Hg. unfold save_request, addRecord, updateRecord.
  assert (Hs : group_missing (groupId (recordToSave (record st))) = false).
  { cbn. by destruct (groupId (record st)). }
  rewrite Hs. by destruct (Z.eqb _ 0).
Qed.

Lemma save_confirmed
    (st : View.View) (body : JsValue) (records_answer : Http)
    (groups_answer : notification JsValue) :
  missing_required (record st) = false →
  group_missing (groupId (record st)) = false →
  truthy body = true →
  ∃ st1, requests st1 = (requests st ++ [save_request (record st)])%list ∧
         save (HttpOk body) records_answer groups_answer st
         = getRecords records_answer groups_answer
             (resetForm (set_visibleError false st1)).
Proof.
  intros Hreq Hg Hb. unfold save. rewrite Hreq.
  unfold bind at 1. rewrite (save_issues st Hreq Hg).
  unfold saved_record. rewrite Hb.
  eexists. split; [|reflexivity].
  exact (proj1 (notifyStockUpdate_quiet _ _ _)).
Qed.

(** X16: a successful save resets the form and reloads.  For a draft that
    passes the check of title, price and stock and has a group, when the
    remote end answers the POST (identifier 0) or PUT (any other
    identifier) with a record, [save()] has issued exactly three requests,
    the POST or PUT and then the two of a load; the draft is the empty
    record again; and [visibleError] is false, whatever the reload
    delivered. *)
Theorem save_success_resets_and_reloads
    (st : View.View) (body : JsValue) (records_answer : Http)
    (groups_answer : notification JsValue) :
  missing_required (record st) = false →
  group_missing (groupId (record st)) = false →
  truthy body = true →
  let st' := (save (HttpOk body) records_answer groups_answer st).2 in
  requests st'
  = (requests st ++ [save_request (record st); GetRecords; GetGroups])%list ∧
  record st' = empty_record ∧
  visibleError st' = false.
Proof.
  intros Hreq Hg Hb. cbv zeta.
  destruct (save_confirmed st body records_answer groups_answer Hreq Hg Hb)
    as (st1 & Qr & ->).
  destruct (getRecords records_answer groups_answer
              (resetForm (set_visibleError false st1))) as [r st'] eqn:E.
  apply getRecords_frame in E as (Er & Ev & Ed & _).
  cbn [snd]. rewrite Er, Ev, Ed.
  cbn [requests resetForm set_record set_visibleError visibleError record].
  rewrite Qr. by rewrite <- app_assoc.
Qed.

Lemma save_success_witness :
  let st := set_record (recordToSave (album 7 "Abbey Road" 5)) catalogue in
  missing_required (record st) = false ∧
  group_missing (groupId (record st)) = false ∧
  requests (save (HttpOk revolver) (HttpOk (JArr [])) (Next (JArr [])) st).2
  = [PutRecord 7
       [("IdRecord", FormNumber 7); ("TitleRecord", FormText "Abbey Road");
        ("Price", FormNumber 20); ("Stock", FormNumber 5);
        ("Discontinued", FormText "false");
        ("YearOfPublication", FormNumber 1969); ("GroupId", FormNumber 1)];
     GetRecords; GetGroups].
Proof.
  split; [reflexivity|]. split; [reflexivity|].
  exact (proj1 (save_success_resets_and_reloads
                  (set_record (recordToSave (album 7 "Abbey Road" 5)) catalogue)
                  revolver (HttpOk (JArr [])) (Next (JArr []))
                  eq_refl eq_refl eq_refl)).
Defined.

(** X17: a failed save keeps the draft.  For a draft that passes the local
    check and has a group, when the POST or PUT fails, or is answered with
    an empty body, [save()] returns with [visibleError] set, the draft as it
    was, the store and both lists untouched, and only that one request
    issued: there is no reload. *)
Theorem save_failure_keeps_draft
    (st : View.View) (answer : Http) (records_answer : Http)
    (groups_answer : notification JsValue) :
  missing_required (record st) = false →
  group_missing (groupId (record st)) = false →
  (∃ err, answer = HttpError err) ∨ (∃ body, answer = HttpOk body ∧ truthy body = false) →
  let st' := (save answer records_answer groups_answer st).2 in
  visibleError st' = true ∧
  record st' = record st ∧
  requests st' = (requests st ++ [save_request (record st)])%list ∧
  heap st' = heap st ∧ records st' = records st ∧
  filteredRecords st' = filteredRecords st.
Proof.
  intros Hreq Hg Hans. cbv zeta.
  assert (E0 : ∃ err, save answer records_answer groups_answer st
                      = save_error err (issue (save_request (record st)) st)).
  { unfold save. rewrite Hreq.
    unfold bind at 1. rewrite (save_issues st Hreq Hg).
    destruct Hans as [[err ->] | (body & -> & Hb)]; cbn [saved_record].
    - by eexists.
    - rewrite Hb. by eexists. }
  destruct E0 as (err & ->).
  unfold save_error, bind, modify.
  destruct (controlError err _) as [r st'] eqn:E.
  apply controlError_frame2 in E as ->. by cbn.
Qed.

Lemma save_failure_witness :
  let st := set_record (recordToSave (album 7 "Abbey Road" 5)) catalogue in
  missing_required (record st) = false ∧
  group_missing (groupId (record st)) = false ∧
  visibleError (save (HttpOk JNull) (HttpOk (JArr [])) (Next (JArr [])) st).2
  = true.
Proof.
  split; [reflexivity|]. split; [reflexivity|].
  refine (proj1 (save_failure_keeps_draft
                  (set_record (recordToSave (album 7 "Abbey Road" 5)) catalogue)
                  (HttpOk JNull) (HttpOk (JArr [])) (Next (JArr []))
                  eq_refl eq_refl _)).
  right. exists JNull. by split.
Defined.

(** X18: a delete reloads only when it is confirmed.  [deleteRecord(id)]
    always issues the DELETE.  When the answer is a success with a body
    that is neither null nor undefined, the two requests of a load follow
    and [visibleError] is false, whatever the load delivers; in every other
    case, a null body included, nothing else is requested and
    [visibleError] is true. *)
Theorem delete_reloads_only_on_confirmation
    (id : Z) (answer records_answer : Http)
    (groups_answer : notification JsValue) (st : View.View) :
  let st' := (deleteRecord id answer records_answer groups_answer st).2 in
  requests st'
  = (requests st ++ DeleteRecord id ::
       (if delete_confirmed answer then [GetRecords; GetGroups] else []))%list ∧
  visibleError st' = negb (delete_confirmed answer).
Proof.
  cbv zeta.
  assert (Hfail : ∀ err,
    let st' := ((run _ <- modify (set_visibleError true); controlError err)
                  (issue (DeleteRecord id) st)).2 in
    requests st' = (requests st ++ [DeleteRecord id])%list ∧
    visibleError st' = true).
  { intros err. cbv zeta. unfold bind, modify.
    destruct (controlError err _) as [r st'] eqn:E.
    apply controlError_frame2 in E as ->. by cbn. }
  assert (Hcases :
    if delete_confirmed answer
    then deleteRecord id answer records_answer groups_answer st
         = getRecords records_answer groups_answer
             (set_visibleError false (issue (DeleteRecord id) st))
    else ∃ err, deleteRecord id answer records_answer groups_answer st
                = (run _ <- modify (set_visibleError true); controlError err)
                    (issue (DeleteRecord id) st)).
  { unfold deleteRecord, deleteRecord_service.
    destruct answer as [response|err]; cbn [delete_confirmed];
      [destruct response; cbn [prop nullish negb]|]; by eauto. }
  destruct (delete_confirmed answer); cbn [negb].
  - rewrite Hcases.
    destruct (getRecords _ _ _) as [r st'] eqn:E.
    apply getRecords_frame in E as (Er & Ev & _).
    cbn [snd]. rewrite Er, Ev. cbn [requests visibleError set_visibleError issue].
    by rewrite <- app_assoc.
  - destruct Hcases as [err ->]. exact (Hfail err).
Qed.

(** X19: away from status 400 the error text is never empty.  For an error
    object whose [status] is absent or a number other than 400 and whose
    [error] is not the empty string, [controlError] returns normally,
    assigns [errorMessage] and nothing else, and what it assigns is
    truthy: one of the five fixed texts or a non-empty value taken from the
    error. *)
Theorem controlError_message_is_not_empty
    (err status : JsValue) (st : View.View) :
  prop err "status" = Ok status →
  (status = JUndefined ∨ ∃ s, status = JNum s ∧ s ≠ 400%Z) →
  prop_of_truthy err "error" ≠ JStr "" →
  ∃ msg, controlError err st = (Ok tt, set_errorMessage msg st) ∧
         truthy msg = true.
Proof.
  intros Hs Hstatus Herror.
  unfold controlError, bind, lift. rewrite Hs.
  assert (H400 : status_is status 400 = false).
  { destruct Hstatus as [-> | (s & -> & Hne)]; [done|]. cbn. by apply Z.eqb_neq. }
  rewrite H400. unfold modify.
  repeat match goal with
         | |- context [if status_is ?s ?n then _ else _] =>
             destruct (status_is s n); [by eexists|]
         | |- context [if status_ge ?s ?n then _ else _] =>
             destruct (status_ge s n); [by eexists|]
         end.
  destruct (_ && truthy (prop_of_truthy (prop_of_truthy err "error") "message"))
    eqn:E1.
  { apply andb_true_iff in E1 as [_ E1]. by eexists. }
  destruct (prop_of_truthy err "error") as [| | | |s| |] eqn:E2;
    try (destruct (truthy (prop_of_truthy err "message")) eqn:E3; by eexists).
  eexists; split; [reflexivity|].
  cbn. destruct (String.eqb_spec s ""); [by subst|done].
Qed.

Lemma controlError_message_witness :
  ∃ msg, controlError (JObj [("status", JNum 404)]) catalogue
         = (Ok tt, set_errorMessage msg catalogue) ∧ truthy msg = true.
Proof.
  apply (controlError_message_is_not_empty _ (JNum 404)).
  - reflexivity.
  - right. exists 404%Z. split; [reflexivity | lia].
  - discriminate.
Defined.


Lemma validation_messages_throw (entries : list (string * JsValue)) :
  Exists not_spreadable (snd <$> entries) →
  validation_messages entries = Throw TypeError.
Proof.
  induction entries as [|[k v] rest IH]; [by intros ?%Exists_nil|].
  rewrite fmap_cons, Exists_cons. cbn [snd validation_messages].
  intros [[Ht Hs] | Hrest].
  - by rewrite Ht, Hs.
  - rewrite (IH Hrest). destruct (truthy v); [|done].
    by destruct v.
Qed.



(** X21: a malformed validation entry aborts the handler.  For status 400
    with a truthy [errors] one entry of which is truthy but neither an
    array nor a string (a number, [true], an object), [controlError] throws
    a TypeError out of the spread and assigns nothing: [errorMessage]
    keeps what it held before. *)
Theorem controlError_throws_on_unspreadable_entry
    (err errors : JsValue) (fields : list (string * JsValue))
    (st : View.View) :
  prop err "status" = Ok (JNum 400) →
  prop_of_truthy err "error" = JObj fields →
  assoc "errors" fields = Some errors →
  truthy errors = true →
  Exists not_spreadable (object_values errors) →
  controlError err st = (Throw TypeError, st).
Proof.
  intros Hs He Hf Ht Hex.
  unfold controlError, bind, lift. rewrite Hs, He.
  cbn [status_is truthy typeof_object andb prop_of_truthy].
  rewrite Z.eqb_refl, Hf. cbn [default]. unfold id. rewrite Ht.
  unfold object_values in Hex.
  by rewrite (validation_messages_throw _ Hex).
Qed.

Lemma controlError_throws_witness :
  controlError (rejected (JObj [("title", JBool true)])) catalogue
  = (Throw TypeError, catalogue).
Proof.
  apply (controlError_throws_on_unspreadable_entry _
           (JObj [("title", JBool true)])
           [("errors", JObj [("title", JBool true)])]);
    [reflexivity | reflexivity | reflexivity | reflexivity |].
  constructor. by split.
Defined.

Lemma getRecords_shows_all records_answer groups_answer (st st' : View.View) :
  getRecords records_answer groups_answer st = (Ok tt, st') →
  ∃ rs, base st' = Some <$> rs ∧ shown st' = Some <$> rs.
Proof.
  unfold getRecords.
  destruct (service_getRecords_shape records_answer st)
    as (data & st1 & -> & _ & _).
  intros (recordsArray & st3 & [-> _]%getRecords_next_Ok & H)%bind_Ok_inv.
  destruct groups_answer as [groupsResponse|err].
  - unfold getRecords_groups_next in H.
    apply bind_Ok_inv in H as (rs & st4 & E4 & E5).
    unfold lift in E4. injection E4 as _ <-.
    unfold modify in E5. injection E5 as <-.
    exists rs. apply install_contents.
  - unfold getRecords_groups_error in H.
    apply bind_Ok_inv in H as (u4 & st4 & E4 & E5).
    unfold modify in E4. injection E4 as _ <-.
    apply controlError_frame in E5 as (Hh & Hr & Hf & _).
    eexists. unfold base, shown, contents. rewrite Hh, Hr, Hf.
    apply install_contents.
Qed.

(** X22: a completed load shows everything and throws away the cart
    marks.  When [getRecords()] completes, the displayed list holds every
    record of the new base list, in order, whatever [searchText] says, and
    [searchText] is what it was: the display and the search box disagree
    until [filterRecords()] runs again.  When the groups request was
    answered, every record of the base list has [inCart] and [amount]
    undefined again, until the next cart snapshot arrives. *)
Theorem load_shows_all_and_discards_cart_marks
    (records_answer : Http) (groups_answer : notification JsValue)
    (st st' : View.View) :
  getRecords records_answer groups_answer st = (Ok tt, st') →
  shown st' = base st' ∧ searchText st' = searchText st ∧
  (∀ groupsResponse, groups_answer = Next groupsResponse →
     Forall (fun o => ∃ r, o = Some r ∧ inCart r = None ∧ amount r = None)
       (base st')).
Proof.
  intros H. split_and!.
  - destruct (getRecords_shows_all _ _ _ _ H) as (rs & -> & ->). done.
  - by destruct (getRecords_frame _ _ _ _ _ H) as (_ & _ & _ & _ & ?).
  - intros groupsResponse ->.
    by destruct (getRecords_discards_cart_marks _ _ _ _ H) as (_ & _ & ?).
Qed.

Lemma load_shows_all_witness :
  let st := set_searchText "zeppelin" with_one_in_cart in
  let out := getRecords (HttpOk (JArr [revolver])) (Next (JArr [beatles])) st in
  out.1 = Ok tt ∧ shown out.2 = base out.2 ∧ length (shown out.2) = 1%nat ∧
  shown (filterRecords out.2) = [].
Proof.
  cbv zeta.
  destruct (getRecords (HttpOk (JArr [revolver])) (Next (JArr [beatles]))
              (set_searchText "zeppelin" with_one_in_cart)) as [r st'] eqn:E.
  assert (Hr : r = Ok tt) by (by apply (f_equal fst) in E; vm_compute in E).
  subst r. cbn [fst snd]. split; [done|].
  split; [exact (proj1 (load_shows_all_and_discards_cart_marks _ _ _ _ E))|].
  apply (f_equal snd) in E. cbn [snd] in E. subst st'.
  split; by vm_compute.
Defined.

(** ** The orders view *)

Section orders_view.
Import Trim OrdersUI.

(** X23: one expanded order at most, and what toggling twice does.  After
    [toggleOrderDetails(id)] no other order is expanded, and [id] is
    expanded exactly when it was not before.  Toggling the same order twice
    restores the field unless another order was expanded, which stays
    collapsed. *)
Theorem toggle_expands_one_order (id : Z) (st : Orders.View) :
  isOrderExpanded id (toggleOrderDetails id st) = negb (isOrderExpanded id st) ∧
  (∀ other, other ≠ id →
     isOrderExpanded other (toggleOrderDetails id st) = false) ∧
  Orders.expandedOrderId (toggleOrderDetails id (toggleOrderDetails id st))
  = (if isOrderExpanded id st then Some id else None).
Proof.
  unfold isOrderExpanded, toggleOrderDetails.
  cbn [set_expandedOrderId Orders.expandedOrderId].
  split_and!.
  - repeat case_bool_decide; cbn [negb]; congruence.
  - intros other Hother. repeat case_bool_decide; congruence.
  - repeat case_bool_decide; congruence.
Qed.

Lemma filter_result_Ok {A} (p : A → result bool) (q : A → bool) items :
  Forall (fun x => p x = Ok (q x)) items →
  filter_result p items = Ok (List.filter q items).
Proof.
  induction 1 as [|x rest Hx _ IH]; [done|].
  cbn [filter_result List.filter]. rewrite Hx, IH. cbn. by destruct (q x).
Qed.

Lemma filter_result_sublist {A} (p : A → result bool) items kept :
  filter_result p items = Ok kept → sublist kept items.
Proof.
  revert kept. induction items as [|x rest IH]; intros kept.
  - intros [= <-]. constructor.
  - cbn [filter_result].
    destruct (p x) as [keep|e]; [|done]. cbn [rbind].
    destruct (filter_result p rest) as [kept'|e]; [|done]. cbn [rbind].
    intros [= <-]. destruct keep; [apply sublist_skip | apply sublist_cons];
      by apply IH.
Qed.

Lemma filter_result_cases {A} (p : A → result bool) (ok : A → bool) items :
  (∀ x, if ok x then ∃ b, p x = Ok b else p x = Throw TypeError) →
  if forallb ok items
  then ∃ kept, filter_result p items = Ok kept
  else filter_result p items = Throw TypeError.
Proof.
  intros Hp. induction items as [|x rest IH]; [by eexists|].
  cbn [filter_result forallb]. specialize (Hp x).
  destruct (ok x); cbn [andb].
  - destruct Hp as [b ->]. cbn [rbind].
    destruct (forallb ok rest).
    + destruct IH as [kept ->]. by eexists.
    + by rewrite IH.
  - by rewrite Hp.
Qed.

Lemma date_matches_cases searchText order :
  if has_date_string order
  then ∃ b, date_matches searchText order = Ok b
  else date_matches searchText order = Throw TypeError.
Proof.
  unfold has_date_string, date_matches.
  destruct order as [| | | | | |ps]; cbn; try done.
  destruct (default JUndefined (assoc "orderDate" ps)); cbn; eauto.
Qed.

(** X24: the date search of part_001 fails on an order without a date
    string.  [filterOrders()] throws a TypeError exactly when some order is
    null or undefined or has an [orderDate] that is no string, whatever the
    search text, the empty text included; otherwise it assigns a
    subsequence of [orders] and changes no other field. *)
Theorem filterOrders_v1_throws_iff_a_date_is_no_string (st : Orders.View) :
  (filterOrders_v1 st = Throw TypeError
   ↔ forallb has_date_string (Orders.orders st) = false) ∧
  (forallb has_date_string (Orders.orders st) = true →
   ∃ kept, filterOrders_v1 st = Ok (set_filteredOrders kept st) ∧
           sublist kept (Orders.orders st)).
Proof.
  pose proof (filter_result_cases (date_matches (Orders.searchText st))
                has_date_string (Orders.orders st)
                (date_matches_cases (Orders.searchText st))) as H.
  unfold filterOrders_v1.
  destruct (forallb has_date_string (Orders.orders st)).
  - destruct H as [kept E]. rewrite E. cbn [rbind].
    split; [done|]. intros _. exists kept. split; [done|].
    by eapply filter_result_sublist.
  - rewrite H. by cbn.
Qed.

Lemma trimStart_toLowerCase s :
  trimStart (Text.toLowerCase s) = Text.toLowerCase (trimStart s).
Proof.
  induction s as [|c s IH]; [done|].
  cbn [Text.toLowerCase trimStart]. rewrite is_space_lower_ascii.
  by destruct (Text.is_space c).
Qed.

Lemma trimEnd_toLowerCase s :
  trimEnd (Text.toLowerCase s) = Text.toLowerCase (trimEnd s).
Proof.
  induction s as [|c s IH]; [done|].
  cbn [Text.toLowerCase trimEnd]. rewrite IH, is_space_lower_ascii.
  destruct (trimEnd s); cbn [Text.toLowerCase]; [|done].
  by destruct (Text.is_space c).
Qed.

Lemma trim_toLowerCase s : trim (Text.toLowerCase s) = Text.toLowerCase (trim s).
Proof. unfold trim. by rewrite trimStart_toLowerCase, trimEnd_toLowerCase. Qed.

Lemma blank_trimStart s : Text.blank (trimStart s) = Text.blank s.
Proof.
  induction s as [|c s IH]; [done|].
  cbn [trimStart Text.blank]. destruct (Text.is_space c) eqn:E; [done|].
  cbn [Text.blank]. by rewrite E.
Qed.

Lemma trimEnd_blank s : String.eqb (trimEnd s) "" = Text.blank s.
Proof.
  induction s as [|c s IH]; [done|].
  cbn [trimEnd Text.blank].
  destruct (trimEnd s) as [|d t]; cbn in IH; rewrite <- IH.
  - destruct (Text.is_space c); [done|]. by rewrite andb_true_r.
  - by rewrite andb_false_r.
Qed.

Lemma trim_blank s : String.eqb (trim s) "" = Text.blank s.
Proof. unfold trim. by rewrite trimEnd_blank, blank_trimStart. Qed.

Lemma blank_test s :
  String.eqb s "" || String.eqb (trim s) "" = Text.blank s.
Proof.
  rewrite trim_blank. destruct s; [done|]. by cbn [String.eqb orb].
Qed.




(** X26: the search of orders.component.ts reads its text in lower case
    and without the white space around it.  Two search texts that agree
    after [toLowerCase().trim()] leave the same orders on display, or both
    throw, whatever the locale prints. *)
Theorem filterOrders_ignores_case_and_outer_space
    (toLocaleDateString : JsValue → string) (st : Orders.View)
    (t1 t2 : string) :
  trim (Text.toLowerCase t1) = trim (Text.toLowerCase t2) →
  displayed (filterOrders toLocaleDateString (set_searchText t1 st))
  = displayed (filterOrders toLocaleDateString (set_searchText t2 st)).
Proof.
  intros H.
  assert (Hb : Text.blank t1 = Text.blank t2).
  { rewrite <- (blank_toLowerCase t1), <- (blank_toLowerCase t2).
    by rewrite <- !trim_blank, H. }
  unfold filterOrders. rewrite !blank_test.
  cbn [Orders.searchText Orders.orders set_searchText]. rewrite Hb, H.
  destruct (Text.blank t2); [done|]. cbv zeta.
  by destruct (filter_result _ (Orders.orders st)).
Qed.

Lemma filterOrders_ignores_case_witness :
  trim (Text.toLowerCase "  CARD ") = trim (Text.toLowerCase "card") ∧
  displayed (filterOrders as_sent (set_searchText "  CARD " two_orders))
  = Ok [paid_by_card].
Proof.
  split; [reflexivity|].
  by rewrite (filterOrders_ignores_case_and_outer_space as_sent two_orders
                "  CARD " "card" eq_refl).
Defined.

End orders_view.

(** ** The form *)

Lemma split_not_nil sep s : split sep s ≠ [].
Proof.
  destruct s as [|c s]; [done|]. cbn [split].
  destruct (Ascii.eqb c sep); [done|]. by destruct (split sep s).
Qed.

Lemma split_without sep name :
  mentions sep name = false → split sep name = [name].
Proof.
  induction name as [|c name IH]; [done|].
  cbn [mentions split]. intros [Hc Hrest]%orb_false_iff.
  by rewrite Hc, (IH Hrest).
Qed.

Lemma split_app sep dir rest :
  split sep (dir +:+ String sep rest) = (split sep dir ++ split sep rest)%list.
Proof.
  induction dir as [|c dir IH].
  - change (EmptyString +:+ String sep rest) with (String sep rest).
    cbn [split]. by rewrite Ascii.eqb_refl.
  - change (String c dir +:+ String sep rest)
      with (String c (dir +:+ String sep rest)).
    cbn [split]. rewrite IH.
    destruct (Ascii.eqb c sep); [done|].
    pose proof (split_not_nil sep dir).
    by destruct (split sep dir).
Qed.

(** X27: the image name is what follows the last slash.  For a name
    without a slash, [extractImageName] of the name behind any directory
    part and a slash is that name, and of the name alone it is the name:
    it takes no more than the last segment and no less. *)
Theorem extractImageName_takes_the_last_segment (dir name : string) :
  mentions slash name = false →
  extractImageName (dir +:+ String slash name) = name ∧
  extractImageName name = name.
Proof.
  intros H. unfold extractImageName.
  rewrite split_app, (split_without _ _ H), last_snoc. cbn [last].
  by destruct name.
Qed.

Lemma extractImageName_witness :
  mentions slash "revolver.jpg" = false ∧
  extractImageName "https://img.example/covers/revolver.jpg" = "revolver.jpg".
Proof.
  split; [reflexivity|].
  exact (proj1 (extractImageName_takes_the_last_segment
                  "https://img.example/covers" "revolver.jpg" eq_refl)).
Defined.

Lemma with_groupName_same (r : IRecord) : with_groupName (groupName r) r = r.
Proof. by destruct r. Qed.

Lemma edit_Ok (r : IRecord) (st : View.View) :
  Forall (fun g => nullish g = false) (groups st) →
  ∃ name,
    edit r st
    = (Ok tt,
       set_record
         (with_groupName name (with_photoName (Some (image_name r)) r)) st).
Proof.
  intros Hg. unfold edit. cbv zeta.
  assert (Hsame : ∀ A (x : A),
    (x, set_record (with_photoName (Some (image_name r)) r) st)
    = (x, set_record
            (with_groupName (groupName r)
               (with_photoName (Some (image_name r)) r)) st)).
  { intros A x. by rewrite (with_groupName_same (with_photoName _ r)). }
  destruct (groupId r) as [| |gid]; try (exists (groupName r); apply Hsame).
  destruct (Z.eqb gid 0); [exists (groupName r); apply Hsame|].
  cbn [groups set_record].
  destruct (find_group_spec (groups st) gid Hg) as (found & -> & Hf).
  destruct found as [g|]; [|exists (groupName r); apply Hsame].
  destruct (truthy g); [|exists (groupName r); apply Hsame].
  by eexists.
Qed.

(** X28: editing a record and saving updates that record.  With groups
    that are objects, for a record that has an identifier other than 0, a
    title, a price, a stock and a group, [edit(record)] followed by a
    [save()] that the remote end confirms issues a PUT to that record's
    identifier and then the two requests of a load.  The form sent has the
    fields IdRecord, TitleRecord, Price, Stock, Discontinued,
    YearOfPublication and GroupId, in this order and no other: it carries
    the identifier, title, price, stock and group of the edited record,
    and neither the image name that [edit] has computed nor the group name
    it has looked up.  Afterwards the draft is empty again. *)
Theorem edit_then_save_puts_the_edited_record
    (r : IRecord) (g : Z) (body : JsValue) (records_answer : Http)
    (groups_answer : notification JsValue) (st : View.View) :
  Forall (fun g => nullish g = false) (groups st) →
  idRecord r ≠ 0%Z →
  missing_required r = false →
  groupId r = Val g → g ≠ 0%Z →
  truthy body = true →
  let st' :=
    ((run _ <- edit r; save (HttpOk body) records_answer groups_answer) st).2 in
  ∃ formData,
    requests st'
    = (requests st ++ [PutRecord (idRecord r) formData; GetRecords; GetGroups])%list ∧
    formData.*1
    = ["IdRecord"; "TitleRecord"; "Price"; "Stock"; "Discontinued";
       "YearOfPublication"; "GroupId"] ∧
    form_value "IdRecord" formData = Some (FormNumber (idRecord r)) ∧
    form_value "TitleRecord" formData = Some (FormText (titleRecord r)) ∧
    form_value "Price" formData = Some (FormNumber (price r)) ∧
    form_value "Stock" formData = Some (FormNumber (stock r)) ∧
    form_value "GroupId" formData = Some (FormNumber g) ∧
    record st' = empty_record.
Proof.
  intros Hg Hid Hreq Hgroup Hg0 Hb. cbv zeta.
  destruct (edit_Ok r st Hg) as [name E].
  unfold bind. rewrite E.
  set (draft := with_groupName name (with_photoName (Some (image_name r)) r)).
  assert (Hmiss : group_missing (groupId draft) = false).
  { cbn. rewrite Hgroup. cbn. by apply Z.eqb_neq. }
  destruct (save_confirmed (set_record draft st) body records_answer
              groups_answer) as (st1 & Qr & ->); try done.
  destruct (getRecords records_answer groups_answer
              (resetForm (set_visibleError false st1))) as [out st'] eqn:E'.
  apply getRecords_frame in E' as (Er & _ & Ed & _).
  eexists. cbn [snd]. rewrite Er, Ed.
  cbn [requests resetForm set_record set_visibleError record]. rewrite Qr.
  cbn [requests record set_record]. unfold save_request.
  replace (idRecord draft) with (idRecord r) by done.
  rewrite (proj2 (Z.eqb_neq _ _) Hid). rewrite <- app_assoc.
  split; [reflexivity|].
  unfold form_fields. cbn [fmap list_fmap fst form_value String.eqb Ascii.eqb
    Bool.eqb recordToSave draft with_groupName with_photoName titleRecord price
    stock groupId idRecord].
  rewrite Hgroup. by split_and!.
Qed.

Lemma edit_then_save_witness :
  Forall (fun g => nullish g = false) (groups catalogue) ∧
  idRecord (album 7 "Abbey Road" 5) ≠ 0%Z ∧
  ∃ formData,
    requests ((run _ <- edit (album 7 "Abbey Road" 5);
               save (HttpOk revolver) (HttpOk (JArr [])) (Next (JArr [])))
                catalogue).2
    = (requests catalogue ++ [PutRecord 7 formData; GetRecords; GetGroups])%list ∧
    form_value "Stock" formData = Some (FormNumber 5) ∧
    form_value "photoName" formData = None.
Proof.
  assert (Hg : Forall (fun g => nullish g = false) (groups catalogue))
    by (vm_compute; repeat constructor).
  assert (Hid : idRecord (album 7 "Abbey Road" 5) ≠ 0%Z) by done.
  split; [exact Hg|]. split; [exact Hid|].
  destruct (edit_then_save_puts_the_edited_record
              (album 7 "Abbey Road" 5) 1 revolver (HttpOk (JArr []))
              (Next (JArr [])) catalogue Hg Hid eq_refl eq_refl
              ltac:(done) eq_refl)
    as (formData & Hr & Hkeys & _ & _ & _ & Hstock & _).
  exists formData. split_and!; [exact Hr | exact Hstock |].
  destruct formData as [|[k1 v1] [|[k2 v2] [|[k3 v3] [|[k4 v4] [|[k5 v5]
    [|[k6 v6] [|[k7 v7] [|]]]]]]]]; try discriminate.
  by injection Hkeys as -> -> -> -> -> -> ->.
Defined.

(** ** One record by its identifier *)

Lemma group_name_truthy groupResponse : truthy (group_name groupResponse) = true.
Proof.
  unfold group_name. cbv zeta.
  destruct (truthy (optional_prop groupResponse "nameGroup")) eqn:E1; [done|].
  by destruct (truthy (optional_prop groupResponse "groupName")) eqn:E2.
Qed.

Lemma named_spec name record :
  truthy name = true →
  has_group_name (named name record) = true ∧
  ∀ k, k ≠ "groupName" → k ≠ "nameGroup" →
       prop_of_truthy (named name record) k
       = default JUndefined (assoc k (own_props record)).
Proof.
  intros Hn. unfold has_group_name, named. cbn [prop_of_truthy]. split.
  - rewrite assoc_set_prop_eq. unfold default, id. rewrite Hn. apply orb_true_r.
  - intros k H1 H2. by rewrite !assoc_set_prop_ne.
Qed.

(** X29: a record with a group comes back with a group name, however the
    group request ends.  For a record object with a truthy [groupId],
    [getRecordById] always emits a record, never an error: one that has a
    truthy [groupName] or [nameGroup] and agrees with the record received
    on every other property.  The group is requested only when the record
    came without a name, and always after the record. *)
Theorem getRecordById_names_the_group
    (id : Z) (fields : list (string * JsValue)) (group_answer : Http) :
  truthy (prop_of_truthy (JObj fields) "groupId") = true →
  ∃ emitted calls,
    getRecordById id (HttpOk (JObj fields)) group_answer = (Next emitted, calls) ∧
    has_group_name emitted = true ∧
    (∀ k, k ≠ "groupName" → k ≠ "nameGroup" →
          prop_of_truthy emitted k = prop_of_truthy (JObj fields) k) ∧
    calls = (GetRecord id ::
             if has_group_name (JObj fields) then []
             else [GetGroup (prop_of_truthy (JObj fields) "groupId")]).
Proof.
  intros Hg. unfold getRecordById, has_group_name.
  cbn [prop]. change (default JUndefined (assoc ?k fields))
    with (prop_of_truthy (JObj fields) k).
  destruct (truthy (prop_of_truthy (JObj fields) "groupName")
            || truthy (prop_of_truthy (JObj fields) "nameGroup")) eqn:E.
  - eexists _, _. by split_and!.
  - cbv zeta. rewrite Hg.
    destruct group_answer as [groupResponse|err].
    + destruct (named_spec (group_name groupResponse) (JObj fields)
                  (group_name_truthy _)) as [H1 H2].
      eexists _, _. by split_and!.
    + destruct (named_spec (JStr "Error cargando grupo") (JObj fields) eq_refl)
        as [H1 H2].
      eexists _, _. by split_and!.
Qed.

Lemma getRecordById_names_the_group_witness :
  truthy (prop_of_truthy revolver "groupId") = true ∧
  ∃ emitted,
    (getRecordById 1 (HttpOk revolver) (HttpError JNull)).1 = Next emitted ∧
    has_group_name emitted = true.
Proof.
  assert (H : truthy (prop_of_truthy revolver "groupId") = true) by reflexivity.
  split; [exact H|].
  destruct (getRecordById_names_the_group 1 _ (HttpError JNull) H)
    as (emitted & calls & E & Hn & _).
  exists emitted. split; [|exact Hn].
  unfold revolver. by rewrite E.
Defined.

(** ** The records of one group *)



